(** * lavacore: voice-credential forwarding, backoff, REST client, equalizer

    A shallow embedding of the parts of the lavacore sources that the
    specification talks about:

    - [src/manager/VoiceForwarder.ts]  (module [VoiceForwarder])
    - [src/utils/http.ts]              (modules [Double], [Backoff], [Http])
    - the [FilterBuilder] class        (modules [Filter], [FilterBuilder])
    - [src/utils/autoplay.ts]          (module [AutoPlay])

    JavaScript values are modelled as follows.  A string-valued field that
    may be [null]/[undefined] is an [option string]; truthiness is
    [truthy].  A [Map<string, _>] is a [gmap string _].  The numbers of
    the backoff policy are IEEE 754 doubles, each operation rounding its
    exact result.  Asynchronous methods are run to completion one call
    after the other; every observable action (an emitted event, a call on
    the player) is appended to a trace, a [throw] is the [inl] of the
    result, and an awaited call of the player may reject. *)

From Stdlib Require Import ZArith QArith Qround Qminmax Qpower Lqa Lia.
From stdpp Require Import gmap strings list fin_maps pretty.

Local Open Scope string_scope.

(** ** JavaScript truthiness of an optional string *)

Definition truthy (v : option string) : bool :=
  match v with
  | Some s => negb (String.eqb s "")
  | None => false
  end.

(** * VoiceForwarder *)

Module VoiceForwarder.

(** [interface VoiceConnection] *)
Record VoiceConnection := mkVoiceConnection {
  guildId : string;
  channelId : option string;
  sessionId : option string;
  token : option string;
  endpoint : option string;
}.

(** Modelled from the spec: [VoiceState] is declared in [types/lavalink],
    which is not part of the sources at hand; it is the combined credential
    handed to [player.updateVoiceState], with the three fields
    [forwardVoiceState] fills in. *)
Record VoiceState := mkVoiceState {
  vs_token : string;
  vs_endpoint : string;
  vs_sessionId : string;
}.

(** Modelled from the spec: the [Player] class is not part of the sources
    at hand.  The forwarder reads [guildId] and [voiceChannelId]; the
    assigned node is the field the session record of the data model adds.
    The two methods the forwarder awaits are given by how their promise
    settles at the time of the call: [None] when it resolves, [Some msg]
    when it rejects with an error of message [msg].  The forwarder catches
    neither. *)
Record Player := mkPlayer {
  p_guildId : string;
  p_node : string;
  voiceChannelId : option string;
  disconnect : option string;
  updateVoiceState : VoiceState -> option string;
}.

(** Modelled from the spec: the packet types are declared in
    [types/lavalink], which is not part of the sources at hand.  A server
    event carries a token and an endpoint for the guild; the fields are the
    ones [handleVoiceServerUpdate] reads off [packet.d].  [None] is
    [null]/[undefined]. *)
Record VoiceServerData := mkServerData {
  sv_guild_id : string;
  sv_token : option string;
  sv_endpoint : option string;
}.

(** Modelled from the spec: a state event carries the session identifier
    and the channel the bot occupies, or none if it left; the fields are
    the ones [handleVoiceStateUpdate] reads off [packet.d]. *)
Record VoiceStateData := mkStateData {
  st_guild_id : string;
  st_user_id : string;
  st_session_id : option string;
  st_channel_id : option string;
}.

(** [packet.t] and [packet.d]; [handleVoiceUpdate] ignores any other kind
    of packet. *)
Inductive DiscordVoiceEvent :=
| VOICE_SERVER_UPDATE (d : VoiceServerData)
| VOICE_STATE_UPDATE (d : VoiceStateData)
| OTHER_EVENT (t : string).

(** Everything the forwarder does to the outside world.  An emitted event
    is delivered to listeners that are taken not to throw. *)
Inductive Effect :=
| Emit_debug (msg : string)
| Emit_playerMove (p : Player) (oldChannel newChannel : option string)
| Player_disconnect (p : Player)
| Player_updateVoiceState (p : Player) (v : VoiceState).

Abbreviation Store := (gmap string VoiceConnection).

(** One call [handleVoiceUpdate(packet, player?)]. *)
Abbreviation Call := (DiscordVoiceEvent * option Player)%type.

(** The outcome of running a method: the [voiceStates] map afterwards, the
    actions performed in order, and either the thrown message or the
    returned value. *)
Record Outcome (A : Type) := mkOutcome {
  o_store : Store;
  o_trace : list Effect;
  o_result : string + A;
}.
Arguments mkOutcome {A}.
Arguments o_store {A}.
Arguments o_trace {A}.
Arguments o_result {A}.

Definition M (A : Type) : Type := Store -> Outcome A.

Definition ret {A} (a : A) : M A := fun s => mkOutcome s [] (inr a).

Definition bind {A B} (m : M A) (k : A -> M B) : M B := fun s =>
  let o := m s in
  match o_result o with
  | inl e => mkOutcome (o_store o) (o_trace o) (inl e)
  | inr a =>
      let o' := k a (o_store o) in
      mkOutcome (o_store o') (o_trace o ++ o_trace o') (o_result o')
  end.

Definition throw {A} (msg : string) : M A := fun s => mkOutcome s [] (inl msg).

(** How an awaited promise ends: it returns, or throws what the promise
    rejected with. *)
Definition settled (r : option string) : string + unit :=
  match r with Some e => inl e | None => inr tt end.

(** [await promise] *)
Definition await (r : option string) : M unit :=
  fun s => mkOutcome s [] (settled r).
Definition perform (e : Effect) : M unit := fun s => mkOutcome s [e] (inr tt).
Definition voiceStates_get (g : string) : M (option VoiceConnection) :=
  fun s => mkOutcome s [] (inr (s !! g)).
Definition voiceStates_set (g : string) (v : VoiceConnection) : M unit :=
  fun s => mkOutcome (<[g := v]> s) [] (inr tt).
Definition voiceStates_delete (g : string) : M unit :=
  fun s => mkOutcome (delete g s) [] (inr tt).

#[local] Instance M_ret : MRet M := @ret.
#[local] Instance M_bind : MBind M := fun A B k m => bind m k.

Section Forwarder.

(** [this.clientId] *)
Variable clientId : string.

(** [forwardVoiceState(player, voiceState)] *)
Definition forwardVoiceState (player : Player) (voiceState : VoiceConnection)
  : M unit :=
  if negb (truthy (sessionId voiceState))
     || negb (truthy (token voiceState))
     || negb (truthy (endpoint voiceState))
  then throw "Incomplete voice state"
  else
    match token voiceState, endpoint voiceState, sessionId voiceState with
    | Some t, Some e, Some s =>
        perform (Player_updateVoiceState player (mkVoiceState t e s));;
        await (updateVoiceState player (mkVoiceState t e s));;
        perform (Emit_debug
          ("Forwarded voice state to Lavalink for guild " ++ p_guildId player))
    | _, _, _ => throw "Incomplete voice state"
    end.

(** [handleVoiceServerUpdate(packet, player?)].  The object stored in the
    map is the one the method mutates, so the entry of the map is the
    updated record. *)
Definition handleVoiceServerUpdate (d : VoiceServerData) (player : option Player)
  : M unit :=
  let guild_id := sv_guild_id d in
  perform (Emit_debug ("Voice server update for guild " ++ guild_id));;
  found ← voiceStates_get guild_id;
  let voiceState0 :=
    match found with
    | Some v => v
    | None => mkVoiceConnection guild_id None None None None
    end in
  let voiceState :=
    mkVoiceConnection (guildId voiceState0) (channelId voiceState0)
      (sessionId voiceState0) (sv_token d) (sv_endpoint d) in
  voiceStates_set guild_id voiceState;;
  match player with
  | Some p =>
      if truthy (sessionId voiceState) then forwardVoiceState p voiceState
      else mret tt
  | None => mret tt
  end.

(** [handleVoiceStateUpdate(packet, player?)].  Where
    [player.voiceChannelId !== channel_id] is evaluated, [channel_id] is a
    non-empty string, so the comparison is the one of the options. *)
Definition handleVoiceStateUpdate (d : VoiceStateData) (player : option Player)
  : M unit :=
  let guild_id := st_guild_id d in
  let channel_id := st_channel_id d in
  if negb (String.eqb (st_user_id d) clientId) then mret tt
  else
    perform (Emit_debug ("Voice state update for guild " ++ guild_id));;
    found ← voiceStates_get guild_id;
    let voiceState0 :=
      match found with
      | Some v => v
      | None => mkVoiceConnection guild_id channel_id None None None
      end in
    let voiceState :=
      mkVoiceConnection (guildId voiceState0) channel_id
        (st_session_id d) (token voiceState0) (endpoint voiceState0) in
    voiceStates_set guild_id voiceState;;
    if negb (truthy channel_id) then
      voiceStates_delete guild_id;;
      match player with
      | Some p => perform (Player_disconnect p);; await (disconnect p)
      | None => mret tt
      end
    else
      match player with
      | Some p =>
          (if negb (bool_decide (voiceChannelId p = channel_id))
           then perform (Emit_playerMove p (voiceChannelId p) channel_id)
           else mret tt);;
          if truthy (token voiceState) && truthy (endpoint voiceState)
          then forwardVoiceState p voiceState
          else mret tt
      | None => mret tt
      end.

(** [handleVoiceUpdate(packet, player?)] *)
Definition handleVoiceUpdate (packet : DiscordVoiceEvent) (player : option Player)
  : M unit :=
  match packet with
  | VOICE_SERVER_UPDATE d => handleVoiceServerUpdate d player
  | VOICE_STATE_UPDATE d => handleVoiceStateUpdate d player
  | OTHER_EVENT _ => mret tt
  end.

(** A run of the forwarder over a sequence of calls
    [handleVoiceUpdate(packet, player)].  A rejected call does not stop
    the following ones; the thrown messages are collected. *)
Record Run := mkRun {
  run_store : Store;
  run_trace : list Effect;
  run_errors : list string;
}.

Definition result_errors {A} (r : string + A) : list string :=
  match r with inl e => [e] | inr _ => [] end.

Fixpoint process (calls : list Call) (s : Store)
  : Run :=
  match calls with
  | [] => mkRun s [] []
  | (packet, player) :: rest =>
      let o := handleVoiceUpdate packet player s in
      let r := process rest (o_store o) in
      mkRun (run_store r) (o_trace o ++ run_trace r)
            (result_errors (o_result o) ++ run_errors r)
  end.

(** The credentials handed to the player, in order. *)
Definition forwards (t : list Effect) : list VoiceState :=
  omap (fun e => match e with
                 | Player_updateVoiceState _ v => Some v
                 | _ => None
                 end) t.

Definition is_move (e : Effect) : bool :=
  match e with Emit_playerMove _ _ _ => true | _ => false end.

(** ** Vocabulary for stating properties of runs *)

(** A stored state is complete when the three fragments are truthy. *)
Definition complete (v : VoiceConnection) : bool :=
  truthy (sessionId v) && truthy (token v) && truthy (endpoint v).

Definition credential (v : VoiceConnection) : VoiceState :=
  mkVoiceState (default "" (token v)) (default "" (endpoint v))
               (default "" (sessionId v)).

(** The entry a [VOICE_SERVER_UPDATE] leaves in the map. *)
Definition server_entry (d : VoiceServerData) (s : Store) : VoiceConnection :=
  let v0 := default (mkVoiceConnection (sv_guild_id d) None None None None)
                    (s !! sv_guild_id d) in
  mkVoiceConnection (guildId v0) (channelId v0) (sessionId v0)
                    (sv_token d) (sv_endpoint d).

(** The entry a [VOICE_STATE_UPDATE] of the bot writes to the map (before
    a possible deletion). *)
Definition state_entry (d : VoiceStateData) (s : Store) : VoiceConnection :=
  let v0 := default (mkVoiceConnection (st_guild_id d) (st_channel_id d)
                                       None None None)
                    (s !! st_guild_id d) in
  mkVoiceConnection (guildId v0) (st_channel_id d) (st_session_id d)
                    (token v0) (endpoint v0).

Definition prepend {A} (t : list Effect) (o : Outcome A) : Outcome A :=
  mkOutcome (o_store o) (t ++ o_trace o) (o_result o).

(** A call that carries its fragments: a player is given, a server event
    has a token and an endpoint, a state event is the bot's and has a
    session id and a channel. *)
Definition good_call (g : string) (c : Call) : Prop :=
  match c with
  | (VOICE_SERVER_UPDATE d, Some _) =>
      sv_guild_id d = g /\ truthy (sv_token d) = true /\
      truthy (sv_endpoint d) = true
  | (VOICE_STATE_UPDATE d, Some _) =>
      st_guild_id d = g /\ st_user_id d = clientId /\
      truthy (st_session_id d) = true /\ truthy (st_channel_id d) = true
  | _ => False
  end.

Definition has_player (c : Call) : Prop := snd c <> None.

(** The player of the call resolves whatever it is asked. *)
Definition resolving (c : Call) : Prop :=
  match snd c with
  | Some p => disconnect p = None /\ forall v, updateVoiceState p v = None
  | None => True
  end.

(** What is known of a guild's voice connection, in the words of the
    specification: the server fragment (token and endpoint) and the state
    fragment (session id). *)
Record Fragments := mkFragments {
  f_token : option string;
  f_endpoint : option string;
  f_session : option string;
}.

Definition nothing_known : Fragments := mkFragments None None None.

(** A server event brings the server fragment; a state event of the bot
    in a channel brings the state fragment; a state event of the bot
    without a channel (it left) forgets both; any other event, a state
    event of another user included, changes nothing. *)
Definition learn (f : Fragments) (c : Call) : Fragments :=
  match fst c with
  | VOICE_SERVER_UPDATE d =>
      mkFragments (sv_token d) (sv_endpoint d) (f_session f)
  | VOICE_STATE_UPDATE d =>
      if String.eqb (st_user_id d) clientId then
        if truthy (st_channel_id d)
        then mkFragments (f_token f) (f_endpoint f) (st_session_id d)
        else nothing_known
      else f
  | OTHER_EVENT _ => f
  end.

(** The fragments known after the calls [seen]. *)
Definition known (seen : list Call) : Fragments :=
  fold_left learn seen nothing_known.

Definition brings_fragment (c : Call) : bool :=
  match fst c with
  | VOICE_SERVER_UPDATE _ => true
  | VOICE_STATE_UPDATE d =>
      String.eqb (st_user_id d) clientId && truthy (st_channel_id d)
  | OTHER_EVENT _ => false
  end.

(** The credential due at the last call of [seen]: the pair known by
    then, if that call brought a fragment and both fragments are present
    and non-empty; none otherwise. *)
Definition due (seen : list Call) : list VoiceState :=
  match last seen with
  | Some c =>
      let f := known seen in
      if brings_fragment c && truthy (f_session f)
         && truthy (f_token f) && truthy (f_endpoint f)
      then [mkVoiceState (default "" (f_token f)) (default "" (f_endpoint f))
                         (default "" (f_session f))]
      else []
  | None => []
  end.

(** The non-empty prefixes of a list, shortest first. *)
Fixpoint prefixes {A} (l : list A) : list (list A) :=
  match l with
  | [] => []
  | x :: rest => [x] :: map (cons x) (prefixes rest)
  end.

(** The stored entry of [g] holds the fragments known after [seen]. *)
Definition reflects (g : string) (seen : list Call) (s : Store) : Prop :=
  (s !! g ≫= token) = f_token (known seen) /\
  (s !! g ≫= endpoint) = f_endpoint (known seen) /\
  (s !! g ≫= sessionId) = f_session (known seen).

Definition for_guild (g : string) (c : Call) : Prop :=
  match fst c with
  | VOICE_SERVER_UPDATE d => sv_guild_id d = g
  | VOICE_STATE_UPDATE d => st_guild_id d = g
  | OTHER_EVENT _ => True
  end.

Definition is_server (c : Call) : bool :=
  match fst c with VOICE_SERVER_UPDATE _ => true | _ => false end.

Definition is_state (c : Call) : bool :=
  match fst c with VOICE_STATE_UPDATE _ => true | _ => false end.

Definition no_session (g : string) (s : Store) : Prop :=
  truthy (s !! g ≫= sessionId) = false.

Definition no_token (g : string) (s : Store) : Prop :=
  truthy (s !! g ≫= token) && truthy (s !! g ≫= endpoint) = false.

End Forwarder.

(** ** Sample values used in the concrete runs below *)

Definition bot : string := "bot".
Definition player1 : Player :=
  mkPlayer "g" "node-1" (Some "c1") None (fun _ => None).
Definition player2 : Player :=
  mkPlayer "g" "node-2" (Some "c1") None (fun _ => None).

(** A player whose node is gone: both methods reject. *)
Definition stranded : Player :=
  mkPlayer "g" "node-1" (Some "c1") (Some "Node not connected")
           (fun _ => Some "Node not connected").
Definition joined : DiscordVoiceEvent :=
  VOICE_STATE_UPDATE (mkStateData "g" "bot" (Some "sess") (Some "c1")).
Definition server : DiscordVoiceEvent :=
  VOICE_SERVER_UPDATE (mkServerData "g" (Some "T") (Some "E")).
Definition left : DiscordVoiceEvent :=
  VOICE_STATE_UPDATE (mkStateData "g" "bot" (Some "sess") None).
Definition empty_endpoint : DiscordVoiceEvent :=
  VOICE_SERVER_UPDATE (mkServerData "g" (Some "T") (Some "")).
Definition null_endpoint : DiscordVoiceEvent :=
  VOICE_SERVER_UPDATE (mkServerData "g" (Some "T") None).
Definition empty_session : DiscordVoiceEvent :=
  VOICE_STATE_UPDATE (mkStateData "g" "bot" (Some "") (Some "c1")).

Definition server_elsewhere : DiscordVoiceEvent :=
  VOICE_SERVER_UPDATE (mkServerData "h" (Some "T2") (Some "E2")).
Definition bystander : DiscordVoiceEvent :=
  VOICE_STATE_UPDATE (mkStateData "g" "someone" (Some "other") (Some "c9")).

(** The bot joins, the server event arrives twice (the second time with a
    player whose node is gone), another user moves, the bot leaves, and a
    server event arrives once more. *)
Definition visit : list Call :=
  [(joined, Some player1); (server, Some player1); (server, Some stranded);
   (bystander, Some player1); (left, Some player1); (server, Some player1)].

(** ** The accessors of the map *)

(** [getVoiceState(guildId)] *)
Definition getVoiceState (g : string) : M (option VoiceConnection) :=
  voiceStates_get g.

(** [clearVoiceState(guildId)] *)
Definition clearVoiceState (g : string) : M unit := voiceStates_delete g.

(** [clearAllVoiceStates()] *)
Definition clearAllVoiceStates : M unit :=
  fun _ => mkOutcome ∅ [] (inr tt).

(** [getAllVoiceStates()]: a new map with the same entries. *)
Definition getAllVoiceStates : M Store := fun s => mkOutcome s [] (inr s).

(** The guild a packet is about. *)
Definition packet_guild (packet : DiscordVoiceEvent) : option string :=
  match packet with
  | VOICE_SERVER_UPDATE d => Some (sv_guild_id d)
  | VOICE_STATE_UPDATE d => Some (st_guild_id d)
  | OTHER_EVENT _ => None
  end.

(** The public operations that write the map. *)
Inductive Operation :=
| Op_handleVoiceUpdate (packet : DiscordVoiceEvent) (player : option Player)
| Op_clearVoiceState (g : string)
| Op_clearAllVoiceStates.

Definition operation (clientId : string) (op : Operation) : M unit :=
  match op with
  | Op_handleVoiceUpdate packet player => handleVoiceUpdate clientId packet player
  | Op_clearVoiceState g => clearVoiceState g
  | Op_clearAllVoiceStates => clearAllVoiceStates
  end.

(** The map after a sequence of operations, rejected calls included. *)
Fixpoint operate (clientId : string) (ops : list Operation) (s : Store) : Store :=
  match ops with
  | [] => s
  | op :: rest => operate clientId rest (o_store (operation clientId op s))
  end.

(** What every entry of the map satisfies: it is filed under its own guild,
    and it has a session id only together with a channel. *)
Definition well_kept (s : Store) : Prop :=
  forall g v, s !! g = Some v ->
    guildId v = g /\
    (truthy (channelId v) = true \/
     (channelId v = None /\ sessionId v = None)).

Definition is_debug (e : Effect) : bool :=
  match e with Emit_debug _ => true | _ => false end.

End VoiceForwarder.

(** * JavaScript errors and thrown values *)

(** An instance of [Error] (or of a subclass). *)
Record JsError := mkJsError {
  err_name : string;
  err_message : string;
}.

(** [new Error(message)] *)
Definition new_Error (message : string) : JsError := mkJsError "Error" message.

(** What a [throw] or a rejected promise carries: an [Error] instance, or
    any other value, kept as its [String(_)] image. *)
Inductive Thrown :=
| Thrown_Error (e : JsError)
| Thrown_value (printed : string).

(** [error instanceof Error ? error : new Error(String(error))] *)
Definition toError (t : Thrown) : JsError :=
  match t with
  | Thrown_Error e => e
  | Thrown_value printed => new_Error printed
  end.

(** * JavaScript numbers

    A JavaScript number is an IEEE 754 double: [NaN], one of the two
    infinities, or a finite double, given by the rational it stands for.
    An operation returns its exact result rounded to the nearest double,
    ties to even, as IEEE 754 has it.  The sign of zero is not kept: no
    operation of [next()] tells [+0] from [-0] ([Math.max(0, -0)] is
    [+0]). *)

Module Double.

Local Open Scope Q_scope.

Inductive double := NaN | PosInf | NegInf | Fin (q : Q).

(** [2^k] *)
Definition pow2 (k : Z) : Q := 2 ^ k.

(** [floor(log2(a))] for a positive [a] *)
Definition ilog2 (a : Q) : Z :=
  let k := (Z.log2 (Qnum a) - Z.log2 (Z.pos (Qden a)))%Z in
  if Qle_bool (pow2 k) a then k else (k - 1)%Z.

(** The integer nearest to [x], the even one of two that are equally
    near. *)
Definition rne (x : Q) : Z :=
  let f := Qfloor x in
  match Qcompare (x - inject_Z f) (1 # 2) with
  | Lt => f
  | Gt => (f + 1)%Z
  | Eq => if Z.even f then f else (f + 1)%Z
  end.

(** The exponent of the unit in the last place of a positive [a]: 53
    significant bits, and no exponent below [-1074] (subnormal numbers). *)
Definition ulp_exponent (a : Q) : Z := Z.max (ilog2 a - 52) (-1074).

(** A positive [a] rounded to a multiple of its unit in the last place. *)
Definition round_pos (a : Q) : Q :=
  let e := ulp_exponent a in
  inject_Z (rne (a * pow2 (- e))) * pow2 e.

Definition overflow (v : Q) : bool := Qle_bool (pow2 1024) v.

(** Round to nearest, ties to even: the double a real result becomes.  A
    result that rounds to [2^1024] or more becomes an infinity.  The
    rational of a [Fin] is kept in lowest terms, so equal doubles are
    equal terms. *)
Definition round (q : Q) : double :=
  match Qcompare q 0 with
  | Eq => Fin 0
  | Gt => let v := round_pos q in
          if overflow v then PosInf else Fin (Qred v)
  | Lt => let v := round_pos (- q) in
          if overflow v then NegInf else Fin (Qred (- v))
  end.

(** [v] is a double: rounding leaves it as it is. *)
Definition is_double (v : Q) : bool :=
  match round v with
  | Fin w => Qeq_bool w v
  | _ => false
  end.

(** A non-negative multiple of a power of two with a 53-bit mantissa. *)
Definition grid (v : Q) : Prop :=
  exists m e, v == inject_Z m * pow2 e /\ (0 <= m < 2 ^ 53)%Z /\ (-1074 <= e)%Z.

(** The arithmetic of JavaScript numbers: the exact result, rounded.
    [x * y] *)
Definition mul (x y : double) : double :=
  match x, y with
  | NaN, _ => NaN
  | _, NaN => NaN
  | Fin a, Fin b => round (a * b)
  | Fin a, PosInf | PosInf, Fin a =>
      match Qcompare a 0 with Eq => NaN | Gt => PosInf | Lt => NegInf end
  | Fin a, NegInf | NegInf, Fin a =>
      match Qcompare a 0 with Eq => NaN | Gt => NegInf | Lt => PosInf end
  | PosInf, PosInf | NegInf, NegInf => PosInf
  | PosInf, NegInf | NegInf, PosInf => NegInf
  end.

(** [x + y] *)
Definition add (x y : double) : double :=
  match x, y with
  | NaN, _ => NaN
  | _, NaN => NaN
  | Fin a, Fin b => round (a + b)
  | PosInf, NegInf | NegInf, PosInf => NaN
  | PosInf, _ | _, PosInf => PosInf
  | NegInf, _ | _, NegInf => NegInf
  end.

(** [x - y] *)
Definition sub (x y : double) : double :=
  match x, y with
  | NaN, _ => NaN
  | _, NaN => NaN
  | Fin a, Fin b => round (a - b)
  | PosInf, PosInf | NegInf, NegInf => NaN
  | PosInf, _ | _, NegInf => PosInf
  | NegInf, _ | _, PosInf => NegInf
  end.

(** [Math.pow(2, n)] for a count [n]: exact up to [2^1023], [Infinity]
    from [n = 1024] on. *)
Definition Math_pow2 (n : nat) : double :=
  if (n <? 1024)%nat then Fin (inject_Z (2 ^ Z.of_nat n)) else PosInf.

(** [Math.min(x, y)] *)
Definition Math_min (x y : double) : double :=
  match x, y with
  | NaN, _ => NaN
  | _, NaN => NaN
  | NegInf, _ | _, NegInf => NegInf
  | PosInf, z | z, PosInf => z
  | Fin a, Fin b => if Qle_bool a b then x else y
  end.

(** [Math.max(x, y)] *)
Definition Math_max (x y : double) : double :=
  match x, y with
  | NaN, _ => NaN
  | _, NaN => NaN
  | PosInf, _ | _, PosInf => PosInf
  | NegInf, z | z, NegInf => z
  | Fin a, Fin b => if Qle_bool a b then y else x
  end.

(** [Math.floor(x)] *)
Definition Math_floor (x : double) : double :=
  match x with
  | Fin q => Fin (inject_Z (Qfloor q))
  | _ => x
  end.

(** A finite double between two bounds. *)
Definition between (lo hi : Q) (x : double) : Prop :=
  match x with
  | Fin q => is_double q = true /\ lo <= q <= hi
  | _ => False
  end.

(** The rational a finite double stands for. *)
Definition value (x : double) : Q :=
  match x with Fin q => q | _ => 0 end.

(** A finite double that is not negative. *)
Definition nonnegative (x : double) : Prop :=
  match x with
  | Fin q => is_double q = true /\ 0 <= q
  | _ => False
  end.

(** A value [Math.random()] can return: a double in [[0, 1)]. *)
Definition drawn (x : double) : Prop :=
  match x with
  | Fin q => is_double q = true /\ 0 <= q < 1
  | _ => False
  end.

End Double.

(** * ExponentialBackoff and withBackoff

    Delays and the jitter are doubles.  The attempt counter and
    [maxAttempts] are counts.  [Math.random()] is an argument [r] of
    [next], a double in [[0, 1)]. *)

Module Backoff.

Import Double.

Local Open Scope Q_scope.

(** The literals [0.2], [0.15] and [0.1]: the nearest doubles. *)
Definition default_jitter : double := Eval vm_compute in round 0.2.
Definition jitter_015 : double := Eval vm_compute in round 0.15.
Definition jitter_01 : double := Eval vm_compute in round 0.1.

(** [interface BackoffOptions]; [maxAttempts] is a count. *)
Record BackoffOptions := mkOptions {
  baseDelay : double;
  maxDelay : double;
  maxAttempts : Z;
  jitter : double;
}.

(** [Partial<BackoffOptions>] *)
Record PartialBackoffOptions := mkPartial {
  opt_baseDelay : option double;
  opt_maxDelay : option double;
  opt_maxAttempts : option Z;
  opt_jitter : option double;
}.

(** [class ExponentialBackoff] *)
Record ExponentialBackoff := mkBackoff {
  attempt : nat;
  options : BackoffOptions;
}.

(** [constructor(options = {})] *)
Definition new (o : PartialBackoffOptions) : ExponentialBackoff :=
  mkBackoff 0
    (mkOptions (default (Fin 1000) (opt_baseDelay o))
               (default (Fin 60000) (opt_maxDelay o))
               (default 0%Z (opt_maxAttempts o))
               (default default_jitter (opt_jitter o))).

(** [hasReachedMaxAttempts()] *)
Definition hasReachedMaxAttempts (b : ExponentialBackoff) : bool :=
  (0 <? maxAttempts (options b))%Z
  && (maxAttempts (options b) <=? Z.of_nat (attempt b))%Z.

(** [next()], given the value [r] drawn by [Math.random()]: the object
    afterwards and the thrown message or the returned delay. *)
Definition next (r : double) (b : ExponentialBackoff)
  : ExponentialBackoff * (string + double) :=
  let o := options b in
  if (0 <? maxAttempts o)%Z && (maxAttempts o <=? Z.of_nat (attempt b))%Z
  then (b, inl "Maximum reconnection attempts reached"%string)
  else
    let exponentialDelay := mul (baseDelay o) (Math_pow2 (attempt b)) in
    let cappedDelay := Math_min exponentialDelay (maxDelay o) in
    let jitterRange := mul cappedDelay (jitter o) in
    let jitterValue := sub (mul (mul r jitterRange) (Fin 2)) jitterRange in
    let finalDelay := Math_max (Fin 0) (add cappedDelay jitterValue) in
    (mkBackoff (S (attempt b)) o, inr (Math_floor finalDelay)).

(** [getAttempt()] *)
Definition getAttempt (b : ExponentialBackoff) : nat := attempt b.

(** [reset()] *)
Definition reset (b : ExponentialBackoff) : ExponentialBackoff :=
  mkBackoff 0 (options b).

(** [getRemainingAttempts()] *)
Definition getRemainingAttempts (b : ExponentialBackoff) : Z :=
  if (maxAttempts (options b) =? 0)%Z then (-1)%Z
  else Z.max 0 (maxAttempts (options b) - Z.of_nat (attempt b)).

(** Successive calls of [next()], one per drawn value. *)
Fixpoint next_all (rs : list double) (b : ExponentialBackoff)
  : ExponentialBackoff * list (string + double) :=
  match rs with
  | [] => (b, [])
  | r :: rest =>
      let '(b1, x) := next r b in
      let '(b2, xs) := next_all rest b1 in
      (b2, x :: xs)
  end.

Definition returned {A B} (x : A + B) : bool :=
  match x with inr _ => true | inl _ => false end.

(** The capped delay of attempt [n]:
    [Math.min(baseDelay * Math.pow(2, n), maxDelay)]. *)
Definition capped (o : BackoffOptions) (n : nat) : double :=
  Math_min (mul (baseDelay o) (Math_pow2 n)) (maxDelay o).

(** [jitterValue], from the capped delay [c], the jitter [j] and the
    drawn value [r]: [Math.random() * jitterRange * 2 - jitterRange] with
    [jitterRange = c * j]. *)
Definition jitterValue (c j r : double) : double :=
  sub (mul (mul r (mul c j)) (Fin 2)) (mul c j).

(** What [next()] makes of the capped delay [c]:
    [Math.floor(Math.max(0, c + jitterValue))]. *)
Definition perturbed (c j r : double) : double :=
  Math_floor (Math_max (Fin 0) (add c (jitterValue c j r))).

(** The delay [next()] returns at attempt [n] when [Math.random()] gives
    [r]. *)
Definition delay_at (o : BackoffOptions) (r : double) (n : nat) : double :=
  perturbed (capped o n) (jitter o) r.

(** The bound on the delays: the cap and its share of jitter, each rounded
    up to a whole number. *)
Definition delay_bound (o : BackoffOptions) : Z :=
  (Qceiling (value (maxDelay o))
   + Qceiling (value (maxDelay o) * value (jitter o)))%Z.

(** A whole number of milliseconds between [0] and [hi]. *)
Definition whole_up_to (hi : Z) (d : double) : Prop :=
  exists z, d = Fin (inject_Z z) /\ (0 <= z <= hi)%Z.

(** ** [withBackoff(fn, options)]

    [fn i] is the outcome of the invocation number [i] of [fn] (counted
    from 0) and [rnd i] the value drawn by [Math.random()] in the [next()]
    that follows it.  The [while] loop runs on fuel: [w_outcome = None]
    means the fuel ran out before the loop ended. *)

Record BackoffRun (T : Type) := mkBackoffRun {
  w_invocations : nat;
  w_slept : list double;
  w_outcome : option (JsError + T);
}.
Arguments mkBackoffRun {T}.
Arguments w_invocations {T}.
Arguments w_slept {T}.
Arguments w_outcome {T}.

Fixpoint withBackoff_loop {T} (fuel : nat) (fn : nat -> Thrown + T)
    (rnd : nat -> double) (i : nat) (backoff : ExponentialBackoff)
    (lastError : option JsError) (slept : list double) : BackoffRun T :=
  match fuel with
  | O => mkBackoffRun i slept None
  | S fuel' =>
      if hasReachedMaxAttempts backoff then
        mkBackoffRun i slept
          (Some (inl (default
             (new_Error "Backoff failed with unknown error") lastError)))
      else
        match fn i with
        | inr v => mkBackoffRun (S i) slept (Some (inr v))
        | inl error =>
            let lastError := toError error in
            if hasReachedMaxAttempts backoff then
              mkBackoffRun (S i) slept (Some (inl lastError))
            else
              match next (rnd i) backoff with
              | (backoff', inr delay) =>
                  withBackoff_loop fuel' fn rnd (S i) backoff'
                    (Some lastError) (slept ++ [delay])
              | (_, inl msg) =>
                  mkBackoffRun (S i) slept (Some (inl (new_Error msg)))
              end
        end
  end.

Definition withBackoff {T} (fuel : nat) (fn : nat -> Thrown + T)
    (rnd : nat -> double) (o : PartialBackoffOptions) : BackoffRun T :=
  withBackoff_loop fuel fn rnd 0 (new o) None [].

Definition failed {T} (x : Thrown + T) : Prop :=
  match x with inl _ => True | inr _ => False end.

(** The delays slept after the invocations [i], ..., [i + n - 1]. *)
Definition delays_from (o : BackoffOptions) (rnd : nat -> double) (i n : nat)
  : list double :=
  map (fun j => delay_at o (rnd j) j) (seq i n).

(** ** Sample values *)

Definition half_jitter : ExponentialBackoff :=
  mkBackoff 0 (mkOptions (Fin 1) (Fin 60000) 0 (Fin (1#2))).

Definition negative_cap : ExponentialBackoff :=
  mkBackoff 0 (mkOptions (Fin 1000) (Fin (-1)) 0 default_jitter).

Definition three_attempts : BackoffOptions :=
  mkOptions (Fin 1000) (Fin 60000) 3 default_jitter.

Definition unbounded : BackoffOptions :=
  mkOptions (Fin 1000) (Fin 60000) 0 default_jitter.

Definition no_jitter : ExponentialBackoff :=
  mkBackoff 2 (mkOptions (Fin 1000) (Fin 60000) 0 (Fin 0)).

(** No delay between the attempts, as many attempts as it takes. *)
Definition no_delay : BackoffOptions :=
  mkOptions (Fin 0) (Fin 60000) 0 default_jitter.

(** A cap of 100 ms that the base delay has reached, jitter [0.15]. *)
Definition capped_at_100 : ExponentialBackoff :=
  mkBackoff 3 (mkOptions (Fin 100) (Fin 100) 0 jitter_015).

(** A base delay of 10 ms, jitter [0.1]. *)
Definition ten_ms : ExponentialBackoff :=
  mkBackoff 0 (mkOptions (Fin 10) (Fin 60000) 0 jitter_01).

(** The largest double below 1: [1 - 2^-53]. *)
Definition almost_one : double :=
  Fin (9007199254740991 # 9007199254740992).

Definition flaky : nat -> Thrown + string := fun i =>
  match i with
  | O => inl (Thrown_Error (new_Error "first"))
  | 1%nat => inl (Thrown_value "second")
  | _ => inr "done"%string
  end.

Definition always_failing : nat -> Thrown + string := fun i =>
  inl (Thrown_Error (new_Error (pretty i))).

(** A function that rejects with a string, not with an [Error]. *)
Definition raising_a_string : nat -> Thrown + string := fun _ =>
  inl (Thrown_value "boom").

End Backoff.

(** * HttpClient

    The outside world of [request] is [fetch], a function from what it is
    called with to how its promise settles.  A promise that never settles
    is [Pending]. *)

Module Http.

Inductive Promise (A : Type) :=
| Fulfilled (a : A)
| Rejected (t : Thrown)
| Pending.
Arguments Fulfilled {A}.
Arguments Rejected {A}.
Arguments Pending {A}.

Inductive Method := GET | POST | PATCH | DELETE.

(** A request body ([any]), as far as [request] looks at it: whether the
    value is truthy, and what [JSON.stringify] does with it (a throw, or
    the text, or [undefined]). *)
Record Body := mkBody {
  body_truthy : bool;
  body_stringify : Thrown + option string;
}.

(** [interface RequestOptions] *)
Record RequestOptions := mkRequestOptions {
  method : Method;
  endpoint : string;
  headers : option (gmap string string);
  body : option Body;
}.

(** [interface RequestConfig] *)
Record RequestConfig := mkRequestConfig {
  host : string;
  port : Z;
  password : string;
  secure : bool;
}.

(** [class HttpClient] *)
Record HttpClient := mkHttpClient {
  baseUrl : string;
  client_headers : gmap string string;
}.

Definition url_of (config : RequestConfig) : string :=
  (if secure config then "https" else "http") ++ "://" ++ host config
    ++ ":" ++ pretty (port config).

(** [constructor(config)] *)
Definition new (config : RequestConfig) : HttpClient :=
  mkHttpClient (url_of config)
    (<["Content-Type" := "application/json"]>
       (<["Authorization" := password config]> ∅)).

(** [updateConfig(config)] *)
Definition updateConfig (config : RequestConfig) (c : HttpClient) : HttpClient :=
  mkHttpClient (url_of config)
    (<["Authorization" := password config]> (client_headers c)).

(** The two arguments of [fetch]. *)
Record FetchCall := mkFetchCall {
  f_url : string;
  f_method : Method;
  f_headers : gmap string string;
  f_body : option string;
}.

(** What [request] reads of a [Response]. *)
Record Response := mkResponse {
  ok : bool;
  status : Z;
  statusText : string;
  content_length : option string;
  text : Promise string;
  json : Promise string;
}.

(** What [request] resolves to: [{}] or the parsed body. *)
Inductive Data := Empty_object | Parsed (j : string).

(** The [catch] block of [request]. *)
Definition request_catch (error : Thrown) : Promise Data :=
  match error with
  | Thrown_Error e =>
      Rejected (Thrown_Error (new_Error ("Request failed: " ++ err_message e)))
  | Thrown_value _ => Rejected error
  end.

(** [options.body ? JSON.stringify(options.body) : undefined] *)
Definition request_body (options : RequestOptions) : Thrown + option string :=
  match body options with
  | Some b => if body_truthy b then body_stringify b else inr None
  | None => inr None
  end.

(** [request(options)] *)
Definition request (c : HttpClient) (options : RequestOptions)
    (fetch : FetchCall -> Promise Response) : Promise Data :=
  let url := baseUrl c ++ endpoint options in
  let headers := default ∅ (headers options) ∪ client_headers c in
  match request_body options with
  | inl error => request_catch error
  | inr body =>
      match fetch (mkFetchCall url (method options) headers body) with
      | Pending => Pending
      | Rejected error => request_catch error
      | Fulfilled response =>
          if negb (ok response) then
            match text response with
            | Pending => Pending
            | Rejected error => request_catch error
            | Fulfilled errorText =>
                request_catch (Thrown_Error (new_Error
                  ("HTTP " ++ pretty (status response) ++ ": "
                   ++ statusText response ++ " - " ++ errorText)))
            end
          else if (status response =? 204)%Z
                  || bool_decide (content_length response = Some "0")
          then Fulfilled Empty_object
          else
            match json response with
            | Pending => Pending
            | Rejected error => request_catch error
            | Fulfilled data => Fulfilled (Parsed data)
            end
      end
  end.

(** [get], [post], [patch], [delete] *)
Definition get c endpoint headers :=
  request c (mkRequestOptions GET endpoint headers None).
Definition post c endpoint body headers :=
  request c (mkRequestOptions POST endpoint headers body).
Definition patch c endpoint body headers :=
  request c (mkRequestOptions PATCH endpoint headers body).
Definition delete c endpoint headers :=
  request c (mkRequestOptions DELETE endpoint headers None).

Definition settled {A} (p : Promise A) : Prop :=
  match p with Pending => False | _ => True end.

(** The transport has settled as far as [request] waits for it: [fetch]
    has, and so has the body read that [request] awaits. *)
Definition transport_settled (p : Promise Response) : Prop :=
  match p with
  | Pending => False
  | Rejected _ => True
  | Fulfilled response =>
      if negb (ok response) then settled (text response)
      else if (status response =? 204)%Z
              || bool_decide (content_length response = Some "0")
      then True
      else settled (json response)
  end.

(** The call [fetch] receives from [request]; none when
    [JSON.stringify] throws. *)
Definition fetch_call (c : HttpClient) (options : RequestOptions)
  : option FetchCall :=
  match request_body options with
  | inl _ => None
  | inr body =>
      Some (mkFetchCall (baseUrl c ++ endpoint options) (method options)
              (default ∅ (headers options) ∪ client_headers c) body)
  end.

(** ** Sample values *)

Definition local_node : HttpClient :=
  new (mkRequestConfig "localhost" 2333 "youshallnotpass" false).

Definition get_version : RequestOptions :=
  mkRequestOptions GET "/version" None None.

Definition override_auth : RequestOptions :=
  mkRequestOptions GET "/version"
    (Some {[ "Authorization" := "other"; "Accept" := "text/plain" ]}) None.

Definition hanging_fetch : FetchCall -> Promise Response := fun _ => Pending.

Definition refused_fetch : FetchCall -> Promise Response :=
  fun _ => Rejected (Thrown_Error (new_Error "fetch failed")).

Definition no_content_fetch : FetchCall -> Promise Response :=
  fun _ => Fulfilled (mkResponse true 204 "No Content" None Pending Pending).

End Http.

(** * FilterBuilder.equalizer

    A JavaScript number is [NaN], an infinity or a finite value; the
    comparisons [<] and [>] are false as soon as one side is [NaN]. *)

Module Filter.

Inductive number :=
| NaN
| NegInfinity
| PosInfinity
| Finite (q : Q).

(** [a < b] *)
Definition num_lt (a b : number) : bool :=
  match a, b with
  | NaN, _ | _, NaN => false
  | NegInfinity, NegInfinity => false
  | NegInfinity, _ => true
  | _, NegInfinity => false
  | PosInfinity, _ => false
  | Finite _, PosInfinity => true
  | Finite x, Finite y => negb (Qle_bool y x)
  end.

(** [a > b] *)
Definition num_gt (a b : number) : bool := num_lt b a.

(** Modelled from the spec: [EqualizerBand] and [FilterOptions] are declared
    in [types/lavalink], which is not part of the sources at hand; the
    fields are the ones [FilterBuilder] reads and writes. *)
Record EqualizerBand := mkBand {
  band : number;
  gain : number;
}.

Section Builder.

(** The filters other than the volume and the equalizer. *)
Variable OtherFilters : Type.

(** [interface FilterOptions] *)
Record FilterOptions := mkFilters {
  volume : option number;
  equalizer_bands : option (list EqualizerBand);
  others : OtherFilters;
}.

(** The [for] loop of [equalizer]: the message of the first [throw], if
    any. *)
Fixpoint equalizer_check (bands : list EqualizerBand) : option string :=
  match bands with
  | [] => None
  | b :: rest =>
      if num_lt (band b) (Finite 0) || num_gt (band b) (Finite 14)
      then Some "Equalizer band must be between 0 and 14"
      else if num_lt (gain b) (Finite (-0.25)) || num_gt (gain b) (Finite 1)
      then Some "Equalizer gain must be between -0.25 and 1.0"
      else equalizer_check rest
  end.

(** [equalizer(bands)]: [this.filters] afterwards, and the thrown message
    or the normal return. *)
Definition equalizer (bands : list EqualizerBand) (filters : FilterOptions)
  : FilterOptions * (string + unit) :=
  match equalizer_check bands with
  | Some msg => (filters, inl msg)
  | None =>
      (mkFilters (volume filters) (Some bands) (others filters), inr tt)
  end.

End Builder.

Arguments mkFilters {OtherFilters}.
Arguments volume {OtherFilters}.
Arguments equalizer_bands {OtherFilters}.
Arguments others {OtherFilters}.
Arguments equalizer {OtherFilters}.

(** [x] lies in the interval [[lo, hi]]. *)
Definition within (lo hi : Q) (x : number) : Prop :=
  match x with
  | Finite q => (lo <= q <= hi)%Q
  | _ => False
  end.

(** Some band has its index outside [[0, 14]] or its gain outside
    [[-0.25, 1.0]]. *)
Definition out_of_range (bands : list EqualizerBand) : Prop :=
  Exists (fun b => ~ within 0 14 (band b) \/ ~ within (-0.25) 1 (gain b)) bands.

(** The same with the comparisons of the code. *)
Definition rejected_band (b : EqualizerBand) : bool :=
  num_lt (band b) (Finite 0) || num_gt (band b) (Finite 14)
  || num_lt (gain b) (Finite (-0.25)) || num_gt (gain b) (Finite 1).

Definition is_NaN (x : number) : bool :=
  match x with NaN => true | _ => false end.

(** ** Sample values *)

Definition no_filters : FilterOptions unit := mkFilters None None tt.

Definition nan_band : list EqualizerBand := [mkBand NaN (Finite 0)].

Definition nan_gain : list EqualizerBand := [mkBand (Finite 3) NaN].

End Filter.

(** * FilterBuilder: the other setters

    The filter types are declared in [types/lavalink], which is not part
    of the sources at hand; their fields are the ones the builder reads and
    writes.  An optional field is an [option]: a key that is absent and a
    key holding [undefined] are not told apart.  Products of numbers
    ([gain * 0.8]) are exact. *)

Module FilterBuilder.

Import Filter.

(** [a <= b] *)
Definition num_le (a b : number) : bool :=
  match a, b with
  | NaN, _ | _, NaN => false
  | NegInfinity, _ => true
  | _, NegInfinity => false
  | _, PosInfinity => true
  | PosInfinity, Finite _ => false
  | Finite x, Finite y => Qle_bool x y
  end.

(** Modelled from the spec: the fields of the default object of
    [karaoke()]. *)
Record KaraokeFilter := mkKaraoke {
  level : number;
  monoLevel : number;
  filterBand : number;
  filterWidth : number;
}.

(** Modelled from the spec: the three optional fields [timescale] checks. *)
Record TimescaleFilter := mkTimescale {
  speed : option number;
  pitch : option number;
  rate : option number;
}.

(** Modelled from the spec: [TremoloFilter] and [VibratoFilter] have the
    two fields [tremolo] and [vibrato] check. *)
Record OscillationFilter := mkOscillation {
  frequency : number;
  depth : number;
}.

(** Modelled from the spec: the field [eightD] writes. *)
Record RotationFilter := mkRotation {
  rotationHz : number;
}.

(** Modelled from the spec: the field [soft] writes. *)
Record LowPassFilter := mkLowPass {
  smoothing : number;
}.

Section Builder.

(** [DistortionFilter] and [ChannelMixFilter]: the builder stores them as
    they come. *)
Variable DistortionFilter : Type.
Variable ChannelMixFilter : Type.

(** The keys of [FilterOptions] other than [volume] and [equalizer]. *)
Record Others := mkOthers {
  karaoke_filter : option KaraokeFilter;
  timescale_filter : option TimescaleFilter;
  tremolo_filter : option OscillationFilter;
  vibrato_filter : option OscillationFilter;
  rotation_filter : option RotationFilter;
  distortion_filter : option DistortionFilter;
  channelMix_filter : option ChannelMixFilter;
  lowPass_filter : option LowPassFilter;
}.

(** [this.filters] *)
Definition Filters : Type := FilterOptions Others.

(** [{}] *)
Definition no_others : Others :=
  mkOthers None None None None None None None None.

Definition empty : Filters := mkFilters None None no_others.

(** What a method that may throw leaves and gives. *)
Definition Result : Type := (Filters * (string + unit))%type.

Definition with_others (f : Filters) (o : Others) : Filters :=
  mkFilters (volume f) (equalizer_bands f) o.

(** [volume(volume)] *)
Definition set_volume (v : number) (f : Filters) : Result :=
  if num_lt v (Finite 0) || num_gt v (Finite 5)
  then (f, inl "Volume must be between 0.0 and 5.0")
  else (mkFilters (Some v) (equalizer_bands f) (others f), inr tt).

(** [keyof typeof EqualizerPresets] *)
Inductive Preset :=
| Bass | Treble | Soft | Flat | Electronic | Rock | Classical | Pop.

Definition band_gain (b : Z) (g : Q) : EqualizerBand :=
  mkBand (Finite (inject_Z b)) (Finite g).

(** [EqualizerPresets] *)
Definition EqualizerPresets (p : Preset) : list EqualizerBand :=
  match p with
  | Bass => [band_gain 0 0.6; band_gain 1 0.4; band_gain 2 0.2]
  | Treble => [band_gain 12 0.2; band_gain 13 0.4; band_gain 14 0.6]
  | Soft =>
      [band_gain 0 0.25; band_gain 1 0.15; band_gain 2 0.1;
       band_gain 3 (-0.05)]
  | Flat => map (fun i => band_gain (Z.of_nat i) 0) (seq 0 15)
  | Electronic =>
      [band_gain 0 0.4; band_gain 1 0.3; band_gain 2 0.1; band_gain 8 0.2;
       band_gain 9 0.3; band_gain 10 0.4]
  | Rock =>
      [band_gain 0 0.3; band_gain 1 0.25; band_gain 2 0.2; band_gain 3 0.1;
       band_gain 4 0.05; band_gain 5 (-0.05); band_gain 6 (-0.1);
       band_gain 7 0.1; band_gain 8 0.2; band_gain 9 0.3]
  | Classical =>
      [band_gain 0 0.375; band_gain 1 0.35; band_gain 2 0.125;
       band_gain 3 0; band_gain 4 0; band_gain 5 0.125; band_gain 6 0.55;
       band_gain 7 0.05; band_gain 8 0.125]
  | Pop =>
      [band_gain 0 (-0.02); band_gain 1 (-0.01); band_gain 2 0.08;
       band_gain 3 0.1; band_gain 4 0.15; band_gain 5 0.1; band_gain 6 0.03;
       band_gain 7 (-0.02); band_gain 8 (-0.035); band_gain 9 (-0.05)]
  end.

(** [equalizerPreset(preset)] *)
Definition equalizerPreset (p : Preset) (f : Filters) : Filters :=
  mkFilters (volume f) (Some (EqualizerPresets p)) (others f).

(** [karaoke(options?)] *)
Definition karaoke (options : option KaraokeFilter) (f : Filters) : Filters :=
  let o := others f in
  with_others f
    (mkOthers
       (Some (default (mkKaraoke (Finite 1) (Finite 1) (Finite 220)
                                 (Finite 100)) options))
       (timescale_filter o) (tremolo_filter o) (vibrato_filter o)
       (rotation_filter o) (distortion_filter o) (channelMix_filter o)
       (lowPass_filter o)).

(** [options.x !== undefined && options.x <= 0] *)
Definition given_and_not_positive (x : option number) : bool :=
  match x with
  | Some v => num_le v (Finite 0)
  | None => false
  end.

Definition set_timescale (t : TimescaleFilter) (f : Filters) : Filters :=
  let o := others f in
  with_others f
    (mkOthers (karaoke_filter o) (Some t) (tremolo_filter o)
       (vibrato_filter o) (rotation_filter o) (distortion_filter o)
       (channelMix_filter o) (lowPass_filter o)).

(** [timescale(options)] *)
Definition timescale (options : TimescaleFilter) (f : Filters) : Result :=
  if given_and_not_positive (speed options)
  then (f, inl "Timescale speed must be greater than 0")
  else if given_and_not_positive (pitch options)
  then (f, inl "Timescale pitch must be greater than 0")
  else if given_and_not_positive (rate options)
  then (f, inl "Timescale rate must be greater than 0")
  else (set_timescale options f, inr tt).

Definition set_tremolo (t : OscillationFilter) (f : Filters) : Filters :=
  let o := others f in
  with_others f
    (mkOthers (karaoke_filter o) (timescale_filter o) (Some t)
       (vibrato_filter o) (rotation_filter o) (distortion_filter o)
       (channelMix_filter o) (lowPass_filter o)).

(** [tremolo(options)] *)
Definition tremolo (options : OscillationFilter) (f : Filters) : Result :=
  if num_le (frequency options) (Finite 0)
  then (f, inl "Tremolo frequency must be greater than 0")
  else if num_lt (depth options) (Finite 0) || num_gt (depth options) (Finite 1)
  then (f, inl "Tremolo depth must be between 0.0 and 1.0")
  else (set_tremolo options f, inr tt).

(** [vibrato(options)] *)
Definition vibrato (options : OscillationFilter) (f : Filters) : Result :=
  if num_lt (frequency options) (Finite 0)
     || num_gt (frequency options) (Finite 14)
  then (f, inl "Vibrato frequency must be between 0.0 and 14.0")
  else if num_lt (depth options) (Finite 0) || num_gt (depth options) (Finite 1)
  then (f, inl "Vibrato depth must be between 0.0 and 1.0")
  else
    let o := others f in
    (with_others f
       (mkOthers (karaoke_filter o) (timescale_filter o) (tremolo_filter o)
          (Some options) (rotation_filter o) (distortion_filter o)
          (channelMix_filter o) (lowPass_filter o)),
     inr tt).

(** [rotation(options)] *)
Definition rotation (options : RotationFilter) (f : Filters) : Filters :=
  let o := others f in
  with_others f
    (mkOthers (karaoke_filter o) (timescale_filter o) (tremolo_filter o)
       (vibrato_filter o) (Some options) (distortion_filter o)
       (channelMix_filter o) (lowPass_filter o)).

(** [distortion(options)] *)
Definition distortion (options : DistortionFilter) (f : Filters) : Filters :=
  let o := others f in
  with_others f
    (mkOthers (karaoke_filter o) (timescale_filter o) (tremolo_filter o)
       (vibrato_filter o) (rotation_filter o) (Some options)
       (channelMix_filter o) (lowPass_filter o)).

(** [channelMix(options)] *)
Definition channelMix (options : ChannelMixFilter) (f : Filters) : Filters :=
  let o := others f in
  with_others f
    (mkOthers (karaoke_filter o) (timescale_filter o) (tremolo_filter o)
       (vibrato_filter o) (rotation_filter o) (distortion_filter o)
       (Some options) (lowPass_filter o)).

(** [lowPass(options)] *)
Definition lowPass (options : LowPassFilter) (f : Filters) : Filters :=
  let o := others f in
  with_others f
    (mkOthers (karaoke_filter o) (timescale_filter o) (tremolo_filter o)
       (vibrato_filter o) (rotation_filter o) (distortion_filter o)
       (channelMix_filter o) (Some options)).

(** The equalizer [nightcore] and [vaporwave] write. *)
Definition effect_bands : list EqualizerBand :=
  [band_gain 1 0.3; band_gain 0 0.3].

(** [nightcore(speed = 1.3)] *)
Definition nightcore (speed : option number) (f : Filters) : Filters :=
  let speed := default (Finite 1.3) speed in
  let f1 := set_timescale (mkTimescale (Some speed) (Some speed)
                                       (Some (Finite 1))) f in
  mkFilters (volume f1) (Some effect_bands) (others f1).

(** [vaporwave(speed = 0.8)] *)
Definition vaporwave (speed : option number) (f : Filters) : Filters :=
  let speed := default (Finite 0.8) speed in
  let f1 := set_timescale (mkTimescale (Some speed) (Some speed)
                                       (Some (Finite 1))) f in
  let f2 := mkFilters (volume f1) (Some effect_bands) (others f1) in
  set_tremolo (mkOscillation (Finite 4) (Finite 0.5)) f2.

(** [eightD(rotationHz = 0.2)] *)
Definition eightD (rotationHz : option number) (f : Filters) : Filters :=
  rotation (mkRotation (default (Finite 0.2) rotationHz)) f.

Inductive BassLevel := low | medium | high | extreme.

(** [levels[level]] *)
Definition levels (l : BassLevel) : Q :=
  match l with
  | low => 0.2
  | medium => 0.4
  | high => 0.6
  | extreme => 1
  end.

Definition bassboost_bands (l : BassLevel) : list EqualizerBand :=
  let gain := levels l in
  [band_gain 0 gain; band_gain 1 (gain * 0.8); band_gain 2 (gain * 0.6);
   band_gain 3 (gain * 0.4); band_gain 4 (gain * 0.2)].

(** [bassboost(level = 'medium')] *)
Definition bassboost (l : option BassLevel) (f : Filters) : Filters :=
  mkFilters (volume f) (Some (bassboost_bands (default medium l))) (others f).

(** [soft()] *)
Definition soft (f : Filters) : Filters := lowPass (mkLowPass (Finite 20)) f.

(** [clear()] *)
Definition clear (f : Filters) : Filters := empty.

(** [keyof FilterOptions] *)
Inductive FilterKey :=
| K_volume | K_equalizer | K_karaoke | K_timescale | K_tremolo | K_vibrato
| K_rotation | K_distortion | K_channelMix | K_lowPass.

(** [clearFilter(filter)] *)
Definition clearFilter (k : FilterKey) (f : Filters) : Filters :=
  let o := others f in
  match k with
  | K_volume => mkFilters None (equalizer_bands f) o
  | K_equalizer => mkFilters (volume f) None o
  | K_karaoke =>
      with_others f
        (mkOthers None (timescale_filter o) (tremolo_filter o)
           (vibrato_filter o) (rotation_filter o) (distortion_filter o)
           (channelMix_filter o) (lowPass_filter o))
  | K_timescale =>
      with_others f
        (mkOthers (karaoke_filter o) None (tremolo_filter o)
           (vibrato_filter o) (rotation_filter o) (distortion_filter o)
           (channelMix_filter o) (lowPass_filter o))
  | K_tremolo =>
      with_others f
        (mkOthers (karaoke_filter o) (timescale_filter o) None
           (vibrato_filter o) (rotation_filter o) (distortion_filter o)
           (channelMix_filter o) (lowPass_filter o))
  | K_vibrato =>
      with_others f
        (mkOthers (karaoke_filter o) (timescale_filter o) (tremolo_filter o)
           None (rotation_filter o) (distortion_filter o)
           (channelMix_filter o) (lowPass_filter o))
  | K_rotation =>
      with_others f
        (mkOthers (karaoke_filter o) (timescale_filter o) (tremolo_filter o)
           (vibrato_filter o) None (distortion_filter o)
           (channelMix_filter o) (lowPass_filter o))
  | K_distortion =>
      with_others f
        (mkOthers (karaoke_filter o) (timescale_filter o) (tremolo_filter o)
           (vibrato_filter o) (rotation_filter o) None
           (channelMix_filter o) (lowPass_filter o))
  | K_channelMix =>
      with_others f
        (mkOthers (karaoke_filter o) (timescale_filter o) (tremolo_filter o)
           (vibrato_filter o) (rotation_filter o) (distortion_filter o)
           None (lowPass_filter o))
  | K_lowPass =>
      with_others f
        (mkOthers (karaoke_filter o) (timescale_filter o) (tremolo_filter o)
           (vibrato_filter o) (rotation_filter o) (distortion_filter o)
           (channelMix_filter o) None)
  end.

(** [getFilters()]: a copy of the configuration. *)
Definition getFilters (f : Filters) : Filters := f.

(** [setFilters(filters)] *)
Definition setFilters (filters : Filters) (f : Filters) : Filters := filters.

(** One key of [{ ...a, ...b }]: the key of [b] when it has one. *)
Definition spread {A} (a b : option A) : option A :=
  match b with Some _ => b | None => a end.

(** [mergeFilters(filters)] *)
Definition mergeFilters (g : Filters) (f : Filters) : Filters :=
  mkFilters (spread (volume f) (volume g))
    (spread (equalizer_bands f) (equalizer_bands g))
    (mkOthers
       (spread (karaoke_filter (others f)) (karaoke_filter (others g)))
       (spread (timescale_filter (others f)) (timescale_filter (others g)))
       (spread (tremolo_filter (others f)) (tremolo_filter (others g)))
       (spread (vibrato_filter (others f)) (vibrato_filter (others g)))
       (spread (rotation_filter (others f)) (rotation_filter (others g)))
       (spread (distortion_filter (others f)) (distortion_filter (others g)))
       (spread (channelMix_filter (others f)) (channelMix_filter (others g)))
       (spread (lowPass_filter (others f)) (lowPass_filter (others g)))).

(** The setters of the builder, and the keys each one writes. *)
Inductive Setter :=
| S_volume (v : number)
| S_equalizer (bands : list EqualizerBand)
| S_equalizerPreset (p : Preset)
| S_karaoke (options : option KaraokeFilter)
| S_timescale (options : TimescaleFilter)
| S_tremolo (options : OscillationFilter)
| S_vibrato (options : OscillationFilter)
| S_rotation (options : RotationFilter)
| S_distortion (options : DistortionFilter)
| S_channelMix (options : ChannelMixFilter)
| S_lowPass (options : LowPassFilter)
| S_nightcore (speed : option number)
| S_vaporwave (speed : option number)
| S_eightD (rotationHz : option number)
| S_bassboost (l : option BassLevel)
| S_soft.

Definition returns (f : Filters) : Result := (f, inr tt).

Definition call (s : Setter) (f : Filters) : Result :=
  match s with
  | S_volume v => set_volume v f
  | S_equalizer bands => equalizer bands f
  | S_equalizerPreset p => returns (equalizerPreset p f)
  | S_karaoke options => returns (karaoke options f)
  | S_timescale options => timescale options f
  | S_tremolo options => tremolo options f
  | S_vibrato options => vibrato options f
  | S_rotation options => returns (rotation options f)
  | S_distortion options => returns (distortion options f)
  | S_channelMix options => returns (channelMix options f)
  | S_lowPass options => returns (lowPass options f)
  | S_nightcore speed => returns (nightcore speed f)
  | S_vaporwave speed => returns (vaporwave speed f)
  | S_eightD rotationHz => returns (eightD rotationHz f)
  | S_bassboost l => returns (bassboost l f)
  | S_soft => returns (soft f)
  end.

Definition keys_of (s : Setter) : list FilterKey :=
  match s with
  | S_volume _ => [K_volume]
  | S_equalizer _ | S_equalizerPreset _ | S_bassboost _ => [K_equalizer]
  | S_karaoke _ => [K_karaoke]
  | S_timescale _ => [K_timescale]
  | S_tremolo _ => [K_tremolo]
  | S_vibrato _ => [K_vibrato]
  | S_rotation _ | S_eightD _ => [K_rotation]
  | S_distortion _ => [K_distortion]
  | S_channelMix _ => [K_channelMix]
  | S_lowPass _ | S_soft => [K_lowPass]
  | S_nightcore _ => [K_timescale; K_equalizer]
  | S_vaporwave _ => [K_timescale; K_equalizer; K_tremolo]
  end.

(** [clearFilter] for each key of a list. *)
Definition clearFilters (ks : list FilterKey) (f : Filters) : Filters :=
  foldr clearFilter f ks.

End Builder.

Arguments karaoke_filter {DistortionFilter ChannelMixFilter}.
Arguments timescale_filter {DistortionFilter ChannelMixFilter}.
Arguments tremolo_filter {DistortionFilter ChannelMixFilter}.
Arguments vibrato_filter {DistortionFilter ChannelMixFilter}.
Arguments rotation_filter {DistortionFilter ChannelMixFilter}.
Arguments distortion_filter {DistortionFilter ChannelMixFilter}.
Arguments channelMix_filter {DistortionFilter ChannelMixFilter}.
Arguments lowPass_filter {DistortionFilter ChannelMixFilter}.
Arguments no_others {DistortionFilter ChannelMixFilter}.
Arguments empty {DistortionFilter ChannelMixFilter}.
Arguments with_others {DistortionFilter ChannelMixFilter}.
Arguments set_volume {DistortionFilter ChannelMixFilter}.
Arguments equalizerPreset {DistortionFilter ChannelMixFilter}.
Arguments karaoke {DistortionFilter ChannelMixFilter}.
Arguments set_timescale {DistortionFilter ChannelMixFilter}.
Arguments timescale {DistortionFilter ChannelMixFilter}.
Arguments set_tremolo {DistortionFilter ChannelMixFilter}.
Arguments tremolo {DistortionFilter ChannelMixFilter}.
Arguments vibrato {DistortionFilter ChannelMixFilter}.
Arguments rotation {DistortionFilter ChannelMixFilter}.
Arguments distortion {DistortionFilter ChannelMixFilter}.
Arguments channelMix {DistortionFilter ChannelMixFilter}.
Arguments lowPass {DistortionFilter ChannelMixFilter}.
Arguments nightcore {DistortionFilter ChannelMixFilter}.
Arguments vaporwave {DistortionFilter ChannelMixFilter}.
Arguments eightD {DistortionFilter ChannelMixFilter}.
Arguments bassboost {DistortionFilter ChannelMixFilter}.
Arguments soft {DistortionFilter ChannelMixFilter}.
Arguments clear {DistortionFilter ChannelMixFilter}.
Arguments clearFilter {DistortionFilter ChannelMixFilter}.
Arguments getFilters {DistortionFilter ChannelMixFilter}.
Arguments setFilters {DistortionFilter ChannelMixFilter}.
Arguments mergeFilters {DistortionFilter ChannelMixFilter}.
Arguments returns {DistortionFilter ChannelMixFilter}.
Arguments call {DistortionFilter ChannelMixFilter}.
Arguments keys_of {DistortionFilter ChannelMixFilter}.
Arguments clearFilters {DistortionFilter ChannelMixFilter}.

(** [x > 0] *)
Definition positive (x : number) : Prop :=
  match x with
  | Finite q => (0 < q)%Q
  | PosInfinity => True
  | _ => False
  end.

End FilterBuilder.

(** * AutoPlay

    The class [AutoPlay] of [src/utils/autoplay.ts] (the first of the two
    versions the file holds).  [this.playedIdentifiers], a [Set] of
    strings, is the list of its elements in insertion order, oldest first.
    The player is the outside world: whether its node is connected, what
    its searches give (the i-th search of one [execute]), the value
    [Math.random()] draws, the queue length read after [addTrack], and how
    [play()] settles.  [addTrack] is taken to return normally. *)

Module AutoPlay.

(** Modelled from the spec: [Track] is declared in [types/lavalink], which
    is not part of the sources at hand; the fields of [info] are the ones
    [AutoPlay] reads.  [None] is [undefined]. *)
Record TrackInfo := mkInfo {
  identifier : option string;
  uri : option string;
  title : option string;
  author : option string;
  sourceName : option string;
}.

Record Track := mkTrack {
  encoded : string;
  info : TrackInfo;
}.

(** Modelled from the spec: the result of [player.search], by its
    [loadType] and its [data]. *)
Inductive LoadResult :=
| Load_error
| Load_empty
| Load_playlist (tracks : list Track)
| Load_search (tracks : list Track)
| Load_track (t : Track).

Definition loadType (r : LoadResult) : string :=
  match r with
  | Load_error => "error"
  | Load_empty => "empty"
  | Load_playlist _ => "playlist"
  | Load_search _ => "search"
  | Load_track _ => "track"
  end.

(** What [AutoPlay] does to the player. *)
Inductive Action :=
| Debug_line (msg : string)
| Search (query source : string)
| AddTrack (t : Track)
| Play.

(** Modelled from the spec: what [AutoPlay] asks of the [Player], which is
    not part of the sources at hand. *)
Record World := mkWorld {
  isConnected : bool;
  search : nat -> string -> string -> Thrown + LoadResult;
  random : Q;
  queue_length : nat;
  play : option Thrown;
}.

(** [a || b] on optional strings *)
Definition or_else (a b : option string) : option string :=
  if truthy a then a else b.

(** A value inside a template string. *)
Definition shown (v : option string) : string := default "undefined" v.

(** [this.maxHistorySize] *)
Definition maxHistorySize : nat := 50.

(** [this.playedIdentifiers.has(id)] *)
Definition has (h : list string) (id : string) : bool :=
  existsb (String.eqb id) h.

(** [this.playedIdentifiers.add(id)] *)
Definition add (h : list string) (id : string) : list string :=
  if has h id then h else (h ++ [id])%list.

(** [this.playedIdentifiers.delete(id)] *)
Definition delete (h : list string) (id : string) : list string :=
  List.filter (fun x => negb (String.eqb id x)) h.

(** The lines "Add to played history" of [execute]. *)
Definition remember (h : list string) (identifier : option string)
  : list string :=
  match identifier with
  | Some id =>
      if truthy identifier then
        let h1 := add h id in
        if (maxHistorySize <? length h1)%nat then
          match h1 with
          | firstItem :: _ =>
              if truthy (Some firstItem) then delete h1 firstItem else h1
          | [] => h1
          end
        else h1
      else h
  | None => h
  end.

(** [clearHistory()] *)
Definition clearHistory (h : list string) : list string := [].

(** [getHistorySize()] *)
Definition getHistorySize (h : list string) : nat := length h.

(** The test of the [filter] calls:
    [trackId && !this.playedIdentifiers.has(trackId)]. *)
Definition unplayed (h : list string) (t : Track) : bool :=
  match or_else (identifier (info t)) (uri (info t)) with
  | Some id => truthy (Some id) && negb (has h id)
  | None => false
  end.

(** [list[Math.floor(Math.random() * list.length)]] *)
Definition pick {A} (r : Q) (l : list A) : option A :=
  let i := Qfloor (r * inject_Z (Z.of_nat (length l))) in
  if (i <? 0)%Z then None else l !! Z.to_nat i.

(** A run of an [async] method: what it did, and what it threw or
    returned. *)
Definition R (A : Type) : Type := (list Action * (Thrown + A))%type.

Definition R_ret {A} (a : A) : R A := ([], inr a).

Definition R_bind {A B} (m : R A) (k : A -> R B) : R B :=
  match m with
  | (t, inl e) => (t, inl e)
  | (t, inr a) => let '(t', r) := k a in ((t ++ t')%list, r)
  end.

#[local] Instance R_mret : MRet R := @R_ret.
#[local] Instance R_mbind : MBind R := fun A B k m => R_bind m k.

Definition act (a : Action) : R unit := ([a], inr tt).
Definition debug (msg : string) : R unit := act (Debug_line msg).

(** [await] of a promise that has settled. *)
Definition await {A} (p : Thrown + A) : R A := ([], p).

Definition await_play (w : World) : R unit :=
  match play w with
  | Some e => ([Play], inl e)
  | None => ([Play], inr tt)
  end.

(** [await player.search(query, source)], the [i]-th search. *)
Definition do_search (w : World) (i : nat) (query source : string)
  : R LoadResult :=
  act (Search query source);; await (search w i query source).

(** The lines from [player.addTrack(randomTrack)] to [return true], which
    the four handlers share but for the last message. *)
Definition add_and_play (w : World) (randomTrack : Track) (added : string)
  : R bool :=
  act (AddTrack randomTrack);;
  debug ("[AutoPlay] Track added to queue: "
         ++ shown (title (info randomTrack)) ++ ", queue length: "
         ++ pretty (queue_length w));;
  await_play w;;
  debug (added ++ shown (title (info randomTrack)));;
  mret true.

(** [handleYouTube(player, previousTrack)] *)
Definition handleYouTube (w : World) (h : list string) (previousTrack : Track)
  : R bool :=
  match identifier (info previousTrack) with
  | Some id =>
      if negb (truthy (Some id)) then
        debug "[AutoPlay] No identifier found for YouTube track";;
        mret false
      else
        let rdUrl := "https://www.youtube.com/watch?v=" ++ id
                     ++ "&list=RD" ++ id in
        debug ("[AutoPlay] Searching YouTube RD: " ++ rdUrl);;
        result ← do_search w 0 rdUrl "ytsearch";
        debug ("[AutoPlay] Search result type: " ++ loadType result);;
        match result with
        | Load_error | Load_empty =>
            debug ("[AutoPlay] YouTube search failed: " ++ loadType result);;
            mret false
        | _ =>
            let tracks :=
              match result with
              | Load_playlist ts => ts
              | Load_search ts => ts
              | Load_track t => [t]
              | _ => []
              end in
            debug ("[AutoPlay] Found " ++ pretty (length tracks) ++ " tracks");;
            let filtered := List.filter (unplayed h) tracks in
            availableTracks ←
              (if (length filtered =? 0)%nat then
                 debug "[AutoPlay] All tracks played, resetting filter";;
                 mret tracks
               else mret filtered);
            if (length availableTracks =? 0)%nat then
              debug "[AutoPlay] No available tracks after filtering";;
              mret false
            else
              match pick (random w) availableTracks with
              | None =>
                  debug "[AutoPlay] Failed to select random track";;
                  mret false
              | Some randomTrack =>
                  add_and_play w randomTrack "[AutoPlay] Added YouTube track: "
              end
        end
  | None =>
      debug "[AutoPlay] No identifier found for YouTube track";;
      mret false
  end.

(** [handleSoundCloud(player, previousTrack)] *)
Definition handleSoundCloud (w : World) (h : list string)
    (previousTrack : Track) : R bool :=
  if negb (truthy (uri (info previousTrack))) then mret false
  else
    let query := shown (title (info previousTrack)) ++ " "
                 ++ shown (author (info previousTrack)) in
    result ← do_search w 0 query "scsearch";
    match result with
    | Load_error | Load_empty => mret false
    | _ =>
        let tracks :=
          match result with
          | Load_search ts => ts
          | Load_track t => [t]
          | _ => []
          end in
        let filtered := List.filter (unplayed h) tracks in
        let availableTracks :=
          if (length filtered =? 0)%nat then tracks else filtered in
        if (length availableTracks =? 0)%nat then mret false
        else
          match pick (random w) availableTracks with
          | None =>
              debug "[AutoPlay] Failed to select random SoundCloud track";;
              mret false
          | Some randomTrack =>
              add_and_play w randomTrack "[AutoPlay] Added SoundCloud track: "
          end
    end.

(** [handleSpotifyArtistFallback(player, previousTrack)]; its search is the
    second of the run. *)
Definition handleSpotifyArtistFallback (w : World) (h : list string)
    (previousTrack : Track) : R bool :=
  match author (info previousTrack) with
  | Some artist =>
      if negb (truthy (Some artist)) then mret false
      else
        artistResult ← do_search w 1 artist "spsearch";
        match artistResult with
        | Load_error | Load_empty => mret false
        | _ =>
            let artistTracks :=
              match artistResult with
              | Load_search ts => ts
              | Load_track t => [t]
              | _ => []
              end in
            if (length artistTracks =? 0)%nat then mret false
            else
              let filtered := List.filter (unplayed h) artistTracks in
              let available :=
                if (length filtered =? 0)%nat then artistTracks
                else filtered in
              if (length available =? 0)%nat then mret false
              else
                match pick (random w) available with
                | None =>
                    debug "[AutoPlay] Failed to select random artist track";;
                    mret false
                | Some randomTrack =>
                    add_and_play w randomTrack
                      "[AutoPlay] Added Spotify artist track (fallback): "
                end
        end
  | None => mret false
  end.

(** [handleSpotify(player, previousTrack)] *)
Definition handleSpotify (w : World) (h : list string) (previousTrack : Track)
  : R bool :=
  match identifier (info previousTrack) with
  | Some id =>
      if negb (truthy (Some id)) then
        debug "[AutoPlay] Missing identifier for Spotify track";;
        mret false
      else
        debug ("[AutoPlay] Getting Spotify recommendations for: " ++ id);;
        recResult ← do_search w 0 ("sprec:" ++ id) "spsearch";
        match recResult with
        | Load_error | Load_empty =>
            debug "[AutoPlay] Spotify recommendations failed, falling back to artist search";;
            handleSpotifyArtistFallback w h previousTrack
        | _ =>
            let tracks :=
              match recResult with
              | Load_playlist ts => ts
              | Load_search ts => ts
              | Load_track t => [t]
              | _ => []
              end in
            if (length tracks =? 0)%nat then
              debug "[AutoPlay] No recommendations found, falling back to artist search";;
              handleSpotifyArtistFallback w h previousTrack
            else
              let filtered := List.filter (unplayed h) tracks in
              available ←
                (if (length filtered =? 0)%nat then
                   debug "[AutoPlay] All recommendations played, resetting filter";;
                   mret tracks
                 else mret filtered);
              if (length available =? 0)%nat then mret false
              else
                match pick (random w) available with
                | None =>
                    debug "[AutoPlay] Failed to select random Spotify track";;
                    mret false
                | Some randomTrack =>
                    add_and_play w randomTrack
                      "[AutoPlay] Added Spotify recommended track: "
                end
        end
  | None =>
      debug "[AutoPlay] Missing identifier for Spotify track";;
      mret false
  end.

(** The [switch] of [execute]. *)
Definition handler (w : World) (h : list string) (previousTrack : Track)
  : R bool :=
  match sourceName (info previousTrack) with
  | Some "youtube" => handleYouTube w h previousTrack
  | Some "soundcloud" => handleSoundCloud w h previousTrack
  | Some "spotify" => handleSpotify w h previousTrack
  | _ => handleYouTube w h previousTrack
  end.

(** [execute(player, previousTrack)]: the history afterwards, what was
    done, and the value returned. *)
Definition execute (w : World) (h : list string) (previousTrack : option Track)
  : list string * list Action * bool :=
  match previousTrack with
  | None => (h, [Debug_line "[AutoPlay] No previous track provided"], false)
  | Some previousTrack =>
      if negb (isConnected w) then
        (h, [Debug_line "[AutoPlay] Node not connected, aborting"], false)
      else
        let identifier := or_else (identifier (info previousTrack))
                                  (uri (info previousTrack)) in
        let h' := remember h identifier in
        let initiated :=
          Debug_line ("[AutoPlay] Initiated for "
                      ++ shown (sourceName (info previousTrack)) ++ ": "
                      ++ shown (title (info previousTrack))) in
        match handler w h' previousTrack with
        | (t, inr b) => (h', initiated :: t, b)
        | (t, inl error) =>
            (h', (initiated :: t ++
                  [Debug_line ("[AutoPlay] Error: " ++
                     match error with
                     | Thrown_Error e => err_message e
                     | Thrown_value _ => "Unknown error"
                     end)])%list,
             false)
        end
  end.

(** The history after a sequence of calls of [execute] and
    [clearHistory]. *)
Inductive HistoryCall :=
| Call_execute (w : World) (previousTrack : option Track)
| Call_clearHistory.

Fixpoint history_after (calls : list HistoryCall) (h : list string)
  : list string :=
  match calls with
  | [] => h
  | Call_execute w t :: rest => history_after rest (fst (fst (execute w h t)))
  | Call_clearHistory :: rest => history_after rest (clearHistory h)
  end.

(** The tracks a search result holds. *)
Definition tracks_of (r : LoadResult) : list Track :=
  match r with
  | Load_playlist ts => ts
  | Load_search ts => ts
  | Load_track t => [t]
  | _ => []
  end.

(** The tracks added to the queue, in order. *)
Definition added (t : list Action) : list Track :=
  omap (fun a => match a with AddTrack x => Some x | _ => None end) t.

(** The track [x] is one of the tracks of a search the run has made, and it
    has not been played, unless no track of that search is left unplayed. *)
Definition chosen_from (w : World) (h : list string) (t : list Action)
    (x : Track) : Prop :=
  exists i query source result,
    search w i query source = inr result /\
    Search query source ∈ t /\
    x ∈ tracks_of result /\
    (unplayed h x = true \/
     forall y, y ∈ tracks_of result -> unplayed h y = false).

(** What a run of a handler comes to: [true] after one track has been
    added and played; [false] with nothing added; an error with nothing
    added, or with one track added and [play()] rejected. *)
Definition accounted (w : World) (h : list string) (run : R bool) : Prop :=
  match run with
  | (t, inr true) =>
      exists x, added t = [x] /\ chosen_from w h t x /\
                Play ∈ t /\ play w = None
  | (t, inr false) => added t = [] /\ Play ∉ t
  | (t, inl e) =>
      (added t = [] /\ Play ∉ t) \/
      (exists x, added t = [x] /\ chosen_from w h t x /\ play w = Some e)
  end.

(** An action that neither adds a track nor plays. *)
Definition harmless (a : Action) : Prop :=
  match a with
  | Debug_line _ | Search _ _ => True
  | _ => False
  end.

(** The history has no duplicate and no empty string, and is not longer
    than [maxHistorySize]. *)
Definition tidy (h : list string) : Prop :=
  NoDup h /\ ("" ∉ h) /\ (length h <= maxHistorySize)%nat.

(** ** Sample values *)

Definition song (id : string) : Track :=
  mkTrack id (mkInfo (Some id) None (Some ("Song " ++ id)) (Some "Artist")
                     (Some "youtube")).

Definition radio : World :=
  mkWorld true (fun _ _ _ => inr (Load_playlist [song "a"; song "b"; song "c"]))
          (1#2) 1 None.

Definition offline : World :=
  mkWorld false (fun _ _ _ => inr Load_empty) 0 0 None.

Definition failing_search : World :=
  mkWorld true (fun _ _ _ => inl (Thrown_Error (new_Error "no route")))
          0 0 None.

End AutoPlay.

(** * Properties of the voice forwarder *)

Section VoiceForwarderFacts.

Import VoiceForwarder.

Variable clientId : string.

Lemma truthy_Some (v : option string) :
  truthy v = true -> exists s, v = Some s /\ s <> "".
Proof.
  destruct v as [s|]; simpl; [|discriminate].
  intros H. exists s. split; [reflexivity|].
  intros ->. discriminate.
Qed.

Ltac unfold_M :=
  unfold mbind, mret, M_bind, M_ret, bind, ret, throw, perform, await,
    voiceStates_get, voiceStates_set, voiceStates_delete in *; simpl in *.

(** [forwardVoiceState] in closed form. *)
Lemma forwardVoiceState_complete p v s :
  complete v = true ->
  forwardVoiceState p v s =
    match updateVoiceState p (credential v) with
    | None =>
        mkOutcome s
          [Player_updateVoiceState p (credential v);
           Emit_debug ("Forwarded voice state to Lavalink for guild "
                       ++ p_guildId p)]
          (inr tt)
    | Some e =>
        mkOutcome s [Player_updateVoiceState p (credential v)] (inl e)
    end.
Proof.
  unfold complete, forwardVoiceState, credential. intros H.
  apply andb_prop in H as [H He]. apply andb_prop in H as [Hs Ht].
  rewrite Hs, Ht, He. simpl.
  destruct (truthy_Some _ Hs) as (s1 & -> & _).
  destruct (truthy_Some _ Ht) as (t1 & -> & _).
  destruct (truthy_Some _ He) as (e1 & -> & _).
  unfold_M. destruct (updateVoiceState p (mkVoiceState t1 e1 s1)); reflexivity.
Qed.

Lemma forwardVoiceState_incomplete p v s :
  complete v = false ->
  forwardVoiceState p v s = mkOutcome s [] (inl "Incomplete voice state").
Proof.
  unfold complete, forwardVoiceState. intros H.
  destruct (truthy (sessionId v)), (truthy (token v)), (truthy (endpoint v));
    simpl in *; try reflexivity; discriminate.
Qed.

Lemma handleVoiceServerUpdate_eq d player s :
  handleVoiceServerUpdate d player s =
    let v := server_entry d s in
    let s' := <[sv_guild_id d := v]> s in
    let dbg := Emit_debug ("Voice server update for guild " ++ sv_guild_id d) in
    match player with
    | Some p =>
        if truthy (sessionId v) then prepend [dbg] (forwardVoiceState p v s')
        else mkOutcome s' [dbg] (inr tt)
    | None => mkOutcome s' [dbg] (inr tt)
    end.
Proof.
  unfold handleVoiceServerUpdate, server_entry, prepend. unfold_M.
  destruct (s !! sv_guild_id d) as [v0|]; simpl;
    destruct player as [p|]; simpl; try reflexivity.
  - destruct (truthy (sessionId v0)); simpl; [|reflexivity].
    match goal with |- context [forwardVoiceState ?a ?b ?c] =>
      destruct (forwardVoiceState a b c) as [st tr [e|[]]] end; reflexivity.
Qed.

Lemma handleVoiceStateUpdate_other d player s :
  st_user_id d <> clientId ->
  handleVoiceStateUpdate clientId d player s = mkOutcome s [] (inr tt).
Proof.
  intros H. unfold handleVoiceStateUpdate.
  apply String.eqb_neq in H. rewrite H. reflexivity.
Qed.

Lemma handleVoiceStateUpdate_left d player s :
  st_user_id d = clientId ->
  truthy (st_channel_id d) = false ->
  handleVoiceStateUpdate clientId d player s =
    mkOutcome (delete (st_guild_id d) s)
      (Emit_debug ("Voice state update for guild " ++ st_guild_id d)
         :: match player with
            | Some p => [Player_disconnect p]
            | None => []
            end)
      match player with
      | Some p => settled (disconnect p)
      | None => inr tt
      end.
Proof.
  intros Hu Hc. unfold handleVoiceStateUpdate.
  rewrite Hu, String.eqb_refl, Hc. unfold_M.
  rewrite delete_insert_eq.
  destruct player as [p|]; [|reflexivity].
  destruct (disconnect p); reflexivity.
Qed.

Lemma handleVoiceStateUpdate_joined d p s :
  st_user_id d = clientId ->
  truthy (st_channel_id d) = true ->
  handleVoiceStateUpdate clientId d (Some p) s =
    let v := state_entry d s in
    let s' := <[st_guild_id d := v]> s in
    let dbg := Emit_debug ("Voice state update for guild " ++ st_guild_id d) in
    let move :=
      if bool_decide (voiceChannelId p = st_channel_id d) then []
      else [Emit_playerMove p (voiceChannelId p) (st_channel_id d)] in
    if truthy (token v) && truthy (endpoint v)
    then prepend (dbg :: move) (forwardVoiceState p v s')
    else mkOutcome s' (dbg :: move) (inr tt).
Proof.
  intros Hu Hc. unfold handleVoiceStateUpdate, state_entry, prepend.
  rewrite Hu, String.eqb_refl, Hc. unfold_M.
  destruct (s !! st_guild_id d) as [v0|]; simpl;
    destruct (bool_decide (voiceChannelId p = st_channel_id d)); simpl;
    try reflexivity;
    destruct (truthy (token v0) && truthy (endpoint v0)); simpl;
    try reflexivity;
    match goal with |- context [forwardVoiceState ?a ?b ?c] =>
      destruct (forwardVoiceState a b c) as [st tr [e|[]]] end; reflexivity.
Qed.

Lemma handleVoiceStateUpdate_no_player d s :
  st_user_id d = clientId ->
  truthy (st_channel_id d) = true ->
  handleVoiceStateUpdate clientId d None s =
    mkOutcome (<[st_guild_id d := state_entry d s]> s)
      [Emit_debug ("Voice state update for guild " ++ st_guild_id d)] (inr tt).
Proof.
  intros Hu Hc. unfold handleVoiceStateUpdate, state_entry.
  rewrite Hu, String.eqb_refl, Hc. reflexivity.
Qed.

Lemma forwards_app (t1 t2 : list Effect) :
  forwards (t1 ++ t2) = (forwards t1 ++ forwards t2)%list.
Proof. unfold forwards. apply omap_app. Qed.

(** The credentials a call to [forwardVoiceState] hands over. *)
Lemma forwards_forwardVoiceState p v s :
  forwards (o_trace (forwardVoiceState p v s)) =
    if complete v then [credential v] else [].
Proof.
  destruct (complete v) eqn:E.
  - rewrite forwardVoiceState_complete by exact E.
    destruct (updateVoiceState p (credential v)); reflexivity.
  - rewrite forwardVoiceState_incomplete by exact E. reflexivity.
Qed.

Lemma store_forwardVoiceState p v s : o_store (forwardVoiceState p v s) = s.
Proof.
  destruct (complete v) eqn:E.
  - rewrite forwardVoiceState_complete by exact E.
    destruct (updateVoiceState p (credential v)); reflexivity.
  - rewrite forwardVoiceState_incomplete by exact E. reflexivity.
Qed.

Lemma moves_forwardVoiceState p v s :
  filter (fun e => is_move e = true) (o_trace (forwardVoiceState p v s)) = [].
Proof.
  destruct (complete v) eqn:E.
  - rewrite forwardVoiceState_complete by exact E.
    destruct (updateVoiceState p (credential v)); reflexivity.
  - rewrite forwardVoiceState_incomplete by exact E. reflexivity.
Qed.

Lemma trace_prepend {A} t (o : Outcome A) :
  o_trace (prepend t o) = (t ++ o_trace o)%list.
Proof. reflexivity. Qed.

Lemma store_prepend {A} t (o : Outcome A) : o_store (prepend t o) = o_store o.
Proof. reflexivity. Qed.

Lemma result_prepend {A} t (o : Outcome A) :
  o_result (prepend t o) = o_result o.
Proof. reflexivity. Qed.

(** The debug line and the optional [playerMove] carry no credential. *)
Lemma forwards_debug_move msg (b : bool) p old new :
  forwards (Emit_debug msg :: if b then [] else [Emit_playerMove p old new])
  = [].
Proof. destruct b; reflexivity. Qed.

(** ** The guard of [forwardVoiceState] (first half of C1)

    Whatever the packet and the stored state, a credential reaches the
    player only if the entry of the packet's guild is complete after the
    update, and the credential is that entry's. *)
Lemma forward_only_when_complete packet player s cred :
  cred ∈ forwards (o_trace (handleVoiceUpdate clientId packet player s)) ->
  exists g v,
    o_store (handleVoiceUpdate clientId packet player s) !! g = Some v /\
    complete v = true /\ cred = credential v.
Proof.
  destruct packet as [d|d|t]; unfold handleVoiceUpdate.
  - rewrite handleVoiceServerUpdate_eq. cbv zeta.
    destruct player as [p|]; [|intros H; inversion H].
    destruct (truthy (sessionId (server_entry d s)));
      [|intros H; inversion H].
    rewrite trace_prepend, store_prepend, forwards_app,
      forwards_forwardVoiceState, store_forwardVoiceState.
    destruct (complete (server_entry d s)) eqn:E; [|intros H; inversion H].
    intros H. apply list_elem_of_singleton in H as ->.
    exists (sv_guild_id d), (server_entry d s).
    rewrite lookup_insert_eq. auto.
  - destruct (decide (st_user_id d = clientId)) as [Hu|Hu];
      [|rewrite handleVoiceStateUpdate_other by exact Hu;
        intros H; inversion H].
    destruct (truthy (st_channel_id d)) eqn:Hc.
    + destruct player as [p|];
        [|rewrite handleVoiceStateUpdate_no_player by assumption;
          intros H; inversion H].
      rewrite handleVoiceStateUpdate_joined by assumption. cbv zeta.
      destruct (truthy (token (state_entry d s)) &&
                truthy (endpoint (state_entry d s))).
      * rewrite trace_prepend, store_prepend, forwards_app,
          forwards_forwardVoiceState, store_forwardVoiceState,
          forwards_debug_move.
        destruct (complete (state_entry d s)) eqn:E; [|intros H; inversion H].
        intros H. apply list_elem_of_singleton in H as ->.
        exists (st_guild_id d), (state_entry d s).
        rewrite lookup_insert_eq. auto.
      * cbn [o_trace]. rewrite forwards_debug_move. intros H; inversion H.
    + rewrite handleVoiceStateUpdate_left by assumption. cbn [o_trace].
      destruct player; intros H; inversion H.
  - intros H. inversion H.
Qed.

(** ** Sequences of well-formed events for one guild *)

Lemma sessionId_server_entry d s :
  sessionId (server_entry d s) = (s !! sv_guild_id d ≫= sessionId).
Proof. unfold server_entry. destruct (s !! sv_guild_id d); reflexivity. Qed.

Lemma token_state_entry d s :
  token (state_entry d s) = (s !! st_guild_id d ≫= token).
Proof. unfold state_entry. destruct (s !! st_guild_id d); reflexivity. Qed.

Lemma endpoint_state_entry d s :
  endpoint (state_entry d s) = (s !! st_guild_id d ≫= endpoint).
Proof. unfold state_entry. destruct (s !! st_guild_id d); reflexivity. Qed.

Lemma truthy_None : truthy None = false.
Proof. reflexivity. Qed.

Lemma store_handleVoiceServerUpdate d player s :
  o_store (handleVoiceServerUpdate d player s) =
    <[sv_guild_id d := server_entry d s]> s.
Proof.
  rewrite handleVoiceServerUpdate_eq. cbv zeta.
  destruct player as [p|]; [|reflexivity].
  destruct (truthy (sessionId (server_entry d s))); [|reflexivity].
  rewrite store_prepend. apply store_forwardVoiceState.
Qed.

(** The map after a state event, in the three cases of the handler. *)
Lemma store_handleVoiceStateUpdate d player s :
  o_store (handleVoiceStateUpdate clientId d player s) =
    if negb (String.eqb (st_user_id d) clientId) then s
    else if truthy (st_channel_id d)
    then <[st_guild_id d := state_entry d s]> s
    else delete (st_guild_id d) s.
Proof.
  destruct (String.eqb (st_user_id d) clientId) eqn:Hu; cbn [negb].
  - apply String.eqb_eq in Hu.
    destruct (truthy (st_channel_id d)) eqn:Hc.
    + destruct player as [p|].
      * rewrite handleVoiceStateUpdate_joined by assumption. cbv zeta.
        destruct (truthy (token (state_entry d s)) &&
                  truthy (endpoint (state_entry d s))); [|reflexivity].
        rewrite store_prepend. apply store_forwardVoiceState.
      * rewrite handleVoiceStateUpdate_no_player by assumption. reflexivity.
    + rewrite handleVoiceStateUpdate_left by assumption. reflexivity.
  - apply String.eqb_neq in Hu.
    rewrite handleVoiceStateUpdate_other by exact Hu. reflexivity.
Qed.

(** What a handler hands to the player: the credential of the entry it
    has just written, if that entry is complete. *)
Lemma forwards_handleVoiceServerUpdate d p s :
  forwards (o_trace (handleVoiceServerUpdate d (Some p) s)) =
    if complete (server_entry d s) then [credential (server_entry d s)]
    else [].
Proof.
  rewrite handleVoiceServerUpdate_eq. cbv zeta.
  destruct (truthy (sessionId (server_entry d s))) eqn:E.
  - rewrite trace_prepend, forwards_app, forwards_forwardVoiceState.
    reflexivity.
  - unfold complete. rewrite E. reflexivity.
Qed.

Lemma forwards_handleVoiceServerUpdate_any d player s :
  forwards (o_trace (handleVoiceServerUpdate d player s)) =
    match player with
    | Some _ =>
        if complete (server_entry d s) then [credential (server_entry d s)]
        else []
    | None => []
    end.
Proof.
  destruct player as [p|]; [apply forwards_handleVoiceServerUpdate|].
  rewrite handleVoiceServerUpdate_eq. reflexivity.
Qed.

Lemma forwards_handleVoiceStateUpdate d p s :
  st_user_id d = clientId -> truthy (st_channel_id d) = true ->
  forwards (o_trace (handleVoiceStateUpdate clientId d (Some p) s)) =
    if complete (state_entry d s) then [credential (state_entry d s)]
    else [].
Proof.
  intros Hu Hc. rewrite handleVoiceStateUpdate_joined by assumption. cbv zeta.
  destruct (truthy (token (state_entry d s)) &&
            truthy (endpoint (state_entry d s))) eqn:E.
  - rewrite trace_prepend, forwards_app, forwards_forwardVoiceState,
      forwards_debug_move. reflexivity.
  - cbn [o_trace]. rewrite forwards_debug_move.
    unfold complete. rewrite <- andb_assoc, E, andb_false_r. reflexivity.
Qed.

Lemma known_snoc seen c :
  known clientId (seen ++ [c]) = learn clientId (known clientId seen) c.
Proof. unfold known. rewrite fold_left_app. reflexivity. Qed.

Lemma due_snoc seen c :
  due clientId (seen ++ [c]) =
    let f := learn clientId (known clientId seen) c in
    if brings_fragment clientId c && truthy (f_session f)
       && truthy (f_token f) && truthy (f_endpoint f)
    then [mkVoiceState (default "" (f_token f)) (default "" (f_endpoint f))
                       (default "" (f_session f))]
    else [].
Proof. unfold due. rewrite last_snoc, known_snoc. reflexivity. Qed.

(** One call for the guild, with a player: the entry follows the
    fragments known, and exactly the credential due is handed over. *)
Lemma call_step g seen c s :
  for_guild g c -> has_player c -> reflects clientId g seen s ->
  let o := handleVoiceUpdate clientId (fst c) (snd c) s in
  reflects clientId g (seen ++ [c]) (o_store o) /\
  forwards (o_trace o) = due clientId (seen ++ [c]).
Proof.
  intros Hg Hp (Ht & He & Hs).
  destruct c as [[d|d|t] [p|]]; unfold has_player in Hp; cbn [snd] in Hp;
    try congruence; clear Hp;
    unfold for_guild in Hg; cbn [fst] in Hg;
    cbn [fst snd handleVoiceUpdate]; cbv zeta;
    unfold reflects; rewrite due_snoc, known_snoc;
    unfold learn, brings_fragment; cbn [fst]; cbv zeta.
  - subst g.
    rewrite store_handleVoiceServerUpdate, forwards_handleVoiceServerUpdate,
      lookup_insert_eq.
    cbn [mbind option_bind f_token f_endpoint f_session andb].
    assert (Hse : sessionId (server_entry d s) = f_session (known clientId seen))
      by (rewrite <- Hs; apply sessionId_server_entry).
    split; [repeat split; try reflexivity; exact Hse|].
    unfold complete, credential. rewrite Hse. reflexivity.
  - subst g. rewrite store_handleVoiceStateUpdate.
    destruct (String.eqb (st_user_id d) clientId) eqn:Hu; cbn [negb andb].
    + apply String.eqb_eq in Hu.
      destruct (truthy (st_channel_id d)) eqn:Hc.
      * rewrite forwards_handleVoiceStateUpdate by assumption.
        rewrite lookup_insert_eq.
        cbn [mbind option_bind f_token f_endpoint f_session].
        assert (Htk : token (state_entry d s) = f_token (known clientId seen))
          by (rewrite <- Ht; apply token_state_entry).
        assert (Hep : endpoint (state_entry d s)
                      = f_endpoint (known clientId seen))
          by (rewrite <- He; apply endpoint_state_entry).
        split; [repeat split; try reflexivity; assumption|].
        unfold complete, credential. rewrite Htk, Hep. reflexivity.
      * rewrite handleVoiceStateUpdate_left by assumption.
        rewrite lookup_delete_eq. cbn [o_trace].
        split; [repeat split; reflexivity | reflexivity].
    + apply String.eqb_neq in Hu.
      rewrite handleVoiceStateUpdate_other by exact Hu.
      split; [repeat split; assumption | reflexivity].
  - split; [repeat split; assumption | reflexivity].
Qed.

Lemma process_forwards g calls : forall seen s,
  Forall (for_guild g) calls -> Forall has_player calls ->
  reflects clientId g seen s ->
  forwards (run_trace (process clientId calls s)) =
    concat (map (fun q => due clientId (seen ++ q)) (prefixes calls)).
Proof.
  induction calls as [|c calls IH]; intros seen s Hg Hp Hr; [reflexivity|].
  apply Forall_cons in Hg as [Hg1 Hg]. apply Forall_cons in Hp as [Hp1 Hp].
  destruct (call_step g seen c s Hg1 Hp1 Hr) as [Hr' Hfw].
  destruct c as [packet player]. cbn [fst snd] in *.
  cbn [process run_trace prefixes map concat].
  rewrite forwards_app, Hfw, (IH _ _ Hg Hp Hr').
  f_equal. f_equal. rewrite map_map. apply map_ext.
  intros q. rewrite <- app_assoc. reflexivity.
Qed.

(** A call that carries its fragments, with a player that resolves,
    returns normally. *)
Lemma good_call_result g c s :
  good_call clientId g c -> resolving c ->
  o_result (handleVoiceUpdate clientId (fst c) (snd c) s) = inr tt.
Proof.
  intros Hc Hres.
  destruct c as [[d|d|t] [p|]]; simpl in Hc; try contradiction;
    unfold resolving in Hres; cbn [snd] in Hres; destruct Hres as [_ Hres];
    cbn [fst snd handleVoiceUpdate].
  - destruct Hc as (_ & Htk & Hep).
    rewrite handleVoiceServerUpdate_eq. cbv zeta.
    destruct (truthy (sessionId (server_entry d s))) eqn:E; [|reflexivity].
    rewrite result_prepend, forwardVoiceState_complete, Hres; [reflexivity|].
    unfold complete. rewrite E. cbn [server_entry token endpoint].
    rewrite Htk, Hep. reflexivity.
  - destruct Hc as (_ & Hu & Hsid & Hch).
    rewrite handleVoiceStateUpdate_joined by assumption. cbv zeta.
    destruct (truthy (token (state_entry d s)) &&
              truthy (endpoint (state_entry d s))) eqn:E; [|reflexivity].
    rewrite result_prepend, forwardVoiceState_complete, Hres; [reflexivity|].
    unfold complete. rewrite <- andb_assoc, E, andb_true_r.
    cbn [state_entry sessionId]. exact Hsid.
Qed.

Lemma process_good g calls : forall s,
  Forall (good_call clientId g) calls -> Forall resolving calls ->
  run_errors (process clientId calls s) = [].
Proof.
  induction calls as [|[packet player] calls IH]; intros s Hc Hr; [reflexivity|].
  apply Forall_cons in Hc as [Hc1 Hc]. apply Forall_cons in Hr as [Hr1 Hr].
  pose proof (good_call_result g (packet, player) s Hc1 Hr1) as H1.
  cbn [fst snd] in H1. cbn [process run_errors].
  rewrite H1, (IH _ Hc Hr). reflexivity.
Qed.

(** ** Departure and what follows it *)

Lemma server_without_session d player s :
  no_session (sv_guild_id d) s ->
  forwards (o_trace (handleVoiceServerUpdate d player s)) = [] /\
  no_session (sv_guild_id d) (o_store (handleVoiceServerUpdate d player s)).
Proof.
  unfold no_session. intros H.
  rewrite handleVoiceServerUpdate_eq. cbv zeta.
  rewrite sessionId_server_entry, H.
  assert (E : truthy (<[sv_guild_id d:=server_entry d s]> s !! sv_guild_id d
                      ≫= sessionId) = false).
  { rewrite lookup_insert_eq. cbn [mbind option_bind].
    rewrite sessionId_server_entry. exact H. }
  destruct player; split; try reflexivity; exact E.
Qed.

Lemma state_without_token d player s :
  no_token (st_guild_id d) s ->
  forwards (o_trace (handleVoiceStateUpdate clientId d player s)) = [] /\
  no_token (st_guild_id d)
    (o_store (handleVoiceStateUpdate clientId d player s)).
Proof.
  unfold no_token. intros H.
  destruct (decide (st_user_id d = clientId)) as [Hu|Hu];
    [|rewrite handleVoiceStateUpdate_other by exact Hu; split;
      [reflexivity | exact H]].
  destruct (truthy (st_channel_id d)) eqn:Hc.
  - assert (E : truthy (<[st_guild_id d:=state_entry d s]> s !! st_guild_id d
                        ≫= token) &&
                truthy (<[st_guild_id d:=state_entry d s]> s !! st_guild_id d
                        ≫= endpoint) = false).
    { rewrite lookup_insert_eq. cbn [mbind option_bind].
      rewrite token_state_entry, endpoint_state_entry. exact H. }
    destruct player as [p|].
    + rewrite handleVoiceStateUpdate_joined by assumption. cbv zeta.
      rewrite token_state_entry, endpoint_state_entry, H.
      cbn [o_trace o_store]. rewrite forwards_debug_move.
      split; [reflexivity | exact E].
    + rewrite handleVoiceStateUpdate_no_player by assumption.
      split; [reflexivity | exact E].
  - rewrite handleVoiceStateUpdate_left by assumption. cbn [o_trace o_store].
    rewrite lookup_delete_eq. split; [destruct player|]; reflexivity.
Qed.

Lemma no_forward_without_state_events g calls : forall s,
  Forall (for_guild g) calls ->
  Forall (fun c => is_state c = false) calls ->
  no_session g s ->
  forwards (run_trace (process clientId calls s)) = [].
Proof.
  induction calls as [|[packet player] calls IH]; intros s Hg Hk Hs;
    [reflexivity|].
  apply Forall_cons in Hg as [Hg1 Hg]. apply Forall_cons in Hk as [Hk1 Hk].
  cbn [process run_trace]. rewrite forwards_app.
  destruct packet as [d|d|t]; try discriminate Hk1;
    unfold for_guild in Hg1; cbn [fst handleVoiceUpdate] in *.
  - subst g. destruct (server_without_session d player s Hs) as [-> Hs'].
    apply IH; assumption.
  - apply IH; assumption.
Qed.

Lemma no_forward_without_server_events g calls : forall s,
  Forall (for_guild g) calls ->
  Forall (fun c => is_server c = false) calls ->
  no_token g s ->
  forwards (run_trace (process clientId calls s)) = [].
Proof.
  induction calls as [|[packet player] calls IH]; intros s Hg Hk Hs;
    [reflexivity|].
  apply Forall_cons in Hg as [Hg1 Hg]. apply Forall_cons in Hk as [Hk1 Hk].
  cbn [process run_trace]. rewrite forwards_app.
  destruct packet as [d|d|t]; try discriminate Hk1;
    unfold for_guild in Hg1; cbn [fst handleVoiceUpdate] in *.
  - subst g. destruct (state_without_token d player s Hs) as [-> Hs'].
    apply IH; assumption.
  - apply IH; assumption.
Qed.

(** ** The claims about the forwarder *)

(** C2 (as amended).  For a guild without stored state and any sequence
    of events for it, each processed with a player: a credential is handed
    to the player at exactly those events that bring a fragment (a server
    event, or a state event of the bot in a channel) and after which both
    fragments are present and non-empty, once per such event, and it is the
    pair known by then; state events of other users change nothing and a
    departure of the bot forgets both fragments.  Nothing is handed over
    before both fragments are present, and the order in which the two
    first arrive does not matter: server-then-state and state-then-server
    both hand over the one pair once.  (A call repeated with unchanged
    fragments is a call like any other: it hands the pair over again.)
    When the calls carry non-empty fragments and the players resolve, no
    call fails. *)
Theorem forward_once_per_call_while_complete g s :
  s !! g = None ->
  (forall calls,
     Forall (for_guild g) calls -> Forall has_player calls ->
     forwards (run_trace (process clientId calls s)) =
       concat (map (due clientId) (prefixes calls))) /\
  (forall calls,
     Forall (good_call clientId g) calls -> Forall resolving calls ->
     run_errors (process clientId calls s) = []) /\
  (forall sv st p q,
     good_call clientId g (VOICE_SERVER_UPDATE sv, Some p) ->
     good_call clientId g (VOICE_STATE_UPDATE st, Some q) ->
     let cred := mkVoiceState (default "" (sv_token sv))
                   (default "" (sv_endpoint sv))
                   (default "" (st_session_id st)) in
     forwards (run_trace (process clientId
        [(VOICE_SERVER_UPDATE sv, Some p); (VOICE_STATE_UPDATE st, Some q)] s))
       = [cred] /\
     forwards (run_trace (process clientId
        [(VOICE_STATE_UPDATE st, Some q); (VOICE_SERVER_UPDATE sv, Some p)] s))
       = [cred]).
Proof.
  intros Hs.
  assert (Hr : reflects clientId g [] s)
    by (unfold reflects; rewrite Hs; repeat split; reflexivity).
  assert (Hall : forall calls,
     Forall (for_guild g) calls -> Forall has_player calls ->
     forwards (run_trace (process clientId calls s)) =
       concat (map (due clientId) (prefixes calls))).
  { intros calls Hg Hp. exact (process_forwards g calls [] s Hg Hp Hr). }
  split; [exact Hall|]. split; [intros calls; apply process_good|].
  intros sv st p q (Hg1 & Htk & Hep) (Hg2 & Hu & Hsid & Hch) cred.
  assert (Hpl : forall (a b : Call), snd a <> None -> snd b <> None ->
                  Forall has_player [a; b])
    by (intros; repeat constructor; assumption).
  assert (Hgd : forall (a b : Call), for_guild g a -> for_guild g b ->
                  Forall (for_guild g) [a; b])
    by (intros; repeat constructor; assumption).
  assert (Eu : String.eqb (st_user_id st) clientId = true)
    by (apply String.eqb_eq; exact Hu).
  split; rewrite Hall by (apply Hpl || apply Hgd; (discriminate || assumption));
    cbn [prefixes map concat app];
    unfold due, known, learn, brings_fragment;
    cbn [last fold_left fst nothing_known f_token f_endpoint f_session];
    rewrite ?Eu, ?Hch; cbn [f_token f_endpoint f_session andb];
    rewrite ?Htk, ?Hep, ?Hsid; reflexivity.
Qed.

(** C5.  A [VOICE_STATE_UPDATE] of the bot without a channel removes the
    guild's entry from the map, calls [player.disconnect()] when a player
    is given, and hands over no credential; it returns normally when no
    player is given or [disconnect()] resolves, and rejects with the error
    of [disconnect()] otherwise, the entry being removed either way.
    Afterwards nothing is handed over for that guild as long as only
    server events, or only state events, arrive: both fragments have to
    arrive anew. *)
Theorem departure_clears_state_and_stops_forwarding d player s :
  st_user_id d = clientId ->
  truthy (st_channel_id d) = false ->
  let o := handleVoiceStateUpdate clientId d player s in
  o_result o = match player with
               | Some p => settled (disconnect p)
               | None => inr tt
               end /\
  o_store o = delete (st_guild_id d) s /\
  o_store o !! st_guild_id d = None /\
  o_trace o =
    Emit_debug ("Voice state update for guild " ++ st_guild_id d)
      :: match player with Some p => [Player_disconnect p] | None => [] end /\
  forwards (o_trace o) = [] /\
  (forall calls,
     Forall (for_guild (st_guild_id d)) calls ->
     Forall (fun c => is_state c = false) calls \/
     Forall (fun c => is_server c = false) calls ->
     forwards (run_trace (process clientId calls (o_store o))) = []).
Proof.
  intros Hu Hc o. subst o.
  rewrite handleVoiceStateUpdate_left by assumption. cbn [o_result o_store o_trace].
  assert (Hnone : delete (st_guild_id d) s !! st_guild_id d = None)
    by apply lookup_delete_eq.
  repeat split; try reflexivity; try exact Hnone.
  - destruct player; reflexivity.
  - intros calls Hg [Hk|Hk].
    + apply (no_forward_without_state_events (st_guild_id d)); try assumption.
      unfold no_session. rewrite Hnone. reflexivity.
    + apply (no_forward_without_server_events (st_guild_id d)); try assumption.
      unfold no_token. rewrite Hnone. reflexivity.
Qed.

(** C6 (as amended).  For a [VOICE_STATE_UPDATE] of the bot with a channel
    and a player: when the channel differs from [player.voiceChannelId],
    one [playerMove] with the old and the new channel is emitted, right
    after the debug line and before any credential is handed over; when
    the channel is the same, no [playerMove] is emitted, whichever node the
    player is assigned to. *)
Theorem playerMove_on_channel_change d p s :
  st_user_id d = clientId ->
  truthy (st_channel_id d) = true ->
  let o := handleVoiceStateUpdate clientId d (Some p) s in
  (voiceChannelId p <> st_channel_id d ->
   exists rest,
     o_trace o =
       Emit_debug ("Voice state update for guild " ++ st_guild_id d)
         :: Emit_playerMove p (voiceChannelId p) (st_channel_id d) :: rest /\
     filter (fun e => is_move e = true) rest = [] /\
     forwards (o_trace o) = forwards rest) /\
  (voiceChannelId p = st_channel_id d ->
   filter (fun e => is_move e = true) (o_trace o) = []).
Proof.
  intros Hu Hc o. subst o.
  rewrite handleVoiceStateUpdate_joined by assumption. cbv zeta.
  split; intros Hch.
  - rewrite bool_decide_eq_false_2 by exact Hch.
    destruct (truthy (token (state_entry d s)) &&
              truthy (endpoint (state_entry d s))).
    + eexists. rewrite trace_prepend. split; [reflexivity|].
      split; [apply moves_forwardVoiceState | reflexivity].
    + exists []. repeat split; reflexivity.
  - rewrite bool_decide_eq_true_2 by exact Hch.
    destruct (truthy (token (state_entry d s)) &&
              truthy (endpoint (state_entry d s))).
    + rewrite trace_prepend. cbn [app].
      rewrite filter_cons_False by (cbn; discriminate).
      apply moves_forwardVoiceState.
    + reflexivity.
Qed.

(** C8.  A [VOICE_STATE_UPDATE] whose [user_id] is not the client id has no
    effect at all: the map is unchanged and nothing is emitted or called
    (no credential, no [disconnect], no [playerMove]). *)
Theorem state_update_of_other_user_ignored d player s :
  st_user_id d <> clientId ->
  let o := handleVoiceStateUpdate clientId d player s in
  o_result o = inr tt /\
  o_store o = s /\
  o_trace o = [] /\
  forwards (o_trace o) = [] /\
  (forall p, Player_disconnect p ∉ o_trace o) /\
  (forall p old new, Emit_playerMove p old new ∉ o_trace o).
Proof.
  intros Hu o. subst o.
  assert (E : String.eqb (st_user_id d) clientId = false)
    by (apply String.eqb_neq; exact Hu).
  unfold handleVoiceStateUpdate. rewrite E. cbn.
  repeat split; try reflexivity; intros; apply not_elem_of_nil.
Qed.

End VoiceForwarderFacts.

(** ** Concrete runs of the forwarder *)

Section VoiceForwarderRuns.

Import VoiceForwarder.

(** The scenario of the specification: a state event with channel [c1],
    then a server event with token [T] and endpoint [E], hands over exactly
    one credential; a state event without channel then tears the session
    down and hands over nothing more. *)
Example scenario_join_then_leave :
  let r := process bot [(joined, Some player1); (server, Some player1);
                        (left, Some player1)] ∅ in
  forwards (run_trace r) = [mkVoiceState "T" "E" "sess"] /\
  run_errors r = [] /\
  run_store r = ∅ /\
  last (run_trace r) = Some (Player_disconnect player1).
Proof. repeat split; vm_compute; reflexivity. Qed.

(** A forwarding failure is surfaced: when [player.updateVoiceState]
    rejects, the call of [handleVoiceUpdate] rejects with the same error,
    after the credential was handed to the player and without the
    "Forwarded" debug line; the entry stays in the map.  When
    [player.disconnect] rejects on a departure, the call rejects too, and
    the entry is gone all the same. *)
Example player_failures_are_surfaced :
  let ready := o_store (handleVoiceUpdate bot joined (Some player1) ∅) in
  let forwarded := handleVoiceUpdate bot server (Some stranded) ready in
  let departed := handleVoiceUpdate bot left (Some stranded) ready in
  o_result forwarded = inl "Node not connected" /\
  o_trace forwarded =
    [Emit_debug "Voice server update for guild g";
     Player_updateVoiceState stranded (mkVoiceState "T" "E" "sess")] /\
  (o_store forwarded !! "g" ≫= token) = Some "T" /\
  o_result departed = inl "Node not connected" /\
  o_trace departed =
    [Emit_debug "Voice state update for guild g"; Player_disconnect stranded] /\
  o_store departed !! "g" = None.
Proof. repeat split; vm_compute; reflexivity. Qed.

(** C1 (the code departs from the claim).  The "Incomplete voice state"
    branch is reached from [handleVoiceUpdate]: the server handler tests
    the stored session id only, so a server event whose endpoint is empty
    (or null) after a state event throws; the state handler tests the
    stored token and endpoint only, so a state event of the bot with a
    channel and an empty session id after a server event throws too.  No
    credential is handed over in either run. *)
Theorem incomplete_voice_state_reached :
  let r1 := process bot [(joined, Some player1);
                         (empty_endpoint, Some player1)] ∅ in
  let r2 := process bot [(joined, Some player1);
                         (null_endpoint, Some player1)] ∅ in
  let r3 := process bot [(server, Some player1);
                         (empty_session, Some player1)] ∅ in
  (run_errors r1 = ["Incomplete voice state"] /\ forwards (run_trace r1) = []) /\
  (run_errors r2 = ["Incomplete voice state"] /\ forwards (run_trace r2) = []) /\
  (run_errors r3 = ["Incomplete voice state"] /\ forwards (run_trace r3) = []).
Proof. repeat split; vm_compute; reflexivity. Qed.

(** C2 (counterexample).  The server event delivered a second time changes
    neither fragment (the map is the same before and after it), and the
    one complete pair is handed over a second time. *)
Lemma redelivery_forwards_again :
  let before := process bot [(joined, Some player1); (server, Some player1)] ∅ in
  let again := handleVoiceUpdate bot server (Some player1) (run_store before) in
  forwards (run_trace before) = [mkVoiceState "T" "E" "sess"] /\
  o_store again = run_store before /\
  forwards (o_trace again) = [mkVoiceState "T" "E" "sess"] /\
  forwards (run_trace (process bot
    [(joined, Some player1); (server, Some player1); (server, Some player1)] ∅))
  = [mkVoiceState "T" "E" "sess"; mkVoiceState "T" "E" "sess"].
Proof. repeat split; vm_compute; reflexivity. Qed.

(** C6 (counterexample).  The player is first assigned to [node-1], then to
    [node-2], in the same channel [c1]: the assigned node differs from
    before, and the second state event emits no [playerMove]. *)
Lemma node_change_emits_no_playerMove :
  let first := handleVoiceUpdate bot joined (Some player1) ∅ in
  let second := handleVoiceUpdate bot joined (Some player2) (o_store first) in
  p_node player2 <> p_node player1 /\
  truthy (Some "c1") = true /\
  o_result second = inr tt /\
  filter (fun e => is_move e = true) (o_trace second) = [].
Proof. repeat split; try (vm_compute; reflexivity). discriminate. Qed.

(** An instance of C2: a visit with a repeated server event, another
    user's event and a departure. *)
Lemma forward_once_per_call_while_complete_witness :
  (∅ : gmap string VoiceConnection) !! "g" = None /\
  forwards (run_trace (process bot visit ∅))
    = concat (map (due bot) (prefixes visit)) /\
  concat (map (due bot) (prefixes visit))
    = [mkVoiceState "T" "E" "sess"; mkVoiceState "T" "E" "sess"] /\
  run_errors (process bot visit ∅) = ["Node not connected"].
Proof.
  assert (H : (∅ : gmap string VoiceConnection) !! "g" = None) by reflexivity.
  split; [exact H|]. split; [|split; vm_compute; reflexivity].
  apply (proj1 (forward_once_per_call_while_complete bot "g" ∅ H) visit).
  - repeat (apply List.Forall_cons; [vm_compute; auto|]). apply List.Forall_nil.
  - repeat (apply List.Forall_cons; [discriminate|]). apply List.Forall_nil.
Defined.

(** An instance of C5. *)
Lemma departure_clears_state_and_stops_forwarding_witness :
  let d := mkStateData "g" "bot" (Some "sess") None in
  let s := run_store (process bot [(joined, Some player1);
                                   (server, Some player1)] ∅) in
  st_user_id d = bot /\ truthy (st_channel_id d) = false /\
  o_store (handleVoiceStateUpdate bot d (Some player1) s) !! "g" = None.
Proof.
  intros d s. split; [reflexivity|]. split; [reflexivity|].
  apply (departure_clears_state_and_stops_forwarding bot d (Some player1) s);
    reflexivity.
Defined.

(** An instance of C6: the bot moves from [c1] to [c2] when the server
    fragment is known, so the move is followed by a forward. *)
Lemma playerMove_on_channel_change_witness :
  let d := mkStateData "g" "bot" (Some "sess") (Some "c2") in
  let s := o_store (handleVoiceUpdate bot server (Some player1) ∅) in
  st_user_id d = bot /\ truthy (st_channel_id d) = true /\
  voiceChannelId player1 <> st_channel_id d /\
  forwards (o_trace (handleVoiceStateUpdate bot d (Some player1) s))
    = [mkVoiceState "T" "E" "sess"] /\
  exists rest,
    o_trace (handleVoiceStateUpdate bot d (Some player1) s) =
      Emit_debug "Voice state update for guild g"
        :: Emit_playerMove player1 (Some "c1") (Some "c2") :: rest /\
    filter (fun e => is_move e = true) rest = [] /\
    forwards (o_trace (handleVoiceStateUpdate bot d (Some player1) s))
    = forwards rest.
Proof.
  intros d s.
  assert (Hu : st_user_id d = bot) by reflexivity.
  assert (Hc : truthy (st_channel_id d) = true) by reflexivity.
  assert (Hne : voiceChannelId player1 <> st_channel_id d) by discriminate.
  split; [exact Hu|]. split; [exact Hc|]. split; [exact Hne|].
  split; [vm_compute; reflexivity|].
  exact (proj1 (playerMove_on_channel_change bot d player1 s Hu Hc) Hne).
Defined.

(** An instance of C8. *)
Lemma state_update_of_other_user_ignored_witness :
  let d := mkStateData "g" "someone" (Some "sess") (Some "c1") in
  st_user_id d <> bot /\
  o_trace (handleVoiceStateUpdate bot d (Some player1) ∅) = [].
Proof.
  intros d.
  assert (H : st_user_id d <> bot) by discriminate.
  split; [exact H|].
  apply (state_update_of_other_user_ignored bot d (Some player1) ∅ H).
Defined.

End VoiceForwarderRuns.

(** * Properties of rounding *)

Section DoubleFacts.

Import Double.

Local Open Scope Q_scope.

Lemma pow2_pos k : 0 < pow2 k.
Proof. apply Qpower_0_lt. reflexivity. Qed.

Lemma pow2_add a b : pow2 (a + b) == pow2 a * pow2 b.
Proof. apply Qpower_plus. discriminate. Qed.

Lemma pow2_le a b : (a <= b)%Z -> pow2 a <= pow2 b.
Proof. intros H. apply Qpower_le_compat_l; [exact H | discriminate]. Qed.

Lemma pow2_lt a b : (a < b)%Z -> pow2 a < pow2 b.
Proof. intros H. apply Qpower_lt_compat_l; [exact H | reflexivity]. Qed.

Lemma pow2_lt_inv a b : pow2 a < pow2 b -> (a < b)%Z.
Proof. intros H. apply (Qpower_lt_compat_l_inv 2); [exact H | reflexivity]. Qed.

Lemma pow2_cancel a : pow2 (- a) * pow2 a == 1.
Proof. rewrite <- pow2_add. replace (- a + a)%Z with 0%Z by lia. reflexivity. Qed.

Lemma pow2_Z k : (0 <= k)%Z -> pow2 k == inject_Z (2 ^ k).
Proof. intros H. unfold pow2. rewrite Zpower_Qpower by exact H. reflexivity. Qed.

Lemma pow2_succ k : pow2 (k + 1) == 2 * pow2 k.
Proof. rewrite pow2_add. change (pow2 1) with 2. ring. Qed.

Lemma ilog2_spec a : 0 < a -> pow2 (ilog2 a) <= a /\ a < pow2 (ilog2 a + 1).
Proof.
  intros Ha. unfold ilog2.
  set (k := (Z.log2 (Qnum a) - Z.log2 (Z.pos (Qden a)))%Z).
  assert (Hn : (0 < Qnum a)%Z).
  { destruct a as [n d]. unfold Qlt in Ha. cbn in *. lia. }
  destruct (Z.log2_spec _ Hn) as [Hn1 Hn2].
  destruct (Z.log2_spec (Z.pos (Qden a)) ltac:(lia)) as [Hd1 Hd2].
  pose proof (Z.log2_nonneg (Qnum a)) as Hln.
  pose proof (Z.log2_nonneg (Z.pos (Qden a))) as Hld.
  assert (E : a * inject_Z (Z.pos (Qden a)) == inject_Z (Qnum a)).
  { destruct a as [n d]. cbn [Qnum Qden]. unfold Qeq, Qmult, inject_Z.
    cbn. lia. }
  assert (Ek : pow2 k * inject_Z (2 ^ Z.log2 (Z.pos (Qden a)))
               == inject_Z (2 ^ Z.log2 (Qnum a))).
  { rewrite <- !pow2_Z by assumption. rewrite <- pow2_add.
    unfold k. replace (_ - _ + _)%Z with (Z.log2 (Qnum a)) by lia.
    reflexivity. }
  rewrite Z.pow_succ_r in Hn2, Hd2 by assumption.
  rewrite Zle_Qle in Hn1, Hd1. rewrite Zlt_Qlt in Hn2, Hd2.
  rewrite inject_Z_mult in Hn2, Hd2.
  set (N1 := inject_Z (2 ^ Z.log2 (Qnum a))) in *.
  set (D1 := inject_Z (2 ^ Z.log2 (Z.pos (Qden a)))) in *.
  set (nq := inject_Z (Qnum a)) in *.
  set (dq := inject_Z (Z.pos (Qden a))) in *.
  pose proof (pow2_pos k) as HP.
  assert (HD1 : 0 < D1).
  { unfold D1. change 0 with (inject_Z 0). rewrite <- Zlt_Qlt.
    apply Z.pow_pos_nonneg; lia. }
  change (inject_Z 2) with 2 in *.
  destruct (Qle_bool (pow2 k) a) eqn:Eb.
  - apply Qle_bool_iff in Eb. split; [exact Eb|].
    rewrite pow2_succ.
    destruct (Qlt_le_dec a (2 * pow2 k)) as [H|H]; [exact H|exfalso].
    assert (2 * pow2 k * D1 <= a * dq).
    { apply Qle_trans with (a * D1).
      - apply Qmult_le_compat_r; [exact H | apply Qlt_le_weak; exact HD1].
      - rewrite !(Qmult_comm a). apply Qmult_le_compat_r;
          [exact Hd1 | apply Qlt_le_weak; exact Ha]. }
    lra.
  - assert (Hlt : a < pow2 k).
    { apply Qnot_le_lt. intros H. apply Qle_bool_iff in H. congruence. }
    replace (k - 1 + 1)%Z with k by lia. split; [|exact Hlt].
    assert (E2 : pow2 k == 2 * pow2 (k - 1)).
    { rewrite <- pow2_succ. replace (k - 1 + 1)%Z with k by lia. reflexivity. }
    destruct (Qlt_le_dec a (pow2 (k - 1))) as [H|H]; [exfalso|exact H].
    pose proof (pow2_pos (k - 1)) as HP1.
    assert (a * dq < pow2 (k - 1) * (2 * D1)).
    { apply Qle_lt_trans with (pow2 (k - 1) * dq).
      - apply Qmult_le_compat_r; [apply Qlt_le_weak; exact H|].
        apply Qle_trans with D1; [apply Qlt_le_weak; exact HD1 | exact Hd1].
      - rewrite !(Qmult_comm (pow2 (k - 1))).
        apply Qmult_lt_compat_r; assumption. }
    rewrite E2 in Ek. lra.
Qed.

Lemma ilog2_unique a k : pow2 k <= a -> a < pow2 (k + 1) -> ilog2 a = k.
Proof.
  intros H1 H2.
  assert (Ha : 0 < a) by (eapply Qlt_le_trans; [apply pow2_pos | exact H1]).
  destruct (ilog2_spec a Ha) as [H3 H4].
  assert (k < ilog2 a + 1)%Z
    by (apply pow2_lt_inv; eapply Qle_lt_trans; eassumption).
  assert (ilog2 a < k + 1)%Z
    by (apply pow2_lt_inv; eapply Qle_lt_trans; eassumption).
  lia.
Qed.

Lemma ilog2_comp a b : 0 < a -> a == b -> ilog2 a = ilog2 b.
Proof.
  intros Ha E. symmetry. destruct (ilog2_spec a Ha) as [H1 H2].
  apply ilog2_unique; rewrite <- E; assumption.
Qed.

Lemma ilog2_mono a b : 0 < a -> a <= b -> (ilog2 a <= ilog2 b)%Z.
Proof.
  intros Ha Hab.
  assert (Hb : 0 < b) by (eapply Qlt_le_trans; eassumption).
  destruct (ilog2_spec a Ha) as [H1 _], (ilog2_spec b Hb) as [_ H2].
  assert (ilog2 a < ilog2 b + 1)%Z; [|lia].
  apply pow2_lt_inv. eapply Qle_lt_trans; [|exact H2].
  eapply Qle_trans; eassumption.
Qed.


(** ** Rounding to the nearest integer *)

Lemma rne_comp x y : x == y -> rne x = rne y.
Proof.
  intros E. unfold rne. rewrite (Qfloor_comp _ _ E).
  assert (E' : x - inject_Z (Qfloor y) == y - inject_Z (Qfloor y))
    by (rewrite E; reflexivity).
  rewrite (Qcompare_comp _ _ E' (1 # 2) (1 # 2) (Qeq_refl _)). reflexivity.
Qed.

Lemma rne_floor x : (Qfloor x <= rne x <= Qfloor x + 1)%Z.
Proof.
  unfold rne.
  destruct (Qcompare (x - inject_Z (Qfloor x)) (1 # 2));
    [destruct (Z.even (Qfloor x))| |]; lia.
Qed.

Lemma rne_Z z : rne (inject_Z z) = z.
Proof.
  unfold rne. rewrite Qfloor_Z.
  assert (E : inject_Z z - inject_Z z == 0) by ring.
  rewrite (Qcompare_comp _ _ E (1 # 2) (1 # 2) (Qeq_refl _)). reflexivity.
Qed.

Lemma rne_mono x y : x <= y -> (rne x <= rne y)%Z.
Proof.
  intros H. pose proof (Qfloor_resp_le _ _ H) as Hf.
  destruct (Z.eq_dec (Qfloor x) (Qfloor y)) as [E|E].
  - unfold rne. rewrite <- E.
    destruct (Qcompare_spec (x - inject_Z (Qfloor x)) (1 # 2)) as [Hx|Hx|Hx];
      destruct (Qcompare_spec (y - inject_Z (Qfloor x)) (1 # 2)) as [Hy|Hy|Hy];
      try destruct (Z.even (Qfloor x)); try lia; exfalso; lra.
  - pose proof (rne_floor x). pose proof (rne_floor y). lia.
Qed.

Lemma rne_le_Z x z : x <= inject_Z z -> (rne x <= z)%Z.
Proof. intros H. rewrite <- (rne_Z z). apply rne_mono. exact H. Qed.

Lemma rne_ge_Z x z : inject_Z z <= x -> (z <= rne x)%Z.
Proof. intros H. rewrite <- (rne_Z z). apply rne_mono. exact H. Qed.

(** ** Rounding a positive rational *)

Lemma ulp_exponent_comp a b : 0 < a -> a == b -> ulp_exponent a = ulp_exponent b.
Proof. intros Ha E. unfold ulp_exponent. rewrite (ilog2_comp a b Ha E). reflexivity. Qed.

Lemma round_pos_comp a b : 0 < a -> a == b -> round_pos a == round_pos b.
Proof.
  intros Ha E. unfold round_pos. rewrite (ulp_exponent_comp a b Ha E).
  rewrite (rne_comp (a * pow2 (- ulp_exponent b)) (b * pow2 (- ulp_exponent b)))
    by (rewrite E; reflexivity).
  reflexivity.
Qed.

Lemma round_pos_nonneg a : 0 < a -> 0 <= round_pos a.
Proof.
  intros Ha. unfold round_pos.
  apply Qmult_le_0_compat; [|apply Qlt_le_weak, pow2_pos].
  change 0 with (inject_Z 0). rewrite <- Zle_Qle. apply rne_ge_Z.
  change (inject_Z 0) with 0.
  apply Qmult_le_0_compat; apply Qlt_le_weak; [exact Ha | apply pow2_pos].
Qed.

(** A multiple of the unit in the last place is a fixed point, and a bound. *)
Lemma grid_scaled m e e' : (e' <= e)%Z ->
  inject_Z m * pow2 e * pow2 (- e') == inject_Z (m * 2 ^ (e - e')).
Proof.
  intros H. rewrite inject_Z_mult, <- pow2_Z by lia.
  rewrite <- Qmult_assoc, <- pow2_add.
  replace (e + - e')%Z with (e - e')%Z by lia. reflexivity.
Qed.

Lemma grid_unscaled m e e' : (e' <= e)%Z ->
  inject_Z (m * 2 ^ (e - e')) * pow2 e' == inject_Z m * pow2 e.
Proof.
  intros H. rewrite inject_Z_mult, <- pow2_Z by lia.
  rewrite <- Qmult_assoc, <- pow2_add.
  replace (e - e' + e')%Z with e by lia. reflexivity.
Qed.

Lemma round_pos_le_grid a m e :
  0 < a -> (ulp_exponent a <= e)%Z -> a <= inject_Z m * pow2 e ->
  round_pos a <= inject_Z m * pow2 e.
Proof.
  intros Ha He H. unfold round_pos.
  rewrite <- (grid_unscaled m e (ulp_exponent a)) by exact He.
  apply Qmult_le_compat_r; [|apply Qlt_le_weak, pow2_pos].
  rewrite <- Zle_Qle. apply rne_le_Z.
  rewrite <- grid_scaled by exact He.
  apply Qmult_le_compat_r; [exact H | apply Qlt_le_weak, pow2_pos].
Qed.

Lemma round_pos_ge_grid a m e :
  0 < a -> (ulp_exponent a <= e)%Z -> inject_Z m * pow2 e <= a ->
  inject_Z m * pow2 e <= round_pos a.
Proof.
  intros Ha He H. unfold round_pos.
  rewrite <- (grid_unscaled m e (ulp_exponent a)) by exact He.
  apply Qmult_le_compat_r; [|apply Qlt_le_weak, pow2_pos].
  rewrite <- Zle_Qle. apply rne_ge_Z.
  rewrite <- grid_scaled by exact He.
  apply Qmult_le_compat_r; [exact H | apply Qlt_le_weak, pow2_pos].
Qed.

Lemma round_pos_eq_grid a m e :
  0 < a -> (ulp_exponent a <= e)%Z -> a == inject_Z m * pow2 e ->
  round_pos a == a.
Proof.
  intros Ha He E. apply Qle_antisym.
  - rewrite E at 2. apply round_pos_le_grid; [assumption..|].
    rewrite E. apply Qle_refl.
  - rewrite E at 1. apply round_pos_ge_grid; [assumption..|].
    rewrite E. apply Qle_refl.
Qed.

Lemma one_grid k : pow2 k == inject_Z 1 * pow2 k.
Proof. change (inject_Z 1) with 1. ring. Qed.

Lemma round_pos_mono a b : 0 < a -> a <= b -> round_pos a <= round_pos b.
Proof.
  intros Ha Hab.
  assert (Hb : 0 < b) by (eapply Qlt_le_trans; eassumption).
  pose proof (ilog2_mono a b Ha Hab) as Hk.
  destruct (ilog2_spec a Ha) as [_ Ha2], (ilog2_spec b Hb) as [Hb1 _].
  destruct (Z.eq_dec (ulp_exponent a) (ulp_exponent b)) as [E|E].
  - unfold round_pos. rewrite E.
    apply Qmult_le_compat_r; [|apply Qlt_le_weak, pow2_pos].
    rewrite <- Zle_Qle. apply rne_mono.
    apply Qmult_le_compat_r; [exact Hab | apply Qlt_le_weak, pow2_pos].
  - assert (He : (ulp_exponent a < ulp_exponent b)%Z)
      by (unfold ulp_exponent in *; lia).
    assert (Hkb : ulp_exponent b = (ilog2 b - 52)%Z)
      by (unfold ulp_exponent in *; lia).
    assert (Hka : (ilog2 a + 1 <= ilog2 b)%Z)
      by (unfold ulp_exponent in *; lia).
    apply Qle_trans with (pow2 (ilog2 b)).
    + rewrite (one_grid (ilog2 b)).
      apply round_pos_le_grid; [exact Ha | lia |].
      rewrite <- one_grid. apply Qlt_le_weak.
      eapply Qlt_le_trans; [exact Ha2 | apply pow2_le; exact Hka].
    + rewrite (one_grid (ilog2 b)).
      apply round_pos_ge_grid; [exact Hb | lia |].
      rewrite <- one_grid. exact Hb1.
Qed.


(** ** The doubles are the fixed points of rounding *)

Lemma ilog2_grid m e : (0 < m)%Z -> ilog2 (inject_Z m * pow2 e) = (Z.log2 m + e)%Z.
Proof.
  intros Hm. destruct (Z.log2_spec m Hm) as [H1 H2].
  pose proof (Z.log2_nonneg m) as H0.
  apply ilog2_unique.
  - rewrite pow2_add, (pow2_Z (Z.log2 m)) by exact H0.
    apply Qmult_le_compat_r; [|apply Qlt_le_weak, pow2_pos].
    rewrite <- Zle_Qle. exact H1.
  - replace (Z.log2 m + e + 1)%Z with (Z.succ (Z.log2 m) + e)%Z by lia.
    rewrite pow2_add, (pow2_Z (Z.succ (Z.log2 m))) by lia.
    apply Qmult_lt_compat_r; [apply pow2_pos|].
    rewrite <- Zlt_Qlt. exact H2.
Qed.

Lemma grid_pos m e : 0 < inject_Z m * pow2 e -> (0 < m)%Z.
Proof.
  intros H. destruct (Z_lt_le_dec 0%Z m) as [Hm|Hm]; [exact Hm|exfalso].
  rewrite Zle_Qle in Hm. change (inject_Z 0) with 0 in Hm.
  pose proof (pow2_pos e). nra.
Qed.

Lemma ulp_exponent_grid m e :
  (0 < m < 2 ^ 53)%Z -> (-1074 <= e)%Z ->
  (ulp_exponent (inject_Z m * pow2 e) <= e)%Z.
Proof.
  intros [Hm1 Hm2] He. unfold ulp_exponent. rewrite ilog2_grid by exact Hm1.
  assert (Z.log2 m < 53)%Z by (apply Z.log2_lt_pow2; assumption).
  lia.
Qed.

Lemma round_pos_grid v : 0 < v -> grid v -> round_pos v == v.
Proof.
  intros Hv (m & e & E & Hm & He).
  assert (Hm0 : (0 < m)%Z) by (apply (grid_pos m e); rewrite <- E; exact Hv).
  apply (round_pos_eq_grid v m e); [exact Hv | | exact E].
  rewrite (ulp_exponent_comp v _ Hv E). apply ulp_exponent_grid; lia.
Qed.

Lemma round_pos_in_grid a : 0 < a -> grid (round_pos a).
Proof.
  intros Ha. destruct (ilog2_spec a Ha) as [_ H2].
  set (e := ulp_exponent a). set (M := rne (a * pow2 (- e))).
  assert (He : (-1074 <= e)%Z) by (unfold e, ulp_exponent; lia).
  assert (Hk : (ilog2 a + 1 - e <= 53)%Z) by (unfold e, ulp_exponent; lia).
  assert (HM0 : (0 <= M)%Z).
  { apply rne_ge_Z. change (inject_Z 0) with 0.
    apply Qmult_le_0_compat; apply Qlt_le_weak; [exact Ha | apply pow2_pos]. }
  assert (HM1 : (M <= 2 ^ 53)%Z).
  { apply rne_le_Z. rewrite <- pow2_Z by lia.
    apply Qle_trans with (pow2 (ilog2 a + 1) * pow2 (- e)).
    - apply Qmult_le_compat_r; apply Qlt_le_weak; [exact H2 | apply pow2_pos].
    - rewrite <- pow2_add. apply pow2_le. lia. }
  destruct (Z.eq_dec M (2 ^ 53)%Z) as [E|E].
  - exists (2 ^ 52)%Z, (e + 1)%Z. split; [|split; lia].
    unfold round_pos. fold e. fold M. rewrite E.
    rewrite pow2_succ, <- !pow2_Z by lia.
    change (pow2 53) with (2 * pow2 52). ring.
  - exists M, e. split; [reflexivity | split; lia].
Qed.

Lemma Qcompare_Gt q : 0 < q -> Qcompare q 0 = Gt.
Proof. intros H. apply Qgt_alt. exact H. Qed.

Lemma Qcompare_Lt q : q < 0 -> Qcompare q 0 = Lt.
Proof. intros H. apply Qlt_alt. exact H. Qed.

Lemma Qcompare_Eq q : q == 0 -> Qcompare q 0 = Eq.
Proof. intros H. apply Qeq_alt. exact H. Qed.

Lemma round_of_pos q : 0 < q ->
  round q = if overflow (round_pos q) then PosInf else Fin (Qred (round_pos q)).
Proof. intros H. unfold round. rewrite Qcompare_Gt by exact H. reflexivity. Qed.

Lemma round_of_neg q : q < 0 ->
  round q = if overflow (round_pos (- q)) then NegInf
            else Fin (Qred (- round_pos (- q))).
Proof. intros H. unfold round. rewrite Qcompare_Lt by exact H. reflexivity. Qed.

Lemma round_of_zero q : q == 0 -> round q = Fin 0.
Proof. intros H. unfold round. rewrite Qcompare_Eq by exact H. reflexivity. Qed.

Lemma overflow_false v : overflow v = false <-> v < pow2 1024.
Proof.
  unfold overflow. split; intros H.
  - apply Qnot_le_lt. intros H'. apply Qle_bool_iff in H'. congruence.
  - apply not_true_is_false. intros H'. apply Qle_bool_iff in H'.
    apply (Qlt_irrefl v). eapply Qlt_le_trans; eassumption.
Qed.

Lemma overflow_comp v w : v == w -> overflow v = overflow w.
Proof.
  intros E. unfold overflow. apply eq_true_iff_eq.
  rewrite !Qle_bool_iff, E. reflexivity.
Qed.

Lemma round_comp p q : p == q -> round p = round q.
Proof.
  intros E. destruct (Q_dec p 0) as [[H|H]|H].
  - rewrite (round_of_neg p H), (round_of_neg q) by (rewrite <- E; exact H).
    assert (E' : round_pos (- p) == round_pos (- q))
      by (apply round_pos_comp; [lra | rewrite E; reflexivity]).
    rewrite (overflow_comp _ _ E').
    destruct (overflow (round_pos (- q))); [reflexivity|].
    f_equal. apply Qred_complete. rewrite E'. reflexivity.
  - rewrite (round_of_pos p H), (round_of_pos q) by (rewrite <- E; exact H).
    assert (E' : round_pos p == round_pos q)
      by (apply round_pos_comp; assumption).
    rewrite (overflow_comp _ _ E').
    destruct (overflow (round_pos q)); [reflexivity|].
    f_equal. apply Qred_complete. exact E'.
  - rewrite (round_of_zero p H), (round_of_zero q) by (rewrite <- E; exact H).
    reflexivity.
Qed.

(** What it is to be a double, by the sign. *)
Lemma is_double_pos v : 0 < v ->
  (is_double v = true <-> round_pos v == v /\ v < pow2 1024).
Proof.
  intros Hv. unfold is_double. rewrite round_of_pos by exact Hv.
  destruct (overflow (round_pos v)) eqn:Eo.
  - split; [discriminate|]. intros [E H]. rewrite <- E in H.
    apply overflow_false in H. congruence.
  - apply overflow_false in Eo. rewrite Qeq_bool_iff, Qred_correct.
    split; [intros E; split; [exact E | rewrite <- E; exact Eo] | tauto].
Qed.

Lemma is_double_neg v : v < 0 ->
  (is_double v = true <-> round_pos (- v) == - v /\ - v < pow2 1024).
Proof.
  intros Hv. unfold is_double. rewrite round_of_neg by exact Hv.
  destruct (overflow (round_pos (- v))) eqn:Eo.
  - split; [discriminate|]. intros [E H]. rewrite <- E in H.
    apply overflow_false in H. congruence.
  - apply overflow_false in Eo. rewrite Qeq_bool_iff, Qred_correct.
    split.
    + intros E. assert (E' : round_pos (- v) == - v) by lra.
      split; [exact E' | rewrite <- E'; exact Eo].
    + intros [E _]. lra.
Qed.

Lemma is_double_zero v : v == 0 -> is_double v = true.
Proof.
  intros E. unfold is_double. rewrite round_of_zero by exact E.
  apply Qeq_bool_iff. symmetry. exact E.
Qed.

Lemma is_double_opp v : is_double v = true -> is_double (- v) = true.
Proof.
  intros H. destruct (Q_dec v 0) as [[Hv|Hv]|Hv].
  - apply is_double_neg in H; [|exact Hv].
    apply is_double_pos; [lra|]. exact H.
  - apply is_double_pos in H; [|exact Hv].
    apply is_double_neg; [lra|].
    assert (E : - - v == v) by ring.
    rewrite (round_pos_comp (- - v) v) by (lra || exact E).
    destruct H as [H1 H2]. split; lra.
  - apply is_double_zero. lra.
Qed.

Lemma is_double_comp v w : v == w -> is_double v = is_double w.
Proof.
  intros E. unfold is_double. rewrite (round_comp v w E).
  destruct (round w); try reflexivity.
  apply eq_true_iff_eq. rewrite !Qeq_bool_iff, E. reflexivity.
Qed.

(** Rounding gives a double. *)
Lemma round_pos_is_double a :
  0 < a -> round_pos a < pow2 1024 -> is_double (round_pos a) = true.
Proof.
  intros Ha Hlt.
  destruct (Qlt_le_dec 0 (round_pos a)) as [H|H].
  - apply is_double_pos; [exact H|]. split; [|exact Hlt].
    apply round_pos_grid; [exact H | apply round_pos_in_grid; exact Ha].
  - apply is_double_zero. pose proof (round_pos_nonneg a Ha). lra.
Qed.

Lemma round_is_double q v : round q = Fin v -> is_double v = true.
Proof.
  destruct (Q_dec q 0) as [[H|H]|H].
  - rewrite round_of_neg by exact H.
    destruct (overflow (round_pos (- q))) eqn:Eo; [discriminate|].
    intros E.
    assert (Ev : v = Qred (- round_pos (- q))) by congruence.
    rewrite Ev. apply overflow_false in Eo.
    rewrite (is_double_comp _ _ (Qred_correct _)).
    apply is_double_opp, round_pos_is_double; [lra | exact Eo].
  - rewrite round_of_pos by exact H.
    destruct (overflow (round_pos q)) eqn:Eo; [discriminate|].
    intros E.
    assert (Ev : v = Qred (round_pos q)) by congruence.
    rewrite Ev. apply overflow_false in Eo.
    rewrite (is_double_comp _ _ (Qred_correct _)).
    apply round_pos_is_double; assumption.
  - rewrite round_of_zero by exact H. intros E.
    assert (Ev : v = 0) by congruence. rewrite Ev. reflexivity.
Qed.

Lemma is_double_round v : is_double v = true -> round v = Fin (Qred v).
Proof.
  unfold is_double. destruct (round v) as [| | |w] eqn:E; try discriminate.
  intros H. apply Qeq_bool_iff in H. f_equal.
  assert (Hw : w = Qred w).
  { destruct (Q_dec v 0) as [[Hv|Hv]|Hv].
    - rewrite round_of_neg in E by exact Hv.
      destruct (overflow _); [discriminate|].
      assert (Ew : w = Qred (- round_pos (- v))) by congruence.
      rewrite Ew. symmetry. apply Qred_complete, Qred_correct.
    - rewrite round_of_pos in E by exact Hv.
      destruct (overflow _); [discriminate|].
      assert (Ew : w = Qred (round_pos v)) by congruence.
      rewrite Ew. symmetry. apply Qred_complete, Qred_correct.
    - rewrite round_of_zero in E by exact Hv.
      assert (Ew : w = 0) by congruence. rewrite Ew. reflexivity. }
  rewrite Hw. apply Qred_complete. exact H.
Qed.

(** Rounding is monotone: it keeps a value between two doubles. *)
Lemma round_between lo hi q :
  is_double lo = true -> is_double hi = true -> lo <= q <= hi ->
  exists v, round q = Fin v /\ lo <= v <= hi /\ is_double v = true.
Proof.
  intros Hlo Hhi [H1 H2].
  assert (Hex : exists v, round q = Fin v /\ lo <= v <= hi).
  { destruct (Q_dec q 0) as [[Hq|Hq]|Hq].
    - assert (Hl : lo < 0) by lra.
      apply is_double_neg in Hlo as [El Hl2]; [|exact Hl].
      assert (Hr : round_pos (- q) <= - lo).
      { rewrite <- El. apply round_pos_mono; lra. }
      rewrite round_of_neg by exact Hq.
      assert (Eo : overflow (round_pos (- q)) = false)
        by (apply overflow_false; lra).
      rewrite Eo. eexists. split; [reflexivity|]. rewrite Qred_correct.
      split; [lra|].
      destruct (Qlt_le_dec hi 0) as [Hh|Hh].
      + apply is_double_neg in Hhi as [Eh _]; [|exact Hh].
        assert (- hi <= round_pos (- q)); [|lra].
        rewrite <- Eh. apply round_pos_mono; lra.
      + pose proof (round_pos_nonneg (- q)). lra.
    - assert (Hh : 0 < hi) by lra.
      apply is_double_pos in Hhi as [Eh Hh2]; [|exact Hh].
      assert (Hr : round_pos q <= hi).
      { rewrite <- Eh. apply round_pos_mono; lra. }
      rewrite round_of_pos by exact Hq.
      assert (Eo : overflow (round_pos q) = false)
        by (apply overflow_false; lra).
      rewrite Eo. eexists. split; [reflexivity|]. rewrite Qred_correct.
      split; [|lra].
      destruct (Qlt_le_dec 0 lo) as [Hl|Hl].
      + apply is_double_pos in Hlo as [El _]; [|exact Hl].
        rewrite <- El. apply round_pos_mono; lra.
      + pose proof (round_pos_nonneg q). lra.
    - rewrite round_of_zero by exact Hq. exists 0. split; [reflexivity|]. lra. }
  destruct Hex as (v & E & Hv). exists v. split; [exact E|].
  split; [exact Hv | exact (round_is_double q v E)].
Qed.


Lemma grid_comp v w : v == w -> grid v -> grid w.
Proof.
  intros E (m & e & Hv & H). exists m, e. split; [rewrite <- E; exact Hv | exact H].
Qed.

Lemma is_double_grid v : 0 < v ->
  (is_double v = true <-> grid v /\ v < pow2 1024).
Proof.
  intros Hv. rewrite is_double_pos by exact Hv. split; intros [H1 H2].
  - split; [|exact H2].
    apply (grid_comp (round_pos v)); [exact H1 | apply round_pos_in_grid, Hv].
  - split; [apply round_pos_grid; assumption | exact H2].
Qed.

Lemma pow2_53_lt_1024 : inject_Z (2 ^ 53) < pow2 1024.
Proof. rewrite <- pow2_Z by lia. apply pow2_lt. lia. Qed.

Lemma is_double_Z z : (Z.abs z <= 2 ^ 53)%Z -> is_double (inject_Z z) = true.
Proof.
  assert (Hpos : forall n, (0 < n <= 2 ^ 53)%Z -> is_double (inject_Z n) = true).
  { intros n Hn.
    assert (Hq : 0 < inject_Z n)
      by (change 0 with (inject_Z 0); rewrite <- Zlt_Qlt; lia).
    apply is_double_grid; [exact Hq|]. split.
    - destruct (Z.eq_dec n (2 ^ 53)%Z) as [->|Hne].
      + exists (2 ^ 52)%Z, 1%Z. split; [|split; lia].
        reflexivity.
      + exists n, 0%Z. split; [|split; lia].
        change (pow2 0) with 1. ring.
    - eapply Qle_lt_trans; [|apply pow2_53_lt_1024].
      rewrite <- Zle_Qle. lia. }
  intros Hz. destruct (Z.lt_trichotomy z 0%Z) as [H|[->|H]].
  - rewrite (is_double_comp _ (- inject_Z (- z)))
      by (rewrite inject_Z_opp; ring).
    apply is_double_opp, Hpos. lia.
  - reflexivity.
  - apply Hpos. lia.
Qed.

(** Multiplying a double by a power of two is exact. *)
Lemma is_double_scale v n :
  is_double v = true -> 0 < v -> (0 <= n)%Z -> v * pow2 n < pow2 1024 ->
  is_double (v * pow2 n) = true.
Proof.
  intros Hd Hv Hn Hlt.
  apply is_double_grid in Hd as [(m & e & E & Hm & He) _]; [|exact Hv].
  assert (Hp : 0 < v * pow2 n).
  { apply Qmult_lt_0_compat; [exact Hv | apply pow2_pos]. }
  apply is_double_grid; [exact Hp|]. split; [|exact Hlt].
  exists m, (e + n)%Z. split; [|split; lia].
  rewrite E, pow2_add. ring.
Qed.

Lemma round_pos_overflows a : pow2 1024 <= a -> pow2 1024 <= round_pos a.
Proof.
  intros H.
  assert (E : round_pos (pow2 1024) == pow2 1024).
  { apply round_pos_grid; [apply pow2_pos|].
    exists 1%Z, 1024%Z. split; [apply one_grid | split; lia]. }
  rewrite <- E. apply round_pos_mono; [apply pow2_pos | exact H].
Qed.

Lemma round_overflows q : pow2 1024 <= q -> round q = PosInf.
Proof.
  intros H. pose proof (pow2_pos 1024).
  rewrite round_of_pos by lra.
  assert (E : overflow (round_pos q) = true); [|rewrite E; reflexivity].
  apply Qle_bool_iff. apply round_pos_overflows. exact H.
Qed.

End DoubleFacts.

(** * Properties of the backoff policy *)

Section BackoffFacts.

Import Double Backoff.

Local Open Scope Q_scope.

Lemma mul_between a b lo hi :
  is_double lo = true -> is_double hi = true -> lo <= a * b <= hi ->
  exists v, mul (Fin a) (Fin b) = Fin v /\ lo <= v <= hi /\ is_double v = true.
Proof. apply round_between. Qed.

Lemma add_between a b lo hi :
  is_double lo = true -> is_double hi = true -> lo <= a + b <= hi ->
  exists v, add (Fin a) (Fin b) = Fin v /\ lo <= v <= hi /\ is_double v = true.
Proof. apply round_between. Qed.

Lemma sub_between a b lo hi :
  is_double lo = true -> is_double hi = true -> lo <= a - b <= hi ->
  exists v, sub (Fin a) (Fin b) = Fin v /\ lo <= v <= hi /\ is_double v = true.
Proof. apply round_between. Qed.

Lemma is_double_twice v :
  is_double v = true -> 0 <= v <= inject_Z (2 ^ 52) -> is_double (v * 2) = true.
Proof.
  intros Hd [H0 H1]. destruct (Qlt_le_dec 0 v) as [Hv|Hv].
  - change 2 with (pow2 1). apply is_double_scale; [exact Hd | exact Hv | lia |].
    change (pow2 1) with 2.
    eapply Qle_lt_trans; [|apply pow2_53_lt_1024].
    change (2 ^ 53)%Z with (2 ^ 52 * 2)%Z. rewrite inject_Z_mult.
    change (inject_Z 2) with 2. lra.
  - apply is_double_zero. lra.
Qed.

(** The perturbation stays within a whole number of the jitter range. *)
Lemma perturbed_bounds c j r :
  is_double c = true -> 0 <= c <= inject_Z (2 ^ 52) ->
  is_double j = true -> 0 <= j <= 1 ->
  is_double r = true -> 0 <= r < 1 ->
  exists J p z,
    mul (Fin c) (Fin j) = Fin J /\
    inject_Z (Qfloor (c * j)) <= J <= inject_Z (Qceiling (c * j)) /\
    jitterValue (Fin c) (Fin j) (Fin r) = Fin p /\
    - J <= p <= J /\
    perturbed (Fin c) (Fin j) (Fin r) = Fin (inject_Z z) /\
    (Z.max 0 (Qfloor c - Qceiling (c * j)) <= z
       <= Qceiling c + Qceiling (c * j))%Z.
Proof.
  intros Hc [Hc0 Hc1] Hj [Hj0 Hj1] Hr [Hr0 Hr1].
  set (C := Qceiling (c * j)).
  assert (Hcj0 : 0 <= c * j) by (apply Qmult_le_0_compat; assumption).
  assert (Hcj1 : c * j <= c) by nra.
  assert (HC0 : (0 <= C)%Z).
  { unfold C. change 0%Z with (Qceiling (inject_Z 0)).
    apply Qceiling_resp_le. exact Hcj0. }
  assert (HC1 : (C <= 2 ^ 52)%Z).
  { unfold C. rewrite <- (Qceiling_Z (2 ^ 52)).
    apply Qceiling_resp_le. lra. }
  assert (HF0 : (0 <= Qfloor (c * j))%Z).
  { change 0%Z with (Qfloor (inject_Z 0)). apply Qfloor_resp_le. exact Hcj0. }
  assert (HF1 : (Qfloor (c * j) <= 2 ^ 52)%Z).
  { rewrite <- (Qfloor_Z (2 ^ 52)). apply Qfloor_resp_le. lra. }
  assert (HFq0 : 0 <= inject_Z (Qfloor (c * j)))
    by (change 0 with (inject_Z 0); rewrite <- Zle_Qle; exact HF0).
  assert (HCq : c * j <= inject_Z C) by apply Qle_ceiling.
  assert (HCd : is_double (inject_Z C) = true) by (apply is_double_Z; lia).
  assert (HCq1 : inject_Z C <= inject_Z (2 ^ 52)) by (rewrite <- Zle_Qle; exact HC1).
  assert (Hf0 : (0 <= Qfloor c)%Z).
  { change 0%Z with (Qfloor (inject_Z 0)). apply Qfloor_resp_le. exact Hc0. }
  assert (Hf1 : (Qfloor c <= 2 ^ 52)%Z).
  { rewrite <- (Qfloor_Z (2 ^ 52)). apply Qfloor_resp_le. exact Hc1. }
  assert (Hg0 : (0 <= Qceiling c)%Z).
  { change 0%Z with (Qceiling (inject_Z 0)). apply Qceiling_resp_le. exact Hc0. }
  assert (Hg1 : (Qceiling c <= 2 ^ 52)%Z).
  { rewrite <- (Qceiling_Z (2 ^ 52)). apply Qceiling_resp_le. exact Hc1. }
  pose proof (Qfloor_le c) as Hfc. pose proof (Qle_ceiling c) as Hgc.
  unfold perturbed, jitterValue.
  destruct (mul_between c j (inject_Z (Qfloor (c * j))) (inject_Z C))
    as (J & -> & [HJ0 HJ1] & HJd);
    [apply is_double_Z; lia | exact HCd
    | split; [apply Qfloor_le | exact HCq] |].
  exists J.
  destruct (mul_between r J 0 J) as (t1 & -> & [Ht0 Ht1] & Htd);
    [reflexivity | exact HJd
    | split; [apply Qmult_le_0_compat; lra | nra] |].
  assert (HJ2 : is_double (J * 2) = true)
    by (apply is_double_twice; [exact HJd | split; lra]).
  destruct (mul_between t1 2 0 (J * 2)) as (t2 & -> & [Hu0 Hu1] & Hud);
    [reflexivity | exact HJ2 | split; lra |].
  destruct (sub_between t2 J (- J) J) as (rj & -> & [Hv0 Hv1] & Hvd);
    [apply is_double_opp; exact HJd | exact HJd | split; lra |].
  exists rj.
  destruct (add_between c rj (inject_Z (Qfloor c - C)) (inject_Z (Qceiling c + C)))
    as (s & -> & [Hs0 Hs1] & Hsd).
  { apply is_double_Z. lia. }
  { apply is_double_Z. lia. }
  { unfold Z.sub. rewrite !inject_Z_plus, inject_Z_opp. split; lra. }
  cbn [Math_max].
  destruct (Qle_bool 0 s) eqn:E; cbn [Math_floor].
  - exists (Qfloor s).
    split; [reflexivity|]. split; [split; assumption|].
    split; [reflexivity|]. split; [split; assumption|].
    split; [reflexivity|].
    apply Qle_bool_iff in E.
    assert (0 <= Qfloor s)%Z
      by (change 0%Z with (Qfloor (inject_Z 0)); apply Qfloor_resp_le; exact E).
    assert (Qfloor c - C <= Qfloor s)%Z
      by (rewrite <- (Qfloor_Z (Qfloor c - C)); apply Qfloor_resp_le; exact Hs0).
    assert (Qfloor s <= Qceiling c + C)%Z
      by (rewrite <- (Qfloor_Z (Qceiling c + C)); apply Qfloor_resp_le; exact Hs1).
    lia.
  - exists 0%Z.
    split; [reflexivity|]. split; [split; assumption|].
    split; [reflexivity|]. split; [split; assumption|].
    split; [reflexivity|].
    assert (Hneg : s < 0).
    { apply Qnot_le_lt. intros H. apply Qle_bool_iff in H. congruence. }
    assert (Qfloor c - C < 0)%Z; [|lia].
    rewrite Zlt_Qlt. change (inject_Z 0) with 0. lra.
Qed.

Lemma Math_min_Fin a b :
  exists v, Math_min (Fin a) (Fin b) = Fin v /\ v == Qmin a b /\
            (v = a \/ v = b).
Proof.
  cbn [Math_min]. destruct (Qle_bool a b) eqn:E.
  - apply Qle_bool_iff in E. exists a. split; [reflexivity|].
    split; [symmetry; apply Q.min_l; exact E | left; reflexivity].
  - exists b. split; [reflexivity|].
    split; [|right; reflexivity].
    symmetry. apply Q.min_r. apply Qlt_le_weak, Qnot_le_lt.
    intros H. apply Qle_bool_iff in H. congruence.
Qed.

(** The capped delay: exact below attempt 1024, [maxDelay] from there on
    (where [Math.pow] overflows) unless [baseDelay] is zero. *)
Lemma capped_spec o n :
  nonnegative (baseDelay o) ->
  between 0 (inject_Z (2 ^ 52)) (maxDelay o) ->
  0 < value (baseDelay o) \/ (n < 1024)%nat ->
  exists delay,
    capped o n = Fin delay /\ is_double delay = true /\
    0 <= delay <= value (maxDelay o) /\
    ((n < 1024)%nat ->
     delay == Qmin (value (baseDelay o) * inject_Z (2 ^ Z.of_nat n))
                   (value (maxDelay o))) /\
    ((1024 <= n)%nat -> delay == value (maxDelay o)).
Proof.
  unfold capped, Math_pow2.
  destruct (baseDelay o) as [| | |bd]; try contradiction.
  destruct (maxDelay o) as [| | |md]; try contradiction.
  cbn [nonnegative between value]. intros [Hbd Hb0] (Hmd & Hm0 & Hm1) Hor.
  assert (Hmlt : md < pow2 1024).
  { eapply Qle_lt_trans; [exact Hm1|].
    eapply Qle_lt_trans; [|apply pow2_53_lt_1024].
    rewrite <- Zle_Qle. lia. }
  destruct (n <? 1024)%nat eqn:En.
  - apply Nat.ltb_lt in En. cbn [mul].
    set (P := bd * inject_Z (2 ^ Z.of_nat n)).
    assert (HP0 : 0 <= P).
    { apply Qmult_le_0_compat; [exact Hb0|].
      change 0 with (inject_Z 0). rewrite <- Zle_Qle. apply Z.pow_nonneg. lia. }
    destruct (Qlt_le_dec P (pow2 1024)) as [Hlt|Hge].
    + assert (HPd : is_double P = true).
      { destruct (Qlt_le_dec 0 bd) as [Hb|Hb].
        - unfold P.
          rewrite (is_double_comp _ (bd * pow2 (Z.of_nat n)))
            by (rewrite pow2_Z by lia; reflexivity).
          apply is_double_scale; [exact Hbd | exact Hb | lia |].
          rewrite pow2_Z by lia. exact Hlt.
        - apply is_double_zero. unfold P.
          assert (bd == 0) by lra. rewrite H. ring. }
      rewrite (is_double_round P HPd).
      destruct (Math_min_Fin (Qred P) md) as (v & -> & Ev & Hv).
      exists v. split; [reflexivity|].
      rewrite Qred_correct in Ev.
      split; [destruct Hv as [->| ->];
              [rewrite (is_double_comp _ _ (Qred_correct P)); exact HPd
              | exact Hmd]|].
      split; [rewrite Ev; split;
              [apply Q.min_glb; assumption | apply Q.le_min_r]|].
      split; [intros _; exact Ev | intros; lia].
    + rewrite (round_overflows P Hge). cbn [Math_min].
      exists md. split; [reflexivity|]. split; [exact Hmd|].
      split; [split; [exact Hm0 | apply Qle_refl]|].
      split; [|intros _; reflexivity].
      intros _. symmetry. apply Q.min_r. lra.
  - apply Nat.ltb_ge in En.
    destruct Hor as [Hb|Hn]; [|lia].
    cbn [mul]. rewrite (Qcompare_Gt bd Hb). cbn [Math_min].
    exists md. split; [reflexivity|]. split; [exact Hmd|].
    split; [split; [exact Hm0 | apply Qle_refl]|].
    split; [intros; lia | intros _; reflexivity].
Qed.

(** With [baseDelay] zero, from attempt 1024 on the delay is [NaN]:
    [Math.pow(2, n)] is [Infinity] and [0 * Infinity] is [NaN]. *)
Lemma capped_NaN o n :
  nonnegative (baseDelay o) -> value (baseDelay o) == 0 -> (1024 <= n)%nat ->
  capped o n = NaN.
Proof.
  unfold capped, Math_pow2.
  destruct (baseDelay o) as [| | |bd]; try contradiction.
  cbn [nonnegative value]. intros _ Hb Hn.
  assert (E : (n <? 1024)%nat = false) by (apply Nat.ltb_ge; exact Hn).
  rewrite E. cbn [mul]. rewrite (Qcompare_Eq bd Hb). reflexivity.
Qed.

Lemma perturbed_NaN j r : perturbed NaN j r = NaN.
Proof. reflexivity. Qed.


Lemma next_not_exhausted r b :
  hasReachedMaxAttempts b = false ->
  next r b = (mkBackoff (S (attempt b)) (options b),
              inr (delay_at (options b) r (attempt b))).
Proof.
  unfold hasReachedMaxAttempts, next, delay_at, perturbed, capped.
  intros ->. reflexivity.
Qed.

Lemma next_exhausted r b :
  hasReachedMaxAttempts b = true ->
  next r b = (b, inl "Maximum reconnection attempts reached"%string).
Proof.
  unfold hasReachedMaxAttempts, next. intros ->. reflexivity.
Qed.

(** The delay of attempt [n]: the capped delay, perturbed by a value
    within the jitter range, and made a whole number. *)
Lemma delay_at_spec o r n :
  drawn r ->
  between 0 1 (jitter o) ->
  nonnegative (baseDelay o) ->
  between 0 (inject_Z (2 ^ 52)) (maxDelay o) ->
  0 < value (baseDelay o) \/ (n < 1024)%nat ->
  exists delay J p z,
    capped o n = Fin delay /\
    ((n < 1024)%nat ->
     delay == Qmin (value (baseDelay o) * inject_Z (2 ^ Z.of_nat n))
                   (value (maxDelay o))) /\
    ((1024 <= n)%nat -> delay == value (maxDelay o)) /\
    mul (capped o n) (jitter o) = Fin J /\
    inject_Z (Qfloor (delay * value (jitter o))) <= J
      <= inject_Z (Qceiling (delay * value (jitter o))) /\
    jitterValue (capped o n) (jitter o) r = Fin p /\
    - J <= p <= J /\
    delay_at o r n = Fin (inject_Z z) /\
    (Z.max 0 (Qfloor delay - Qceiling (delay * value (jitter o))) <= z
       <= Qceiling delay + Qceiling (delay * value (jitter o)))%Z /\
    (0 <= z <= delay_bound o)%Z.
Proof.
  intros Hr Hj Hb Hm Hor.
  destruct (capped_spec o n Hb Hm Hor) as (delay & Ec & Hd & [Hd0 Hd1] & Hx1 & Hx2).
  unfold delay_at, delay_bound. rewrite Ec.
  destruct r as [| | |rv]; try contradiction.
  destruct (jitter o) as [| | |jv]; try contradiction.
  destruct (maxDelay o) as [| | |md]; try contradiction.
  cbn [drawn between value] in *.
  destruct Hr as [Hrd Hr], Hj as (Hjd & Hj0 & Hj1), Hm as (_ & Hm0 & Hm1).
  destruct (perturbed_bounds delay jv rv)
    as (J & p & z & EJ & HJ & Ep & Hp & Ez & Hz1 & Hz2);
    try assumption; [split; [exact Hd0 | lra] | split; assumption |].
  exists delay, J, p, z.
  assert (Qceiling delay <= Qceiling md)%Z by (apply Qceiling_resp_le; exact Hd1).
  assert (Qceiling (delay * jv) <= Qceiling (md * jv))%Z.
  { apply Qceiling_resp_le. apply Qmult_le_compat_r; assumption. }
  split; [reflexivity|]. split; [exact Hx1|]. split; [exact Hx2|].
  split; [exact EJ|]. split; [exact HJ|]. split; [exact Ep|].
  split; [exact Hp|]. split; [exact Ez|]. split; [split; assumption|].
  lia.
Qed.

(** C3 (as amended).  For finite doubles with [baseDelay >= 0],
    [0 <= maxDelay <= 2^52] and a jitter in [[0, 1]], and a drawn value in
    [[0, 1)], a call of [next()] that does not signal exhaustion at attempt
    [n] increments the counter.  Unless [baseDelay] is zero and [n] is 1024
    or more, the capped delay is [min(baseDelay * 2^n, maxDelay)] (exactly
    that below attempt 1024, and [maxDelay] from there on, where
    [Math.pow(2, n)] is [Infinity]); the jitter range [J] is
    [delay * jitter] rounded to a double, the jitter value [p] lies in
    [[-J, +J]], and what is returned is [delay + p], rounded to a double,
    floored at zero and rounded down: a whole number between
    [floor(delay) - ceil(delay * jitter)] (or [0], if that is negative) and
    [ceil(delay) + ceil(delay * jitter)], hence between [0] and
    [ceil(maxDelay) + ceil(maxDelay * jitter)].  With [baseDelay] zero,
    from attempt 1024 on [next()] returns [NaN]. *)
Theorem next_returns_rounded_jittered_delay r b :
  drawn r ->
  between 0 1 (jitter (options b)) ->
  nonnegative (baseDelay (options b)) ->
  between 0 (inject_Z (2 ^ 52)) (maxDelay (options b)) ->
  hasReachedMaxAttempts b = false ->
  fst (next r b) = mkBackoff (S (attempt b)) (options b) /\
  (0 < value (baseDelay (options b)) \/ (attempt b < 1024)%nat ->
   exists delay J p z,
     capped (options b) (attempt b) = Fin delay /\
     ((attempt b < 1024)%nat ->
      delay == Qmin (value (baseDelay (options b))
                     * inject_Z (2 ^ Z.of_nat (attempt b)))
                    (value (maxDelay (options b)))) /\
     ((1024 <= attempt b)%nat -> delay == value (maxDelay (options b))) /\
     mul (Fin delay) (jitter (options b)) = Fin J /\
     inject_Z (Qfloor (delay * value (jitter (options b)))) <= J
       <= inject_Z (Qceiling (delay * value (jitter (options b)))) /\
     - J <= p <= J /\
     snd (next r b)
       = inr (Math_floor (Math_max (Fin 0) (add (Fin delay) (Fin p)))) /\
     snd (next r b) = inr (Fin (inject_Z z)) /\
     (Z.max 0 (Qfloor delay - Qceiling (delay * value (jitter (options b))))
        <= z
        <= Qceiling delay + Qceiling (delay * value (jitter (options b))))%Z /\
     (0 <= z <= delay_bound (options b))%Z) /\
  (value (baseDelay (options b)) == 0 -> (1024 <= attempt b)%nat ->
   snd (next r b) = inr NaN).
Proof.
  intros Hr Hj Hb Hm Hn. rewrite next_not_exhausted by exact Hn.
  cbn [fst snd]. split; [reflexivity|]. split.
  - intros Hor.
    destruct (delay_at_spec (options b) r (attempt b) Hr Hj Hb Hm Hor)
      as (delay & J & p & z & H1 & H2 & H3 & HJ & HJb & Hp & Hpb & H4 & H5 & H6).
    exists delay, J, p, z. rewrite H1 in HJ, Hp.
    split; [exact H1|]. split; [exact H2|]. split; [exact H3|].
    split; [exact HJ|]. split; [exact HJb|]. split; [exact Hpb|].
    split; [unfold delay_at, perturbed; rewrite H1, Hp; reflexivity|].
    split; [rewrite H4; reflexivity|]. split; [exact H5 | exact H6].
  - intros H0 H1024. unfold delay_at.
    rewrite (capped_NaN _ _ Hb H0 H1024). reflexivity.
Qed.

(** Calls of [next()] in a row that stay below the bound all return, and
    count. *)
Lemma next_all_returns o rs : forall n,
  (forall k, (n <= k < n + length rs)%nat ->
             hasReachedMaxAttempts (mkBackoff k o) = false) ->
  fst (next_all rs (mkBackoff n o)) = mkBackoff (n + length rs) o /\
  Forall (fun x => returned x = true) (snd (next_all rs (mkBackoff n o))) /\
  length (snd (next_all rs (mkBackoff n o))) = length rs.
Proof.
  induction rs as [|r rs IH]; intros n Hk.
  - cbn. rewrite Nat.add_0_r. auto.
  - cbn [next_all].
    rewrite next_not_exhausted by (apply Hk; cbn; lia).
    cbn [attempt options].
    destruct (IH (S n)) as (IH1 & IH2 & IH3).
    { intros k Hlt. apply Hk. cbn. lia. }
    destruct (next_all rs (mkBackoff (S n) o)) as [b2 xs].
    cbn [fst snd length] in *. rewrite IH1, IH3. repeat split.
    + f_equal. lia.
    + constructor; [reflexivity | exact IH2].
Qed.

Lemma reached_iff o (k : nat) :
  hasReachedMaxAttempts (mkBackoff k o) = true <->
  (0 < maxAttempts o /\ maxAttempts o <= Z.of_nat k)%Z.
Proof.
  unfold hasReachedMaxAttempts. cbn [attempt options].
  rewrite andb_true_iff, Z.ltb_lt, Z.leb_le. reflexivity.
Qed.

Lemma not_reached_below o (k : nat) :
  (Z.of_nat k < maxAttempts o)%Z ->
  hasReachedMaxAttempts (mkBackoff k o) = false.
Proof.
  intros H. apply not_true_is_false. rewrite reached_iff. lia.
Qed.

Lemma not_reached_unbounded o (k : nat) :
  (maxAttempts o <= 0)%Z ->
  hasReachedMaxAttempts (mkBackoff k o) = false.
Proof.
  intros H. apply not_true_is_false. rewrite reached_iff. lia.
Qed.

(** C4.  With [maxAttempts = m > 0], the first [m] calls of [next()] on a
    fresh object return and the call after them throws (and leaves the
    object as it is); with [maxAttempts = 0] every call returns, however
    many were made before; [reset()] puts the counter back to zero, so the
    object is the fresh one again and its next call returns. *)
Theorem next_throws_after_maxAttempts o :
  ((0 < maxAttempts o)%Z ->
   forall rs r, length rs = Z.to_nat (maxAttempts o) ->
     let b := fst (next_all rs (mkBackoff 0 o)) in
     Forall (fun x => returned x = true) (snd (next_all rs (mkBackoff 0 o))) /\
     length (snd (next_all rs (mkBackoff 0 o))) = length rs /\
     attempt b = length rs /\
     next r b = (b, inl "Maximum reconnection attempts reached"%string)) /\
  (maxAttempts o = 0%Z ->
   forall rs n,
     Forall (fun x => returned x = true) (snd (next_all rs (mkBackoff n o))) /\
     length (snd (next_all rs (mkBackoff n o))) = length rs) /\
  (forall n r,
     reset (mkBackoff n o) = mkBackoff 0 o /\
     attempt (reset (mkBackoff n o)) = 0%nat /\
     next r (reset (mkBackoff n o)) = next r (mkBackoff 0 o) /\
     returned (snd (next r (reset (mkBackoff n o)))) = true /\
     fst (next r (reset (mkBackoff n o))) = mkBackoff 1 o).
Proof.
  split; [|split].
  - intros Hm rs r Hlen b.
    destruct (next_all_returns o rs 0) as (H1 & H2 & H3).
    { intros k Hk. apply not_reached_below. lia. }
    subst b. rewrite H1. cbn [Nat.add attempt].
    repeat split; try assumption.
    apply next_exhausted. apply reached_iff. lia.
  - intros Hm rs n.
    destruct (next_all_returns o rs n) as (H1 & H2 & H3).
    { intros k Hk. apply not_reached_unbounded. lia. }
    split; assumption.
  - intros n r. unfold reset. cbn [options attempt].
    assert (Hn : hasReachedMaxAttempts (mkBackoff 0 o) = false).
    { apply not_true_is_false. rewrite reached_iff. cbn. lia. }
    rewrite next_not_exhausted by exact Hn. cbn [fst snd returned attempt options].
    repeat split; reflexivity.
Qed.

(** ** [withBackoff] *)

Section WithBackoff.

Context {T : Type}.
Variable fn : nat -> Thrown + T.
Variable rnd : nat -> double.
Variable o : BackoffOptions.
Variable m : nat.
Hypothesis maxAttempts_m : maxAttempts o = Z.of_nat m.
Hypothesis m_positive : (0 < m)%nat.

(** The loop reaches the first invocation that succeeds. *)
Lemma loop_reaches_success (d : nat) : forall i fuel lastError slept k v,
  k = (i + d)%nat -> (k < m)%nat -> (d < fuel)%nat ->
  fn k = inr v ->
  (forall j, (i <= j < k)%nat -> failed (fn j)) ->
  let run := withBackoff_loop fuel fn rnd i (mkBackoff i o) lastError slept in
  w_outcome run = Some (inr v) /\ w_invocations run = S k.
Proof.
  induction d as [|d IH]; intros i fuel lastError slept k v Hk Hkm Hfuel Hv Hf;
    (destruct fuel as [|fuel]; [lia|]); cbn [withBackoff_loop].
  - rewrite Nat.add_0_r in Hk. subst k.
    rewrite not_reached_below by lia. rewrite Hv. split; reflexivity.
  - rewrite not_reached_below by lia.
    specialize (Hf i ltac:(lia)) as Hfi.
    destruct (fn i) as [error|v0]; [|contradiction].
    rewrite next_not_exhausted by (apply not_reached_below; lia).
    cbn [attempt options].
    apply (IH (S i)); try assumption; try lia.
    intros j Hj. apply Hf. lia.
Qed.

(** When every invocation fails, the loop stops after [m] of them with
    the error of the last one. *)
Lemma loop_all_failed (d : nat) : forall i fuel lastError slept,
  (i + d)%nat = m -> (d < fuel)%nat ->
  (forall j, (i <= j < m)%nat -> failed (fn j)) ->
  let run := withBackoff_loop fuel fn rnd i (mkBackoff i o) lastError slept in
  w_invocations run = m /\
  exists e, w_outcome run = Some (inl e) /\
    (d = 0%nat ->
     e = default (new_Error "Backoff failed with unknown error") lastError) /\
    (forall th, (0 < d)%nat -> fn (m - 1)%nat = inl th -> e = toError th).
Proof.
  induction d as [|d IH]; intros i fuel lastError slept Hd Hfuel Hf;
    (destruct fuel as [|fuel]; [lia|]); cbn [withBackoff_loop].
  - rewrite Nat.add_0_r in Hd. subst i.
    assert (Hr : hasReachedMaxAttempts (mkBackoff m o) = true)
      by (apply reached_iff; lia).
    rewrite Hr. split; [reflexivity|]. eexists. split; [reflexivity|].
    split; [reflexivity | intros; lia].
  - rewrite not_reached_below by lia.
    specialize (Hf i ltac:(lia)) as Hfi.
    destruct (fn i) as [error|v0] eqn:Efn; [|contradiction].
    rewrite next_not_exhausted by (apply not_reached_below; lia).
    cbn [attempt options].
    destruct (IH (S i) fuel (Some (toError error))
                (slept ++ [delay_at o (rnd i) i])%list)
      as (Hinv & e & He & H0 & Hpos); try lia.
    { intros j Hj. apply Hf. lia. }
    split; [exact Hinv|]. exists e. split; [exact He|].
    split; [intros; lia|].
    intros th _ Hth. destruct d as [|d].
    + rewrite (H0 eq_refl). cbn.
      replace (m - 1)%nat with i in Hth by lia. congruence.
    + apply Hpos; [lia | exact Hth].
Qed.

End WithBackoff.

(** Among the first [n] invocations one succeeds first, or all fail. *)
Lemma first_success_or_all_failed {T} (fn : nat -> Thrown + T) (n : nat) :
  (exists k v, (k < n)%nat /\ fn k = inr v /\
               forall j, (j < k)%nat -> failed (fn j)) \/
  (forall j, (j < n)%nat -> failed (fn j)).
Proof.
  induction n as [|n [(k & v & Hk & Hv & Hf)|Hall]].
  - right. intros j Hj. lia.
  - left. exists k, v. repeat split; try assumption. lia.
  - destruct (fn n) as [error|v] eqn:E.
    + right. intros j Hj. destruct (decide (j = n)) as [->|Hne].
      * rewrite E. exact I.
      * apply Hall. lia.
    + left. exists n, v. repeat split; try assumption. lia.
Qed.

(** C9 (as amended).  With [maxAttempts = m > 0] and enough fuel for the
    loop ([m < fuel]), [withBackoff] ends, after at most [m] invocations
    of [fn]; it returns the result of the first invocation that succeeds.
    When all [m] invocations fail, it throws the error the last one raised
    if that is an [Error]; if the last one raised any other value, it
    throws not that value but a new [Error] whose message is the
    [String(_)] image of the value. *)
Theorem withBackoff_invokes_at_most_maxAttempts
    {T : Type} (fn : nat -> Thrown + T) (rnd : nat -> double)
    (po : PartialBackoffOptions) (m fuel : nat) :
  opt_maxAttempts po = Some (Z.of_nat m) ->
  (0 < m)%nat ->
  (m < fuel)%nat ->
  let run := withBackoff fuel fn rnd po in
  (w_invocations run <= m)%nat /\
  (exists result, w_outcome run = Some result) /\
  (forall k v,
     (k < m)%nat -> fn k = inr v ->
     (forall j, (j < k)%nat -> failed (fn j)) ->
     w_outcome run = Some (inr v) /\ w_invocations run = S k) /\
  ((forall j, (j < m)%nat -> failed (fn j)) ->
   w_invocations run = m /\
   (forall e, fn (m - 1)%nat = inl (Thrown_Error e) ->
      w_outcome run = Some (inl e)) /\
   (forall printed, fn (m - 1)%nat = inl (Thrown_value printed) ->
      w_outcome run = Some (inl (mkJsError "Error" printed)))).
Proof.
  intros Hpo Hm Hfuel run. subst run. unfold withBackoff, new.
  rewrite Hpo. cbn [default].
  set (o := mkOptions _ _ _ _).
  assert (Ho : maxAttempts o = Z.of_nat m) by reflexivity.
  assert (Hsucc : forall k v,
     (k < m)%nat -> fn k = inr v ->
     (forall j, (j < k)%nat -> failed (fn j)) ->
     let run := withBackoff_loop fuel fn rnd 0 (mkBackoff 0 o) None [] in
     w_outcome run = Some (inr v) /\ w_invocations run = S k).
  { intros k v Hk Hv Hf.
    apply (loop_reaches_success fn rnd o m Ho Hm k); try assumption; try lia.
    intros j Hj. apply Hf. lia. }
  assert (Hfail : (forall j, (j < m)%nat -> failed (fn j)) ->
     let run := withBackoff_loop fuel fn rnd 0 (mkBackoff 0 o) None [] in
     w_invocations run = m /\
     forall th, fn (m - 1)%nat = inl th ->
       w_outcome run = Some (inl (toError th))).
  { intros Hf.
    destruct (loop_all_failed fn rnd o m Ho Hm m 0 fuel None [])
      as (Hinv & e & He & _ & Hpos); try lia.
    { intros j Hj. apply Hf. lia. }
    split; [exact Hinv|]. intros th Hth.
    cbv zeta in He. rewrite He, (Hpos th Hm Hth). reflexivity. }
  cbv zeta in Hsucc, Hfail.
  assert (Hlastpart : (forall j, (j < m)%nat -> failed (fn j)) ->
     w_invocations (withBackoff_loop fuel fn rnd 0 (mkBackoff 0 o) None []) = m /\
     (forall e, fn (m - 1)%nat = inl (Thrown_Error e) ->
        w_outcome (withBackoff_loop fuel fn rnd 0 (mkBackoff 0 o) None [])
          = Some (inl e)) /\
     (forall printed, fn (m - 1)%nat = inl (Thrown_value printed) ->
        w_outcome (withBackoff_loop fuel fn rnd 0 (mkBackoff 0 o) None [])
          = Some (inl (mkJsError "Error" printed)))).
  { intros Hall. destruct (Hfail Hall) as [Hinv Hout].
    split; [exact Hinv|].
    split; [intros e He | intros printed He]; exact (Hout _ He). }
  destruct (first_success_or_all_failed fn m)
    as [(k & v & Hk & Hv & Hf)|Hall].
  - destruct (Hsucc k v Hk Hv Hf) as [Hout Hinv].
    split; [rewrite Hinv; lia|].
    split; [eexists; exact Hout|].
    split; [exact Hsucc | exact Hlastpart].
  - destruct (Hfail Hall) as [Hinv Hout].
    assert (Hlast : failed (fn (m - 1)%nat)) by (apply Hall; lia).
    destruct (fn (m - 1)%nat) as [th|v] eqn:E; [|contradiction].
    split; [rewrite Hinv; lia|].
    split; [eexists; exact (Hout th eq_refl)|].
    split; [exact Hsucc | exact Hlastpart].
Qed.

End BackoffFacts.

(** ** Concrete runs of the backoff policy *)

Section BackoffRuns.

Import Double Backoff.

Local Open Scope Q_scope.

(** The literals are what rounding makes of them. *)
Example literals_are_rounded :
  default_jitter = round 0.2 /\ jitter_015 = round 0.15 /\
  jitter_01 = round 0.1 /\
  Fin 1000 = round 1000 /\ Fin 60000 = round 60000 /\
  almost_one = round (1 - pow2 (-53)).
Proof. repeat split; vm_compute; reflexivity. Qed.

(** Rounding at work: [0.1 + 0.2] is not [0.3], the largest finite double
    doubled is [Infinity], half the smallest positive double is [0], and
    [2^53 + 1] is [2^53]. *)
Example rounding_at_work :
  add jitter_01 default_jitter
    = Fin (1351079888211149 # 4503599627370496) /\
  add jitter_01 default_jitter <> round 0.3 /\
  mul (round (pow2 1024 - pow2 971)) (Fin 2) = PosInf /\
  mul (round (pow2 (-1074))) (Fin (1#2)) = Fin 0 /\
  add (round (pow2 53)) (Fin 1) = round (pow2 53).
Proof. repeat split; vm_compute; reflexivity || discriminate. Qed.

(** C3 (counterexample).  With [baseDelay = 1], [jitter = 1/2] and the
    drawn value [1/4] (all of them doubles, and every operation exact),
    the first call of [next()] returns [0]: the capped delay is [1], the
    perturbed delay [3/4], and [Math.floor] takes it to [0], which no
    perturbation within [[-1/2, +1/2]] of the capped delay [1], floored at
    zero, gives. *)
Lemma next_rounds_below_the_jitter_range :
  next (Fin (1#4)) half_jitter
    = (mkBackoff 1 (options half_jitter), inr (Fin 0)) /\
  capped (options half_jitter) 0 = Fin 1 /\
  jitter (options half_jitter) = Fin (1#2) /\
  (forall p,
     - (value (jitter (options half_jitter))
        * value (capped (options half_jitter) 0)) <= p
       <= value (jitter (options half_jitter))
          * value (capped (options half_jitter) 0) ->
     ~ 0 == Qmax 0 (value (capped (options half_jitter) 0) + p)).
Proof.
  assert (Hc : capped (options half_jitter) 0 = Fin 1)
    by (vm_compute; reflexivity).
  split; [vm_compute; reflexivity|]. split; [exact Hc|].
  split; [reflexivity|].
  intros p. rewrite Hc. cbn [value half_jitter options jitter].
  intros [Hlo Hhi] Heq.
  destruct (Q.max_spec 0 (1 + p)) as [[_ H]|[H _]].
  - rewrite H in Heq. lra.
  - lra.
Qed.

(** The rounding of the operations takes the delay above
    [maxDelay * (1 + jitter)]: with [maxDelay = 100], [jitter = 0.15] and
    the largest value [Math.random()] can return, [next()] returns 115,
    while [0.15] is a double below 3/20. *)
Example next_exceeds_the_exact_bound :
  snd (next almost_one capped_at_100) = inr (Fin 115) /\
  value (maxDelay (options capped_at_100))
    * (1 + value (jitter (options capped_at_100))) < 115 /\
  (115 <= delay_bound (options capped_at_100))%Z.
Proof. repeat split; vm_compute; reflexivity || discriminate. Qed.

(** The rounding of a sum takes the delay to the next whole number: with
    [baseDelay = 10], [jitter = 0.1] and the largest value [Math.random()]
    can return, the jitter is [1 - 2^-52], the sum [11 - 2^-52] is not a
    double and is rounded to [11]; in exact arithmetic [Math.floor] would
    give [10]. *)
Example next_rounds_up_to_a_whole_number :
  snd (next almost_one ten_ms) = inr (Fin 11) /\
  sub (mul (mul almost_one (Fin 1)) (Fin 2)) (Fin 1)
    = Fin (4503599627370495 # 4503599627370496) /\
  Qfloor (10 + (4503599627370495 # 4503599627370496)) = 10%Z.
Proof. repeat split; vm_compute; reflexivity. Qed.

(** With [baseDelay = 0], the attempt after 1024 returned ones returns
    [NaN]; the one before returns [0]. *)
Example next_returns_NaN :
  snd (next (Fin (1#2)) (mkBackoff 1023 no_delay)) = inr (Fin 0) /\
  snd (next (Fin (1#2)) (mkBackoff 1024 no_delay)) = inr NaN.
Proof. split; vm_compute; reflexivity. Qed.

(** An instance of C3: the default policy, first attempt, drawn value [1/4]. *)
Lemma next_returns_rounded_jittered_delay_witness :
  drawn (Fin (1#4)) /\
  between 0 1 (jitter (options (new (mkPartial None None None None)))) /\
  snd (next (Fin (1#4)) (new (mkPartial None None None None)))
    = inr (Fin 900) /\
  exists delay z,
    capped (options (new (mkPartial None None None None))) 0 = Fin delay /\
    snd (next (Fin (1#4)) (new (mkPartial None None None None)))
      = inr (Fin (inject_Z z)) /\
    (0 <= z <= delay_bound (options (new (mkPartial None None None None))))%Z.
Proof.
  assert (Hr : drawn (Fin (1#4)))
    by (split; [reflexivity | split; [discriminate | reflexivity]]).
  assert (Hj : between 0 1
                 (jitter (options (new (mkPartial None None None None)))))
    by (split; [reflexivity | split; discriminate]).
  split; [exact Hr|]. split; [exact Hj|].
  split; [vm_compute; reflexivity|].
  destruct (proj1 (proj2 (next_returns_rounded_jittered_delay (Fin (1#4))
              (new (mkPartial None None None None)) Hr Hj
              ltac:(split; [reflexivity | discriminate])
              ltac:(split; [reflexivity | split; discriminate])
              eq_refl)) ltac:(left; reflexivity))
    as (delay & J & p & z & H1 & _ & _ & _ & _ & _ & _ & H4 & _ & H6).
  exists delay, z. auto.
Defined.

(** Why the delays are taken non-negative in C3: with a negative
    [maxDelay] the returned delay [0] is above [maxDelay * (1 + jitter)]. *)
Example next_with_a_negative_maxDelay :
  next (Fin (1#4)) negative_cap
    = (mkBackoff 1 (options negative_cap), inr (Fin 0)) /\
  value (maxDelay (options negative_cap))
    * (1 + value (jitter (options negative_cap))) < 0.
Proof. split; vm_compute; reflexivity. Qed.

(** The default policy with the smallest drawn value: 800 ms, then
    1600 ms. *)
Example default_policy_first_delays :
  snd (next_all [Fin 0; Fin 0] (new (mkPartial None None None None)))
  = [inr (Fin 800); inr (Fin 1600)].
Proof. vm_compute. reflexivity. Qed.

(** An instance of C4: three attempts allowed, the fourth call throws. *)
Lemma next_throws_after_maxAttempts_witness :
  (0 < maxAttempts three_attempts)%Z /\
  length [Fin 0; Fin (1#2); Fin (1#4)]
    = Z.to_nat (maxAttempts three_attempts) /\
  Forall (fun x => returned x = true)
    (snd (next_all [Fin 0; Fin (1#2); Fin (1#4)]
            (mkBackoff 0 three_attempts))) /\
  snd (next (Fin (1#2))
         (fst (next_all [Fin 0; Fin (1#2); Fin (1#4)]
                 (mkBackoff 0 three_attempts))))
  = inl "Maximum reconnection attempts reached"%string.
Proof.
  assert (Hm : (0 < maxAttempts three_attempts)%Z) by reflexivity.
  assert (Hl : length [Fin 0; Fin (1#2); Fin (1#4)]
               = Z.to_nat (maxAttempts three_attempts))
    by reflexivity.
  split; [exact Hm|]. split; [exact Hl|].
  destruct (proj1 (next_throws_after_maxAttempts three_attempts) Hm
              [Fin 0; Fin (1#2); Fin (1#4)] (Fin (1#2)) Hl)
    as (H1 & _ & _ & H4).
  split; [exact H1|]. rewrite H4. reflexivity.
Defined.

(** [withBackoff] on a function that fails twice and then succeeds, and on
    one that always fails, three attempts allowed. *)
Example withBackoff_flaky :
  let run := withBackoff 10 flaky (fun _ => Fin (1#2))
               (mkPartial None None (Some 3%Z) None) in
  w_invocations run = 3%nat /\
  w_outcome run = Some (inr "done"%string) /\
  w_slept run = [Fin 1000; Fin 2000].
Proof. vm_compute. auto. Qed.

Example withBackoff_always_failing :
  let run := withBackoff 10 always_failing (fun _ => Fin (1#2))
               (mkPartial None None (Some 3%Z) None) in
  w_invocations run = 3%nat /\
  w_outcome run = Some (inl (new_Error "2")) /\
  w_slept run = [Fin 1000; Fin 2000; Fin 4000].
Proof. vm_compute. auto. Qed.

(** C9 (counterexample).  [fn] rejects with the string "boom" at each of
    its two invocations; what [withBackoff] throws is not the string the
    last invocation raised but an [Error] object with that message. *)
Lemma withBackoff_wraps_a_raised_value :
  let run := withBackoff 5 raising_a_string (fun _ => Fin (1#2))
               (mkPartial None None (Some 2%Z) None) in
  w_invocations run = 2%nat /\
  raising_a_string 1 = inl (Thrown_value "boom") /\
  w_outcome run = Some (inl (mkJsError "Error" "boom")) /\
  Thrown_Error (mkJsError "Error" "boom") <> Thrown_value "boom".
Proof. repeat split; try (vm_compute; reflexivity). discriminate. Qed.

(** An instance of C9. *)
Lemma withBackoff_invokes_at_most_maxAttempts_witness :
  opt_maxAttempts (mkPartial None None (Some 3%Z) None) = Some (Z.of_nat 3) /\
  (0 < 3)%nat /\ (3 < 4)%nat /\
  (w_invocations (withBackoff 4 flaky (fun _ => Fin (1#2))
                    (mkPartial None None (Some 3%Z) None)) <= 3)%nat.
Proof.
  assert (H1 : opt_maxAttempts (mkPartial None None (Some 3%Z) None)
               = Some (Z.of_nat 3)) by reflexivity.
  assert (H2 : (0 < 3)%nat) by lia.
  assert (H3 : (3 < 4)%nat) by lia.
  split; [exact H1|]. split; [exact H2|]. split; [exact H3|].
  exact (proj1 (withBackoff_invokes_at_most_maxAttempts flaky
                  (fun _ => Fin (1#2))
                  (mkPartial None None (Some 3%Z) None) 3 4 H1 H2 H3)).
Defined.

End BackoffRuns.

(** * Properties of the REST client *)

Section HttpFacts.

Import Http.

Lemma settled_request_catch error : settled (request_catch error).
Proof. destruct error; exact I. Qed.

Lemma request_unfold c options fetch call :
  fetch_call c options = Some call ->
  request c options fetch =
    match fetch call with
    | Pending => Pending
    | Rejected error => request_catch error
    | Fulfilled response =>
        if negb (ok response) then
          match text response with
          | Pending => Pending
          | Rejected error => request_catch error
          | Fulfilled errorText =>
              request_catch (Thrown_Error (new_Error
                ("HTTP " ++ pretty (status response) ++ ": "
                 ++ statusText response ++ " - " ++ errorText)))
          end
        else if (status response =? 204)%Z
                || bool_decide (content_length response = Some "0")
        then Fulfilled Empty_object
        else
          match json response with
          | Pending => Pending
          | Rejected error => request_catch error
          | Fulfilled data => Fulfilled (Parsed data)
          end
    end.
Proof.
  unfold fetch_call, request.
  destruct (request_body options) as [error|body]; [discriminate|].
  intros [= <-]. reflexivity.
Qed.

(** When [JSON.stringify] throws, [fetch] is not called and the request
    is rejected at once. *)
Lemma request_without_fetch c options fetch :
  fetch_call c options = None -> settled (request c options fetch).
Proof.
  unfold fetch_call, request.
  destruct (request_body options) as [error|body]; [|discriminate].
  intros _. apply settled_request_catch.
Qed.

(** C7 (as amended).  [request] has no timeout of its own: once it has
    called [fetch], it settles exactly when the transport does ([fetch],
    and the body read that [request] awaits).  A [fetch] that never
    settles leaves the caller waiting; a [fetch] rejected with an [Error]
    is surfaced to the caller as the [Error] "Request failed: " followed by
    its message. *)
Theorem request_settles_with_the_transport c options fetch call :
  fetch_call c options = Some call ->
  (settled (request c options fetch) <-> transport_settled (fetch call)) /\
  (fetch call = Pending -> request c options fetch = Pending) /\
  (forall e, fetch call = Rejected (Thrown_Error e) ->
   request c options fetch =
     Rejected (Thrown_Error (new_Error ("Request failed: " ++ err_message e)))).
Proof.
  intros Hcall. rewrite (request_unfold c options fetch call Hcall).
  unfold transport_settled.
  split; [|split].
  - destruct (fetch call) as [response|error|].
    + destruct (negb (ok response)).
      * destruct (text response); cbn; try tauto.
        split; intros _; [exact I | apply settled_request_catch].
      * destruct ((status response =? 204)%Z
                  || bool_decide (content_length response = Some "0"));
          [cbn; tauto|].
        destruct (json response); cbn; try tauto.
        split; intros _; [exact I | apply settled_request_catch].
    + split; intros _; [exact I | apply settled_request_catch].
    + cbn. tauto.
  - intros ->. reflexivity.
  - intros e ->. reflexivity.
Qed.

End HttpFacts.

(** ** Concrete runs of the REST client *)

Section HttpRuns.

Import Http.

(** C7 (counterexample).  A request whose [fetch] never settles never
    settles either: no timeout error reaches the caller. *)
Lemma request_waits_for_a_hanging_fetch :
  request local_node get_version hanging_fetch = Pending /\
  get local_node "/version" None hanging_fetch = Pending.
Proof. split; reflexivity. Qed.

Example request_wraps_a_refused_connection :
  request local_node get_version refused_fetch =
    Rejected (Thrown_Error (new_Error "Request failed: fetch failed")).
Proof. reflexivity. Qed.

Example request_of_a_404 :
  request local_node get_version
    (fun _ => Fulfilled (mkResponse false 404 "Not Found" None
                           (Fulfilled "no such route") Pending)) =
    Rejected (Thrown_Error (new_Error
      "Request failed: HTTP 404: Not Found - no such route")).
Proof. vm_compute. reflexivity. Qed.

Example request_calls_fetch_with :
  fetch_call local_node get_version =
    Some (mkFetchCall "http://localhost:2333/version" GET
            (<["Content-Type" := "application/json"]>
               (<["Authorization" := "youshallnotpass"]> ∅)) None).
Proof. vm_compute. reflexivity. Qed.

(** An instance of C7: a refused connection. *)
Lemma request_settles_with_the_transport_witness :
  fetch_call local_node get_version =
    Some (mkFetchCall "http://localhost:2333/version" GET
            (<["Content-Type" := "application/json"]>
               (<["Authorization" := "youshallnotpass"]> ∅)) None) /\
  (settled (request local_node get_version refused_fetch) <->
   transport_settled (refused_fetch
     (mkFetchCall "http://localhost:2333/version" GET
        (<["Content-Type" := "application/json"]>
           (<["Authorization" := "youshallnotpass"]> ∅)) None))).
Proof.
  assert (H : fetch_call local_node get_version =
    Some (mkFetchCall "http://localhost:2333/version" GET
            (<["Content-Type" := "application/json"]>
               (<["Authorization" := "youshallnotpass"]> ∅)) None))
    by (vm_compute; reflexivity).
  split; [exact H|].
  exact (proj1 (request_settles_with_the_transport local_node get_version
                  refused_fetch _ H)).
Defined.

End HttpRuns.

(** * Properties of the equalizer validation *)

Section FilterFacts.

Import Filter.

Context {OtherFilters : Type}.

(** The comparisons of the code against the interval, for a number that is
    not [NaN]. *)
Lemma compared_outside (lo hi : Q) (x : number) :
  is_NaN x = false ->
  (num_lt x (Finite lo) || num_gt x (Finite hi) = true <-> ~ within lo hi x).
Proof.
  destruct x as [| | |q]; cbn; try discriminate; intros _;
    try (split; [tauto | reflexivity]).
  rewrite orb_true_iff, !negb_true_iff.
  rewrite <- !not_true_iff_false, !Qle_bool_iff.
  split.
  - intros [H|H] [H1 H2]; contradiction.
  - intros H. destruct (Qlt_le_dec q lo) as [Hlt|Hle].
    + left. intros Hc. apply (Qlt_not_le _ _ Hlt Hc).
    + right. intros Hc. apply H. split; assumption.
Qed.

(** A [NaN] passes both comparisons. *)
Lemma compared_NaN (lo hi : Q) :
  num_lt NaN (Finite lo) || num_gt NaN (Finite hi) = false.
Proof. reflexivity. Qed.

(** The loop throws exactly when the comparisons reject some band. *)
Lemma equalizer_check_rejects (bands : list EqualizerBand) :
  is_Some (equalizer_check bands) <->
  Exists (fun b => rejected_band b = true) bands.
Proof.
  induction bands as [|b bands IH]; cbn [equalizer_check].
  - split; [intros [x H]; discriminate | intros H; inversion H].
  - rewrite Exists_cons, <- IH. unfold rejected_band.
    destruct (num_lt (band b) (Finite 0) || num_gt (band b) (Finite 14));
      cbn [orb]; [split; eauto|].
    destruct (num_lt (gain b) (Finite (-0.25)) || num_gt (gain b) (Finite 1))
      eqn:E.
    + split; [left; reflexivity | eauto].
    + split; [right; assumption | intros [H|H]; [discriminate | exact H]].
Qed.

(** [equalizer] assigns only after the whole loop has passed. *)
Lemma equalizer_all_or_nothing bands (filters : FilterOptions OtherFilters) :
  (forall msg, snd (equalizer bands filters) = inl msg ->
               fst (equalizer bands filters) = filters) /\
  (snd (equalizer bands filters) = inr tt ->
   equalizer_bands (fst (equalizer bands filters)) = Some bands /\
   volume (fst (equalizer bands filters)) = volume filters /\
   others (fst (equalizer bands filters)) = others filters) /\
  ((exists msg, snd (equalizer bands filters) = inl msg) <->
   Exists (fun b => rejected_band b = true) bands).
Proof.
  rewrite <- equalizer_check_rejects. unfold equalizer.
  destruct (equalizer_check bands) as [msg|]; cbn.
  - repeat split; try discriminate; eauto.
  - repeat split; try discriminate.
    + intros [msg H]; discriminate.
    + intros [x H]; discriminate.
Qed.

(** For bands without [NaN], the loop throws exactly when some band is
    out of range. *)
Lemma equalizer_throws_iff_out_of_range bands
    (filters : FilterOptions OtherFilters) :
  Forall (fun b => is_NaN (band b) = false /\ is_NaN (gain b) = false) bands ->
  ((exists msg, snd (equalizer bands filters) = inl msg) <->
   out_of_range bands).
Proof.
  intros Hnan.
  rewrite (proj2 (proj2 (equalizer_all_or_nothing bands filters))).
  unfold out_of_range. rewrite !Exists_exists.
  split; intros (b & Hin & Hb); exists b; (split; [exact Hin|]);
    (rewrite Forall_forall in Hnan; destruct (Hnan b Hin) as [Hb1 Hb2]);
    pose proof (compared_outside 0 14 (band b) Hb1) as H1;
    pose proof (compared_outside (-0.25) 1 (gain b) Hb2) as H2;
    unfold rejected_band in *.
  - rewrite <- orb_assoc, orb_true_iff in Hb. tauto.
  - rewrite <- orb_assoc, orb_true_iff. tauto.
Qed.

End FilterFacts.

(** ** Concrete runs of the equalizer validation *)

Section FilterRuns.

Import Filter.

(** C10 (the code departs from the claim).  A band whose index is [NaN] is
    not in [[0, 14]], and a gain that is [NaN] is not in [[-0.25, 1.0]];
    [equalizer] returns normally on both and stores the bands. *)
Theorem equalizer_accepts_NaN :
  (out_of_range nan_band /\
   equalizer nan_band no_filters = (mkFilters None (Some nan_band) tt, inr tt)) /\
  (out_of_range nan_gain /\
   equalizer nan_gain no_filters = (mkFilters None (Some nan_gain) tt, inr tt)).
Proof.
  split; (split; [|reflexivity]); apply Exists_cons_hd; cbn; tauto.
Qed.

Example equalizer_rejects_band_15 :
  equalizer [mkBand (Finite 3) (Finite 0.5); mkBand (Finite 15) (Finite 0)]
            no_filters
  = (no_filters, inl "Equalizer band must be between 0 and 14").
Proof. reflexivity. Qed.

Example equalizer_rejects_gain_below :
  equalizer [mkBand (Finite 3) (Finite (-0.3))] no_filters
  = (no_filters, inl "Equalizer gain must be between -0.25 and 1.0").
Proof. reflexivity. Qed.

Example equalizer_accepts_the_bounds :
  snd (equalizer [mkBand (Finite 0) (Finite (-0.25)); mkBand (Finite 14) (Finite 1)]
                 no_filters) = inr tt.
Proof. reflexivity. Qed.

End FilterRuns.

(** * Further properties of the voice forwarder *)

Section VoiceForwarderMore.

Import VoiceForwarder.

Variable clientId : string.

Lemma store_handleVoiceUpdate_player packet player s :
  o_store (handleVoiceUpdate clientId packet player s) =
  o_store (handleVoiceUpdate clientId packet None s).
Proof.
  destruct packet as [d|d|t]; cbn [handleVoiceUpdate].
  - rewrite !store_handleVoiceServerUpdate. reflexivity.
  - rewrite !store_handleVoiceStateUpdate. reflexivity.
  - reflexivity.
Qed.

(** X1.  A call of [handleVoiceUpdate] about one guild leaves the entry of
    every other guild as it was, whatever the packet, the player and the
    outcome of the call. *)
Theorem handleVoiceUpdate_touches_one_guild packet player s g' :
  packet_guild packet <> Some g' ->
  o_store (handleVoiceUpdate clientId packet player s) !! g' = s !! g'.
Proof.
  intros Hg. destruct packet as [d|d|t]; cbn [handleVoiceUpdate packet_guild] in *.
  - rewrite store_handleVoiceServerUpdate. apply lookup_insert_ne. congruence.
  - rewrite store_handleVoiceStateUpdate.
    destruct (negb (String.eqb (st_user_id d) clientId)); [reflexivity|].
    destruct (truthy (st_channel_id d)).
    + apply lookup_insert_ne. congruence.
    + apply lookup_delete_ne. congruence.
  - reflexivity.
Qed.

Lemma well_kept_step op s :
  well_kept s -> well_kept (o_store (operation clientId op s)).
Proof.
  intros Hs. destruct op as [[d|d|t] player|g0|]; cbn [operation handleVoiceUpdate].
  - rewrite store_handleVoiceServerUpdate. intros g v.
    destruct (decide (sv_guild_id d = g)) as [<-|Hne].
    + rewrite lookup_insert_eq. intros [= <-]. unfold server_entry.
      destruct (s !! sv_guild_id d) as [v0|] eqn:E; cbn.
      * destruct (Hs _ _ E) as [Hg Hc]. split; [exact Hg | exact Hc].
      * split; [reflexivity | right; split; reflexivity].
    + rewrite lookup_insert_ne by exact Hne. apply Hs.
  - rewrite store_handleVoiceStateUpdate.
    destruct (negb (String.eqb (st_user_id d) clientId)); [exact Hs|].
    destruct (truthy (st_channel_id d)) eqn:Hc; intros g v.
    + destruct (decide (st_guild_id d = g)) as [<-|Hne].
      * rewrite lookup_insert_eq. intros [= <-]. unfold state_entry.
        destruct (s !! st_guild_id d) as [v0|] eqn:E; cbn.
        -- destruct (Hs _ _ E) as [Hg _]. split; [exact Hg | left; exact Hc].
        -- split; [reflexivity | left; exact Hc].
      * rewrite lookup_insert_ne by exact Hne. apply Hs.
    + destruct (decide (st_guild_id d = g)) as [<-|Hne].
      * rewrite lookup_delete_eq. discriminate.
      * rewrite lookup_delete_ne by exact Hne. apply Hs.
  - exact Hs.
  - intros g v. cbn. destruct (decide (g0 = g)) as [<-|Hne].
    + rewrite lookup_delete_eq. discriminate.
    + rewrite lookup_delete_ne by exact Hne. apply Hs.
  - intros g v. cbn. rewrite lookup_empty. discriminate.
Qed.

(** X2.  Whatever sequence of [handleVoiceUpdate], [clearVoiceState] and
    [clearAllVoiceStates] a forwarder has gone through since it was
    constructed, every entry [getVoiceState(g)] returns is filed under its
    own guild ([guildId = g]), and it has a session id only together with a
    non-empty channel. *)
Theorem entries_stay_well_kept ops g v :
  o_result (getVoiceState g (operate clientId ops ∅)) = inr (Some v) ->
  guildId v = g /\
  (sessionId v <> None -> truthy (channelId v) = true).
Proof.
  assert (Hall : forall ops s, well_kept s -> well_kept (operate clientId ops s)).
  { clear. intros ops. induction ops as [|op ops IH]; intros s Hs; [exact Hs|].
    cbn [operate]. apply IH. apply well_kept_step. exact Hs. }
  assert (H0 : well_kept ∅)
    by (intros g0 v0; rewrite lookup_empty; discriminate).
  cbn. intros [= Hv].
  destruct (Hall ops ∅ H0 g v Hv) as [Hg [Hc|[_ Hn]]].
  - split; [exact Hg | intros _; exact Hc].
  - split; [exact Hg | intros Hne; contradiction].
Qed.

(** X3.  What a call of [handleVoiceUpdate] stores does not depend on the
    player: with or without one, and whether or not the call throws, the
    map afterwards is the same.  Without a player the call returns
    normally and does nothing but emit debug lines. *)
Theorem stored_state_is_independent_of_the_player packet player s :
  o_store (handleVoiceUpdate clientId packet player s) =
    o_store (handleVoiceUpdate clientId packet None s) /\
  o_result (handleVoiceUpdate clientId packet None s) = inr tt /\
  Forall (fun e => is_debug e = true)
    (o_trace (handleVoiceUpdate clientId packet None s)).
Proof.
  split; [apply store_handleVoiceUpdate_player|].
  destruct packet as [d|d|t]; cbn [handleVoiceUpdate].
  - rewrite handleVoiceServerUpdate_eq. cbn. split; [reflexivity|].
    repeat constructor.
  - destruct (decide (st_user_id d = clientId)) as [Hu|Hu].
    + destruct (truthy (st_channel_id d)) eqn:Hc.
      * rewrite handleVoiceStateUpdate_no_player by assumption.
        split; [reflexivity | repeat constructor].
      * rewrite handleVoiceStateUpdate_left by assumption.
        split; [reflexivity | repeat constructor].
    + rewrite handleVoiceStateUpdate_other by exact Hu.
      split; [reflexivity | constructor].
  - split; [reflexivity | constructor].
Qed.

Lemma result_forwardVoiceState p v s :
  o_result (forwardVoiceState p v s) =
    if complete v then settled (updateVoiceState p (credential v))
    else inl "Incomplete voice state".
Proof.
  destruct (complete v) eqn:E.
  - rewrite forwardVoiceState_complete by exact E.
    destruct (updateVoiceState p (credential v)); reflexivity.
  - rewrite forwardVoiceState_incomplete by exact E. reflexivity.
Qed.

Lemma settled_inl r msg : settled r = inl msg -> r = Some msg.
Proof. destruct r; cbn; congruence. Qed.

(** X4.  A call of [handleVoiceUpdate] rejects only when a player is
    given, and in one of three ways ([emit] being taken not to throw):
    with "Incomplete voice state", and then nothing was handed to the
    player and the incomplete entry (with the fragment of the packet) is
    in the map; with the error [player.updateVoiceState] rejected with,
    and then the entry is complete and its credential was handed to the
    player once; or, on a departure of the bot, with the error
    [player.disconnect] rejected with, and then the entry is gone. *)
Theorem what_handleVoiceUpdate_throws packet player s msg :
  let o := handleVoiceUpdate clientId packet player s in
  o_result o = inl msg ->
  exists p, player = Some p /\
    ((msg = "Incomplete voice state" /\ forwards (o_trace o) = [] /\
      exists g v, packet_guild packet = Some g /\
                  o_store o !! g = Some v /\ complete v = false) \/
     (exists g v, packet_guild packet = Some g /\
                  o_store o !! g = Some v /\ complete v = true /\
                  forwards (o_trace o) = [credential v] /\
                  updateVoiceState p (credential v) = Some msg) \/
     (exists d, packet = VOICE_STATE_UPDATE d /\
                st_user_id d = clientId /\ truthy (st_channel_id d) = false /\
                disconnect p = Some msg /\
                o_store o !! st_guild_id d = None /\
                forwards (o_trace o) = [] /\
                Player_disconnect p ∈ o_trace o)).
Proof.
  cbv zeta.
  destruct packet as [d|d|t]; cbn [handleVoiceUpdate packet_guild].
  - rewrite store_handleVoiceServerUpdate, forwards_handleVoiceServerUpdate_any,
      handleVoiceServerUpdate_eq. cbv zeta.
    destruct player as [p|]; [|discriminate].
    destruct (truthy (sessionId (server_entry d s))) eqn:Es; [|discriminate].
    rewrite result_prepend, result_forwardVoiceState.
    intros H. exists p. split; [reflexivity|].
    destruct (complete (server_entry d s)) eqn:E.
    + right. left. exists (sv_guild_id d), (server_entry d s).
      rewrite lookup_insert_eq. repeat split; try reflexivity; try exact E.
      apply settled_inl. exact H.
    + left. split; [congruence|]. split; [reflexivity|].
      exists (sv_guild_id d), (server_entry d s).
      rewrite lookup_insert_eq. auto.
  - destruct (decide (st_user_id d = clientId)) as [Hu|Hu];
      [|rewrite handleVoiceStateUpdate_other by exact Hu; discriminate].
    destruct (truthy (st_channel_id d)) eqn:Hc.
    + destruct player as [p|];
        [|rewrite handleVoiceStateUpdate_no_player by assumption; discriminate].
      rewrite store_handleVoiceStateUpdate, Hc,
        forwards_handleVoiceStateUpdate by assumption.
      rewrite (proj2 (String.eqb_eq _ _) Hu). cbn [negb].
      rewrite handleVoiceStateUpdate_joined by assumption. cbv zeta.
      destruct (truthy (token (state_entry d s)) &&
                truthy (endpoint (state_entry d s))); [|discriminate].
      rewrite result_prepend, result_forwardVoiceState.
      intros H. exists p. split; [reflexivity|].
      destruct (complete (state_entry d s)) eqn:E.
      * right. left. exists (st_guild_id d), (state_entry d s).
        rewrite lookup_insert_eq. repeat split; try reflexivity; try exact E.
        apply settled_inl. exact H.
      * left. split; [congruence|]. split; [reflexivity|].
        exists (st_guild_id d), (state_entry d s).
        rewrite lookup_insert_eq. auto.
    + rewrite handleVoiceStateUpdate_left by assumption.
      cbn [o_result o_store o_trace].
      destruct player as [p|]; [|discriminate].
      intros H. exists p. split; [reflexivity|]. right. right.
      exists d. repeat split; try assumption; try reflexivity.
      * apply settled_inl. exact H.
      * apply lookup_delete_eq.
      * apply list_elem_of_further, list_elem_of_here.
  - discriminate.
Qed.

(** X5.  [clearVoiceState(g)] removes the entry of [g] and of no other
    guild, and [clearAllVoiceStates()] every entry.  After either, nothing
    is handed to a player for a cleared guild as long as only server
    events, or only state events, arrive for it. *)
Theorem clearing_forgets_the_fragments g s :
  (o_result (getVoiceState g (o_store (clearVoiceState g s))) = inr None /\
   (forall g', g' <> g ->
      o_store (clearVoiceState g s) !! g' = s !! g') /\
   o_result (getVoiceState g (o_store (clearAllVoiceStates s))) = inr None /\
   o_result (getAllVoiceStates (o_store (clearAllVoiceStates s))) = inr ∅) /\
  (forall calls,
     Forall (for_guild g) calls ->
     Forall (fun c => is_state c = false) calls \/
     Forall (fun c => is_server c = false) calls ->
     forwards (run_trace
       (process clientId calls (o_store (clearVoiceState g s)))) = [] /\
     forwards (run_trace
       (process clientId calls (o_store (clearAllVoiceStates s)))) = []).
Proof.
  assert (H1 : o_store (clearVoiceState g s) !! g = None)
    by apply lookup_delete_eq.
  assert (H2 : o_store (clearAllVoiceStates s) !! g = None)
    by apply lookup_empty.
  split.
  - cbn [getVoiceState voiceStates_get o_result]. rewrite H1, H2.
    repeat split; try reflexivity.
    intros g' Hne. apply lookup_delete_ne. congruence.
  - intros calls Hg [Hk|Hk]; split.
    + apply (no_forward_without_state_events clientId g); try assumption.
      unfold no_session. rewrite H1. reflexivity.
    + apply (no_forward_without_state_events clientId g); try assumption.
      unfold no_session. rewrite H2. reflexivity.
    + apply (no_forward_without_server_events clientId g); try assumption.
      unfold no_token. rewrite H1. reflexivity.
    + apply (no_forward_without_server_events clientId g); try assumption.
      unfold no_token. rewrite H2. reflexivity.
Qed.

(** X6.  The two fragments are stored independently.  After a server event
    [getVoiceState] returns an entry with the token and the endpoint of the
    packet and the session id and channel the guild had before (none for a
    new guild); after a state event of the bot with a channel it returns an
    entry with the session id and channel of the packet and the token and
    endpoint the guild had before.  Both hold whether or not the call
    throws. *)
Theorem fragments_are_stored_independently s player :
  (forall d, exists v,
     o_result (getVoiceState (sv_guild_id d)
       (o_store (handleVoiceUpdate clientId (VOICE_SERVER_UPDATE d) player s)))
       = inr (Some v) /\
     token v = sv_token d /\ endpoint v = sv_endpoint d /\
     sessionId v = (s !! sv_guild_id d ≫= sessionId) /\
     channelId v = (s !! sv_guild_id d ≫= channelId)) /\
  (forall d,
     st_user_id d = clientId -> truthy (st_channel_id d) = true ->
     exists v,
       o_result (getVoiceState (st_guild_id d)
         (o_store (handleVoiceUpdate clientId (VOICE_STATE_UPDATE d) player s)))
         = inr (Some v) /\
       sessionId v = st_session_id d /\ channelId v = st_channel_id d /\
       token v = (s !! st_guild_id d ≫= token) /\
       endpoint v = (s !! st_guild_id d ≫= endpoint)).
Proof.
  split; intros d.
  - exists (server_entry d s). cbn [handleVoiceUpdate getVoiceState
      voiceStates_get o_result].
    rewrite store_handleVoiceServerUpdate, lookup_insert_eq.
    unfold server_entry. destruct (s !! sv_guild_id d); cbn; auto.
  - intros Hu Hc. exists (state_entry d s). cbn [handleVoiceUpdate getVoiceState
      voiceStates_get o_result].
    rewrite store_handleVoiceStateUpdate, Hc.
    rewrite (proj2 (String.eqb_eq _ _) Hu). cbn [negb].
    rewrite lookup_insert_eq.
    unfold state_entry. destruct (s !! st_guild_id d); cbn; auto.
Qed.

End VoiceForwarderMore.

(** * Further properties of the REST client *)

Section HttpMore.

Import Http.

(** X7.  [updateConfig] replaces the base URL and the [Authorization]
    header and keeps every other header; applied to a client fresh from the
    constructor it gives the client the constructor builds from the new
    configuration. *)
Theorem updateConfig_acts_like_the_constructor config0 config c :
  updateConfig config (new config0) = new config /\
  baseUrl (updateConfig config c) = url_of config /\
  client_headers (updateConfig config c) !! "Authorization"
    = Some (password config) /\
  (forall k, k <> "Authorization" ->
     client_headers (updateConfig config c) !! k = client_headers c !! k).
Proof.
  split; [|split; [|split]].
  - unfold updateConfig, new. cbn [client_headers]. f_equal.
  - reflexivity.
  - cbn. apply lookup_insert_eq.
  - intros k Hk. cbn. apply lookup_insert_ne. congruence.
Qed.

(** X8.  The headers a request is sent with are the client's headers
    overridden by the headers of the call: a header the caller passes wins
    (the [Authorization] header included), every other one is the
    client's.  The URL is the base URL followed by the endpoint. *)
Theorem request_headers_prefer_the_call c options call :
  fetch_call c options = Some call ->
  f_url call = baseUrl c ++ endpoint options /\
  f_method call = method options /\
  (forall k v, (headers options ≫= (.!! k)) = Some v ->
               f_headers call !! k = Some v) /\
  (forall k, (headers options ≫= (.!! k)) = None ->
             f_headers call !! k = client_headers c !! k).
Proof.
  unfold fetch_call.
  destruct (request_body options) as [error|body]; [discriminate|].
  intros [= <-]. cbn [f_url f_method f_headers].
  split; [reflexivity|]. split; [reflexivity|].
  split.
  - intros k v Hk. destruct (headers options) as [h|]; [|discriminate].
    cbn in *. apply lookup_union_Some_l. exact Hk.
  - intros k Hk. destruct (headers options) as [h|]; cbn in *.
    + apply lookup_union_r. exact Hk.
    + apply lookup_union_r. apply lookup_empty.
Qed.

(** X9.  [request] resolves only on a response with [ok] set: to [{}] when
    the status is 204 or the content length is "0" (the body is not read
    then), to the parsed body otherwise.  A response that is not [ok]
    never resolves the request. *)
Theorem request_resolves_only_on_ok c options fetch data :
  request c options fetch = Fulfilled data ->
  exists call response,
    fetch_call c options = Some call /\
    fetch call = Fulfilled response /\
    ok response = true /\
    ((data = Empty_object /\
      (status response = 204%Z \/ content_length response = Some "0")) \/
     (exists j, json response = Fulfilled j /\ data = Parsed j /\
                status response <> 204%Z /\
                content_length response <> Some "0")).
Proof.
  destruct (fetch_call c options) as [call|] eqn:Hcall.
  - rewrite (request_unfold c options fetch call Hcall).
    intros H. exists call.
    destruct (fetch call) as [response|[e|x]|]; try discriminate.
    exists response. split; [reflexivity|]. split; [reflexivity|].
    destruct (ok response); cbn [negb] in H.
    + split; [reflexivity|].
      destruct (status response =? 204)%Z eqn:Hs; cbn [orb] in H.
      * left. inversion H. split; [reflexivity|].
        left. apply Z.eqb_eq. exact Hs.
      * destruct (bool_decide (content_length response = Some "0")) eqn:Hl.
        -- left. inversion H. split; [reflexivity|].
           right. apply bool_decide_eq_true in Hl. exact Hl.
        -- right. destruct (json response) as [j|[e|x]|]; try discriminate.
           exists j. inversion H. repeat split.
           ++ apply Z.eqb_neq. exact Hs.
           ++ apply bool_decide_eq_false in Hl. exact Hl.
    + destruct (text response) as [t|[e|x]|]; discriminate.
  - unfold fetch_call in Hcall. unfold request.
    destruct (request_body options) as [[e|x]|body]; discriminate.
Qed.

Lemma request_catch_Error error e :
  request_catch error = Rejected (Thrown_Error e) ->
  err_name e = "Error" /\
  exists msg, err_message e = "Request failed: " ++ msg.
Proof.
  destruct error as [e0|x]; cbn; [|discriminate].
  intros [= <-]. split; [reflexivity|]. eexists. reflexivity.
Qed.

(** X10.  Every [Error] that [request] rejects with is a plain [Error]
    whose message starts with "Request failed: " (the class of the error
    that caused it is not kept).  For a response that is not [ok] and whose
    text can be read, the message is "Request failed: HTTP", the status,
    the status text and the text of the body. *)
Theorem request_errors_are_wrapped c options fetch :
  (forall e, request c options fetch = Rejected (Thrown_Error e) ->
     err_name e = "Error" /\
     exists msg, err_message e = "Request failed: " ++ msg) /\
  (forall call response errorText,
     fetch_call c options = Some call ->
     fetch call = Fulfilled response ->
     ok response = false ->
     text response = Fulfilled errorText ->
     request c options fetch =
       Rejected (Thrown_Error (new_Error
         ("Request failed: HTTP " ++ pretty (status response) ++ ": "
          ++ statusText response ++ " - " ++ errorText)))).
Proof.
  split.
  - intros e.
    destruct (fetch_call c options) as [call|] eqn:Hcall.
    + rewrite (request_unfold c options fetch call Hcall).
      destruct (fetch call) as [response|error|]; try discriminate.
      * destruct (negb (ok response)).
        -- destruct (text response) as [t|error|]; try discriminate;
             apply request_catch_Error.
        -- destruct ((status response =? 204)%Z
                     || bool_decide (content_length response = Some "0"));
             [discriminate|].
           destruct (json response) as [j|error|]; try discriminate.
           apply request_catch_Error.
      * apply request_catch_Error.
    + unfold fetch_call in Hcall. unfold request.
      destruct (request_body options) as [error|body]; [|discriminate].
      apply request_catch_Error.
  - intros call response errorText Hcall Hf Hok Ht.
    rewrite (request_unfold c options fetch call Hcall), Hf, Hok, Ht.
    reflexivity.
Qed.

End HttpMore.

(** * Further properties of the backoff policy *)

Section BackoffMore.

Import Double Backoff.

Local Open Scope Q_scope.

Lemma next_returns_delay_at r b :
  hasReachedMaxAttempts b = false ->
  next r b = (mkBackoff (S (attempt b)) (options b),
              inr (delay_at (options b) r (attempt b))).
Proof. apply next_not_exhausted. Qed.

(** X11.  For a positive [maxAttempts], the three ways of asking agree:
    [hasReachedMaxAttempts()] holds exactly when [getRemainingAttempts()] is
    [0], and exactly then [next()] throws; otherwise [next()] returns and
    [getRemainingAttempts()] goes down by one.  The remaining attempts are
    always between [0] and [maxAttempts]. *)
Theorem remaining_attempts_agree o n r :
  (0 < maxAttempts o)%Z ->
  let b := mkBackoff n o in
  (hasReachedMaxAttempts b = true <-> getRemainingAttempts b = 0%Z) /\
  (hasReachedMaxAttempts b = true <->
   next r b = (b, inl "Maximum reconnection attempts reached"%string)) /\
  (hasReachedMaxAttempts b = false ->
   returned (snd (next r b)) = true /\
   getRemainingAttempts (fst (next r b)) = (getRemainingAttempts b - 1)%Z) /\
  (0 <= getRemainingAttempts b <= maxAttempts o)%Z.
Proof.
  intros Hm b. subst b.
  assert (Hrem : forall k, getRemainingAttempts (mkBackoff k o) =
                           Z.max 0 (maxAttempts o - Z.of_nat k)).
  { intros k. unfold getRemainingAttempts. cbn [options attempt].
    destruct (Z.eqb_spec (maxAttempts o) 0); [lia | reflexivity]. }
  split; [|split; [|split]].
  - rewrite reached_iff, Hrem. lia.
  - split.
    + apply next_exhausted.
    + intros H. destruct (hasReachedMaxAttempts (mkBackoff n o)) eqn:E;
        [reflexivity|].
      rewrite next_returns_delay_at in H by exact E. discriminate.
  - intros H. rewrite next_returns_delay_at by exact H.
    cbn [fst snd returned attempt options]. split; [reflexivity|].
    rewrite !Hrem.
    assert (Hn : ~ (0 < maxAttempts o /\ maxAttempts o <= Z.of_nat n)%Z)
      by (rewrite <- reached_iff, H; discriminate).
    lia.
  - rewrite Hrem. lia.
Qed.

(** X12.  [getAttempt()] counts the calls of [next()] that returned: after
    any row of calls the counter is what it was plus the number of calls
    that returned (a call that throws does not count), and the options are
    unchanged. *)
Theorem getAttempt_counts_returned_calls rs : forall b,
  getAttempt (fst (next_all rs b)) =
    (attempt b + length (filter (fun x => returned x = true)
                                (snd (next_all rs b))))%nat /\
  options (fst (next_all rs b)) = options b /\
  length (snd (next_all rs b)) = length rs.
Proof.
  unfold getAttempt.
  induction rs as [|r rs IH]; intros b.
  - cbn. split; [lia | split; reflexivity].
  - cbn [next_all].
    destruct (hasReachedMaxAttempts b) eqn:E.
    + rewrite next_exhausted by exact E.
      destruct (IH b) as (IH1 & IH2 & IH3).
      destruct (next_all rs b) as [b2 xs]. cbn [fst snd] in *.
      rewrite filter_cons_False by (cbn; discriminate).
      cbn [length]. rewrite IH1, IH2, IH3. auto.
    + rewrite next_returns_delay_at by exact E.
      destruct (IH (mkBackoff (S (attempt b)) (options b))) as (IH1 & IH2 & IH3).
      destruct (next_all rs (mkBackoff (S (attempt b)) (options b))) as [b2 xs].
      cbn [fst snd attempt options] in *.
      rewrite filter_cons_True by reflexivity.
      cbn [length]. rewrite IH1, IH2, IH3.
      split; [lia | split; reflexivity].
Qed.

(** Without jitter nothing is added to the capped delay. *)
Lemma perturbed_no_jitter c j r :
  is_double c = true -> 0 <= c -> j == 0 ->
  perturbed (Fin c) (Fin j) (Fin r) = Fin (inject_Z (Qfloor c)).
Proof.
  intros Hc Hc0 Hj. unfold perturbed, jitterValue. cbn [mul].
  rewrite (round_of_zero (c * j)) by (rewrite Hj; ring).
  cbn [mul]. rewrite (round_of_zero (r * 0)) by ring.
  cbn [mul]. rewrite (round_of_zero (0 * 2)) by ring.
  cbn [sub]. rewrite (round_of_zero (0 - 0)) by ring.
  cbn [add]. rewrite (round_comp (c + 0) c) by ring.
  rewrite (is_double_round c Hc). cbn [Math_max].
  assert (E : Qle_bool 0 (Qred c) = true)
    by (apply Qle_bool_iff; rewrite Qred_correct; exact Hc0).
  rewrite E. cbn [Math_floor].
  rewrite (Qfloor_comp _ _ (Qred_correct c)). reflexivity.
Qed.

(** X13.  Without jitter the delay does not depend on the value drawn.
    For finite doubles with [baseDelay >= 0] and [0 <= maxDelay <= 2^52],
    at attempt [n] a call of [next()] that does not throw returns the
    capped delay rounded down, [floor(min(baseDelay * 2^n, maxDelay))]
    below attempt 1024; that delay never goes down from one attempt to the
    next and never exceeds [maxDelay].  This holds at every attempt for a
    positive [baseDelay], and below attempt 1023 for [baseDelay] zero,
    where from attempt 1024 on [next()] returns [NaN]. *)
Theorem next_without_jitter r b :
  drawn r ->
  between 0 0 (jitter (options b)) ->
  nonnegative (baseDelay (options b)) ->
  between 0 (inject_Z (2 ^ 52)) (maxDelay (options b)) ->
  hasReachedMaxAttempts b = false ->
  (0 < value (baseDelay (options b)) \/ (S (attempt b) < 1024)%nat ->
   exists d d',
     capped (options b) (attempt b) = Fin d /\
     capped (options b) (S (attempt b)) = Fin d' /\
     ((attempt b < 1024)%nat ->
      d == Qmin (value (baseDelay (options b))
                 * inject_Z (2 ^ Z.of_nat (attempt b)))
                (value (maxDelay (options b)))) /\
     snd (next r b) = inr (Fin (inject_Z (Qfloor d))) /\
     (0 <= Qfloor d <= Qfloor d')%Z /\
     inject_Z (Qfloor d') <= value (maxDelay (options b))) /\
  (value (baseDelay (options b)) == 0 -> (1024 <= attempt b)%nat ->
   snd (next r b) = inr NaN).
Proof.
  intros Hr Hj Hb Hm Hn. rewrite next_returns_delay_at by exact Hn.
  cbn [snd]. split.
  - intros Hor.
    destruct (capped_spec (options b) (attempt b) Hb Hm)
      as (d & Ed & Hd & [Hd0 Hd1] & Hx1 & Hx2); [destruct Hor; [left|right]; (assumption || lia)|].
    destruct (capped_spec (options b) (S (attempt b)) Hb Hm Hor)
      as (d' & Ed' & Hd' & [Hd0' Hd1'] & Hx1' & Hx2').
    exists d, d'. split; [exact Ed|]. split; [exact Ed'|].
    split; [exact Hx1|].
    assert (Hle : d <= d').
    { destruct (Nat.lt_ge_cases (S (attempt b)) 1024) as [Hlt|Hge].
      - rewrite (Hx1 ltac:(lia)), (Hx1' Hlt).
        apply Q.min_le_compat_r.
        destruct (baseDelay (options b)) as [| | |bd]; try contradiction.
        cbn [nonnegative value] in *. destruct Hb as [_ Hb0].
        assert (inject_Z (2 ^ Z.of_nat (attempt b))
                <= inject_Z (2 ^ Z.of_nat (S (attempt b)))).
        { rewrite <- Zle_Qle. apply Z.pow_le_mono_r; lia. }
        rewrite !(Qmult_comm bd). apply Qmult_le_compat_r; assumption.
      - rewrite (Hx2' Hge). exact Hd1. }
    split; [|split; [split|]].
    + unfold delay_at. rewrite Ed.
      destruct r as [| | |rv]; try contradiction.
      destruct (jitter (options b)) as [| | |jv]; try contradiction.
      cbn [between] in Hj. destruct Hj as (_ & Hj0 & Hj1).
      apply f_equal, perturbed_no_jitter; [exact Hd | exact Hd0 | lra].
    + change 0%Z with (Qfloor (inject_Z 0)). apply Qfloor_resp_le. exact Hd0.
    + apply Qfloor_resp_le. exact Hle.
    + eapply Qle_trans; [apply Qfloor_le | exact Hd1'].
  - intros H0 H1024. unfold delay_at.
    rewrite (capped_NaN _ _ Hb H0 H1024). reflexivity.
Qed.

(** ** The sleeps of [withBackoff] *)

Lemma delays_from_S o rnd i n :
  delays_from o rnd i (S n) = delay_at o (rnd i) i :: delays_from o rnd (S i) n.
Proof. reflexivity. Qed.

Section Loop.

Context {T : Type}.
Variable fn : nat -> Thrown + T.
Variable rnd : nat -> double.
Variable o : BackoffOptions.

(** The loop up to the first invocation that succeeds. *)
Lemma loop_until_success (d : nat) : forall i fuel lastError slept v,
  (d < fuel)%nat ->
  (forall j, (i <= j <= i + d)%nat ->
             hasReachedMaxAttempts (mkBackoff j o) = false) ->
  fn (i + d)%nat = inr v ->
  (forall j, (i <= j < i + d)%nat -> failed (fn j)) ->
  withBackoff_loop fuel fn rnd i (mkBackoff i o) lastError slept =
    mkBackoffRun (S (i + d)) (slept ++ delays_from o rnd i d)%list
                 (Some (inr v)).
Proof.
  induction d as [|d IH]; intros i fuel lastError slept v Hfuel Hr Hv Hf;
    (destruct fuel as [|fuel]; [lia|]); cbn [withBackoff_loop];
    rewrite (Hr i) by lia.
  - rewrite Nat.add_0_r in *. rewrite Hv.
    unfold delays_from. cbn. rewrite app_nil_r. reflexivity.
  - specialize (Hf i ltac:(lia)) as Hfi.
    destruct (fn i) as [error|v0]; [|contradiction].
    rewrite next_returns_delay_at by (apply Hr; lia).
    cbn [attempt options].
    rewrite (IH (S i) fuel _ _ v); try lia.
    + rewrite delays_from_S, <- app_assoc.
      replace (S i + d)%nat with (i + S d)%nat by lia. reflexivity.
    + intros j Hj. apply Hr. lia.
    + replace (S i + d)%nat with (i + S d)%nat by lia. exact Hv.
    + intros j Hj. apply Hf. lia.
Qed.

(** The loop when every invocation fails until the bound is reached. *)
Lemma loop_until_exhausted (d : nat) : forall i fuel lastError slept,
  (d < fuel)%nat ->
  (forall j, (i <= j < i + d)%nat ->
             hasReachedMaxAttempts (mkBackoff j o) = false) ->
  hasReachedMaxAttempts (mkBackoff (i + d) o) = true ->
  (forall j, (i <= j < i + d)%nat -> failed (fn j)) ->
  let run := withBackoff_loop fuel fn rnd i (mkBackoff i o) lastError slept in
  w_invocations run = (i + d)%nat /\
  w_slept run = (slept ++ delays_from o rnd i d)%list.
Proof.
  induction d as [|d IH]; intros i fuel lastError slept Hfuel Hr Hx Hf;
    (destruct fuel as [|fuel]; [lia|]); cbn [withBackoff_loop].
  - rewrite Nat.add_0_r in *. rewrite Hx.
    unfold delays_from. cbn. rewrite app_nil_r. auto.
  - rewrite (Hr i) by lia.
    specialize (Hf i ltac:(lia)) as Hfi.
    destruct (fn i) as [error|v0]; [|contradiction].
    rewrite next_returns_delay_at by (apply Hr; lia).
    cbn [attempt options].
    destruct (IH (S i) fuel (Some (toError error))
                (slept ++ [delay_at o (rnd i) i])%list) as [H1 H2]; try lia.
    + intros j Hj. apply Hr. lia.
    + replace (S i + d)%nat with (i + S d)%nat by lia. exact Hx.
    + intros j Hj. apply Hf. lia.
    + split.
      * rewrite H1. lia.
      * rewrite H2, delays_from_S, <- app_assoc. reflexivity.
Qed.

(** The loop when the bound is never reached and every invocation fails:
    it uses up any fuel. *)
Lemma loop_never_ends (fuel : nat) : forall i lastError slept,
  (forall j, (i <= j)%nat -> hasReachedMaxAttempts (mkBackoff j o) = false) ->
  (forall j, (i <= j)%nat -> failed (fn j)) ->
  withBackoff_loop fuel fn rnd i (mkBackoff i o) lastError slept =
    mkBackoffRun (i + fuel) (slept ++ delays_from o rnd i fuel)%list None.
Proof.
  induction fuel as [|fuel IH]; intros i lastError slept Hr Hf;
    cbn [withBackoff_loop].
  - rewrite Nat.add_0_r. unfold delays_from. cbn. rewrite app_nil_r.
    reflexivity.
  - rewrite (Hr i) by lia.
    specialize (Hf i ltac:(lia)) as Hfi.
    destruct (fn i) as [error|v0]; [|contradiction].
    rewrite next_returns_delay_at by (apply Hr; lia).
    cbn [attempt options].
    rewrite IH.
    + rewrite delays_from_S, <- app_assoc.
      replace (S i + fuel)%nat with (i + S fuel)%nat by lia. reflexivity.
    + intros j Hj. apply Hr. lia.
    + intros j Hj. apply Hf. lia.
Qed.

(** Whatever happens, what the loop sleeps are the delays of [next()] for
    the invocations that failed, in order. *)
Lemma loop_sleeps_delays (fuel : nat) : forall i lastError slept,
  exists n,
    w_slept (withBackoff_loop fuel fn rnd i (mkBackoff i o) lastError slept)
    = (slept ++ delays_from o rnd i n)%list.
Proof.
  induction fuel as [|fuel IH]; intros i lastError slept;
    cbn [withBackoff_loop].
  - exists 0%nat. cbn. rewrite app_nil_r. reflexivity.
  - destruct (hasReachedMaxAttempts (mkBackoff i o)) eqn:E.
    + exists 0%nat. cbn. rewrite app_nil_r. reflexivity.
    + destruct (fn i) as [error|v].
      * rewrite next_returns_delay_at by exact E. cbn [attempt options].
        destruct (IH (S i) (Some (toError error))
                    (slept ++ [delay_at o (rnd i) i])%list) as [n Hn].
        exists (S n). rewrite Hn, delays_from_S, <- app_assoc. reflexivity.
      * exists 0%nat. cbn. rewrite app_nil_r. reflexivity.
Qed.

End Loop.

Lemma withBackoff_unfold {T} (fn : nat -> Thrown + T) rnd po fuel :
  withBackoff fuel fn rnd po =
    withBackoff_loop fuel fn rnd 0 (mkBackoff 0 (options (new po))) None [].
Proof. reflexivity. Qed.

(** X14.  With [maxAttempts] zero (the default) or negative, [withBackoff]
    never gives up.  If some invocation of [fn] succeeds, it returns the
    result of the first one that does, after sleeping once per failed
    invocation; if every invocation fails, the loop never ends: whatever
    the fuel, it is used up with one invocation and one sleep per unit. *)
Theorem withBackoff_unbounded_retries_forever
    {T : Type} (fn : nat -> Thrown + T) (rnd : nat -> double)
    (po : PartialBackoffOptions) :
  (maxAttempts (options (new po)) <= 0)%Z ->
  (forall k v fuel,
     fn k = inr v -> (forall j, (j < k)%nat -> failed (fn j)) ->
     (k < fuel)%nat ->
     withBackoff fuel fn rnd po =
       mkBackoffRun (S k) (delays_from (options (new po)) rnd 0 k)
                    (Some (inr v))) /\
  ((forall j, failed (fn j)) ->
   forall fuel,
     withBackoff fuel fn rnd po =
       mkBackoffRun fuel (delays_from (options (new po)) rnd 0 fuel) None).
Proof.
  intros Hm.
  assert (Hr : forall j, hasReachedMaxAttempts
                           (mkBackoff j (options (new po))) = false)
    by (intros j; apply not_reached_unbounded; exact Hm).
  split.
  - intros k v fuel Hv Hf Hfuel. rewrite withBackoff_unfold.
    rewrite (loop_until_success fn rnd (options (new po)) k 0 fuel None [] v);
      try assumption; try reflexivity.
    + intros j _. apply Hr.
    + intros j Hj. apply Hf. lia.
  - intros Hf fuel. rewrite withBackoff_unfold.
    rewrite loop_never_ends; [reflexivity | |].
    + intros j _. apply Hr.
    + intros j _. apply Hf.
Qed.

(** X15.  With [maxAttempts = m > 0] and enough fuel, [withBackoff] sleeps
    once after every failed invocation, the last one included: when all
    [m] invocations fail it has slept [m] times before it throws, and when
    invocation [k] is the first to succeed it has slept [k] times.  The
    delays are those [next()] returns for the attempts 0, 1, 2, ... *)
Theorem withBackoff_sleeps_after_every_failure
    {T : Type} (fn : nat -> Thrown + T) (rnd : nat -> double)
    (po : PartialBackoffOptions) (m fuel : nat) :
  opt_maxAttempts po = Some (Z.of_nat m) ->
  (0 < m)%nat ->
  (m < fuel)%nat ->
  let run := withBackoff fuel fn rnd po in
  ((forall j, (j < m)%nat -> failed (fn j)) ->
   w_slept run = delays_from (options (new po)) rnd 0 m /\
   length (w_slept run) = m /\ w_invocations run = m) /\
  (forall k v,
     (k < m)%nat -> fn k = inr v ->
     (forall j, (j < k)%nat -> failed (fn j)) ->
     w_slept run = delays_from (options (new po)) rnd 0 k /\
     length (w_slept run) = k /\ w_invocations run = S k).
Proof.
  intros Hpo Hm Hfuel run. subst run. rewrite withBackoff_unfold.
  assert (Ho : maxAttempts (options (new po)) = Z.of_nat m)
    by (cbn; rewrite Hpo; reflexivity).
  assert (Hlen : forall n, length (delays_from (options (new po)) rnd 0 n) = n)
    by (intros n; unfold delays_from; rewrite length_map, length_seq;
        reflexivity).
  split.
  - intros Hf.
    destruct (loop_until_exhausted fn rnd (options (new po)) m 0 fuel None [])
      as [H1 H2]; try assumption.
    + intros j Hj. apply not_reached_below. lia.
    + apply reached_iff. cbn [Nat.add]. lia.
    + intros j Hj. apply Hf. lia.
    + cbv zeta in H1, H2. cbn [Nat.add app] in H1, H2.
      rewrite H1, H2, Hlen. auto.
  - intros k v Hk Hv Hf.
    rewrite (loop_until_success fn rnd (options (new po)) k 0 fuel None [] v);
      try assumption; try lia.
    + cbn [w_slept w_invocations Nat.add app]. rewrite Hlen. auto.
    + intros j Hj. apply not_reached_below. lia.
    + intros j Hj. apply Hf. lia.
Qed.

(** X16.  Whatever [fn] does and however long the loop runs, for finite
    doubles with [baseDelay >= 0], [0 <= maxDelay <= 2^52] and a jitter in
    [[0, 1]], and drawn values in [[0, 1)]: each of the first 1024 delays
    [withBackoff] sleeps is a whole number between [0] and
    [ceil(maxDelay) + ceil(maxDelay * jitter)]; so is every later one when
    [baseDelay] is positive; when [baseDelay] is zero every later one is
    [NaN]. *)
Theorem withBackoff_sleeps_within_bounds
    {T : Type} (fn : nat -> Thrown + T) (rnd : nat -> double)
    (po : PartialBackoffOptions) (fuel : nat) :
  (forall j, drawn (rnd j)) ->
  between 0 1 (jitter (options (new po))) ->
  nonnegative (baseDelay (options (new po))) ->
  between 0 (inject_Z (2 ^ 52)) (maxDelay (options (new po))) ->
  let slept := w_slept (withBackoff fuel fn rnd po) in
  Forall (whole_up_to (delay_bound (options (new po)))) (take 1024 slept) /\
  (0 < value (baseDelay (options (new po))) ->
   Forall (whole_up_to (delay_bound (options (new po)))) slept) /\
  (value (baseDelay (options (new po))) == 0 ->
   Forall (fun d => d = NaN) (drop 1024 slept)).
Proof.
  intros Hr Hj Hb Hm slept. subst slept. rewrite withBackoff_unfold.
  destruct (loop_sleeps_delays fn rnd (options (new po)) fuel 0 None [])
    as [n ->].
  cbn [app]. unfold delays_from.
  assert (Hwhole : forall j,
            0 < value (baseDelay (options (new po))) \/ (j < 1024)%nat ->
            whole_up_to (delay_bound (options (new po)))
              (delay_at (options (new po)) (rnd j) j)).
  { intros j Hor.
    destruct (delay_at_spec (options (new po)) (rnd j) j (Hr j) Hj Hb Hm Hor)
      as (delay & J & p & z & _ & _ & _ & _ & _ & _ & _ & Ez & _ & Hz).
    exists z. split; assumption. }
  split; [|split].
  - rewrite firstn_map, take_seq. apply Forall_map, Forall_forall.
    intros j Hin. apply elem_of_seq in Hin. apply Hwhole. right. lia.
  - intros Hpos. apply Forall_map, Forall_forall.
    intros j _. apply Hwhole. left. exact Hpos.
  - intros H0. rewrite skipn_map, drop_seq. apply Forall_map, Forall_forall.
    intros j Hin. apply elem_of_seq in Hin. cbn. unfold delay_at.
    rewrite (capped_NaN _ _ Hb H0) by lia. reflexivity.
Qed.

End BackoffMore.

(** * Properties of the other setters of FilterBuilder *)

Section FilterBuilderFacts.

Import Filter FilterBuilder.

Context {DistortionFilter ChannelMixFilter : Type}.

Abbreviation Config := (Filters DistortionFilter ChannelMixFilter).

Lemma within_not_NaN lo hi x : within lo hi x -> is_NaN x = false.
Proof. destruct x; cbn; (contradiction || reflexivity). Qed.

(** [x <= 0] against [x > 0], for a number that is not [NaN]. *)
Lemma not_positive_compared (x : number) :
  is_NaN x = false ->
  (num_le x (Finite 0) = true <-> ~ positive x).
Proof.
  destruct x as [| | |q]; cbn; try discriminate; intros _.
  - split; [tauto | reflexivity].
  - split; [discriminate | tauto].
  - rewrite Qle_bool_iff. split.
    + intros H Hq. apply (Qlt_not_le _ _ Hq H).
    + intros H. apply Qnot_lt_le. exact H.
Qed.

Lemma positive_compared (x : number) :
  is_NaN x = false ->
  (num_le x (Finite 0) = false <-> positive x).
Proof.
  destruct x as [| | |q]; cbn; try discriminate; intros _.
  - split; [discriminate | contradiction].
  - split; [intros _; exact I | reflexivity].
  - rewrite <- not_true_iff_false, Qle_bool_iff. split.
    + apply Qnot_le_lt.
    + intros H Hq. apply (Qlt_not_le _ _ H Hq).
Qed.

Lemma compared_inside (lo hi : Q) (x : number) :
  is_NaN x = false ->
  (num_lt x (Finite lo) || num_gt x (Finite hi) = false <-> within lo hi x).
Proof.
  destruct x as [| | |q]; cbn; try discriminate; intros _;
    try (split; [discriminate | contradiction]).
  rewrite orb_false_iff, !negb_false_iff, !Qle_bool_iff. reflexivity.
Qed.

(** X17.  Every equalizer the builder writes by itself is one [equalizer]
    accepts: for each preset, [equalizer(EqualizerPresets[p])] returns
    normally and leaves the configuration [equalizerPreset(p)] leaves; the
    same holds for the bands of [bassboost] at every level and for the
    bands [nightcore] and [vaporwave] write. *)
Theorem builtin_equalizers_pass_validation (f : Config) :
  (forall p,
     equalizer (EqualizerPresets p) f = (equalizerPreset p f, inr tt)) /\
  (forall l,
     equalizer (bassboost_bands (default medium l)) f
     = (bassboost l f, inr tt)) /\
  (forall sp,
     equalizer effect_bands (nightcore sp f) = (nightcore sp f, inr tt) /\
     equalizer effect_bands (vaporwave sp f) = (vaporwave sp f, inr tt)).
Proof.
  split; [|split].
  - intros p. unfold equalizer, equalizerPreset.
    destruct p; reflexivity.
  - intros l. unfold equalizer, bassboost.
    destruct l as [[| | |]|]; reflexivity.
  - intros sp. split; reflexivity.
Qed.

(** X18.  For arguments without [NaN], the checked setters return normally
    exactly on the ranges their messages name: [volume] on [[0, 5]],
    [tremolo] on a frequency above 0 and a depth in [[0, 1]], [vibrato] on
    a frequency in [[0, 14]] and a depth in [[0, 1]], and [timescale] when
    each of [speed], [pitch] and [rate] that is given is above 0.  A call
    that throws leaves the configuration as it was. *)
Theorem checked_setters_accept_their_ranges (f : Config) :
  (forall v, is_NaN v = false ->
     (snd (set_volume v f) = inr tt <-> within 0 5 v)) /\
  (forall t, is_NaN (frequency t) = false -> is_NaN (depth t) = false ->
     (snd (tremolo t f) = inr tt <->
      positive (frequency t) /\ within 0 1 (depth t))) /\
  (forall t, is_NaN (frequency t) = false -> is_NaN (depth t) = false ->
     (snd (vibrato t f) = inr tt <->
      within 0 14 (frequency t) /\ within 0 1 (depth t))) /\
  (forall t,
     (forall x, speed t = Some x \/ pitch t = Some x \/ rate t = Some x ->
                is_NaN x = false) ->
     (snd (timescale t f) = inr tt <->
      (forall x, speed t = Some x \/ pitch t = Some x \/ rate t = Some x ->
                 positive x))) /\
  (forall msg,
     (forall v, snd (set_volume v f) = inl msg -> fst (set_volume v f) = f) /\
     (forall t, snd (tremolo t f) = inl msg -> fst (tremolo t f) = f) /\
     (forall t, snd (vibrato t f) = inl msg -> fst (vibrato t f) = f) /\
     (forall t, snd (timescale t f) = inl msg -> fst (timescale t f) = f)).
Proof.
  split; [|split; [|split; [|split]]].
  - intros v Hv. rewrite <- (compared_inside 0 5 v Hv). unfold set_volume.
    destruct (num_lt v (Finite 0) || num_gt v (Finite 5)); cbn [fst snd];
      split; (discriminate || reflexivity).
  - intros t Hf Hd.
    rewrite <- (positive_compared (frequency t) Hf).
    rewrite <- (compared_inside 0 1 (depth t) Hd). unfold tremolo.
    destruct (num_le (frequency t) (Finite 0)); cbn [fst snd].
    + split; [discriminate | intros [H _]; discriminate].
    + destruct (num_lt (depth t) (Finite 0) || num_gt (depth t) (Finite 1));
        cbn [fst snd]; split; try discriminate; try tauto;
        try (intros [_ H]; discriminate).
  - intros t Hf Hd.
    rewrite <- (compared_inside 0 14 (frequency t) Hf).
    rewrite <- (compared_inside 0 1 (depth t) Hd). unfold vibrato.
    destruct (num_lt (frequency t) (Finite 0)
              || num_gt (frequency t) (Finite 14)); cbn [fst snd].
    + split; [discriminate | intros [H _]; discriminate].
    + destruct (num_lt (depth t) (Finite 0) || num_gt (depth t) (Finite 1));
        cbn [fst snd]; split; try discriminate; try tauto;
        try (intros [_ H]; discriminate).
  - intros t Hnan.
    assert (Hgiven : forall x : option number,
              (forall v, x = Some v -> is_NaN v = false) ->
              (given_and_not_positive x = false <->
               forall v, x = Some v -> positive v)).
    { intros [v|] Hv; cbn [fst snd].
      - rewrite (positive_compared v (Hv v eq_refl)). split.
        + intros H v' [= <-]. exact H.
        + intros H. apply H. reflexivity.
      - split; [intros _ v; discriminate | reflexivity]. }
    pose proof (Hgiven (speed t) (fun v H => Hnan v (or_introl H))) as Hs.
    pose proof (Hgiven (pitch t)
                  (fun v H => Hnan v (or_intror (or_introl H)))) as Hp.
    pose proof (Hgiven (rate t)
                  (fun v H => Hnan v (or_intror (or_intror H)))) as Hr.
    unfold timescale.
    destruct (given_and_not_positive (speed t)); cbn [fst snd].
    { split; [discriminate|]. intros H. exfalso.
      assert (Hc : false = true -> False) by discriminate. apply Hc.
      symmetry. apply Hs. intros v Hv. apply H. left. exact Hv. }
    destruct (given_and_not_positive (pitch t)); cbn [fst snd].
    { split; [discriminate|]. intros H. exfalso.
      assert (Hc : false = true -> False) by discriminate. apply Hc.
      symmetry. apply Hp. intros v Hv. apply H. right. left. exact Hv. }
    destruct (given_and_not_positive (rate t)); cbn [fst snd].
    { split; [discriminate|]. intros H. exfalso.
      assert (Hc : false = true -> False) by discriminate. apply Hc.
      symmetry. apply Hr. intros v Hv. apply H. right. right. exact Hv. }
    split; [|reflexivity]. intros _ x [H|[H|H]].
    + apply (proj1 Hs eq_refl x H).
    + apply (proj1 Hp eq_refl x H).
    + apply (proj1 Hr eq_refl x H).
  - intros msg. split; [|split; [|split]].
    + intros v. unfold set_volume.
      destruct (num_lt v (Finite 0) || num_gt v (Finite 5)); cbn [fst snd];
        [reflexivity | discriminate].
    + intros t. unfold tremolo.
      destruct (num_le (frequency t) (Finite 0)); cbn [fst snd];
        [reflexivity|].
      destruct (num_lt (depth t) (Finite 0) || num_gt (depth t) (Finite 1));
        cbn [fst snd]; [reflexivity | discriminate].
    + intros t. unfold vibrato.
      destruct (num_lt (frequency t) (Finite 0)
                || num_gt (frequency t) (Finite 14)); cbn [fst snd];
        [reflexivity|].
      destruct (num_lt (depth t) (Finite 0) || num_gt (depth t) (Finite 1));
        cbn [fst snd]; [reflexivity | discriminate].
    + intros t. unfold timescale.
      destruct (given_and_not_positive (speed t)); cbn [fst snd];
        [reflexivity|].
      destruct (given_and_not_positive (pitch t)); cbn [fst snd];
        [reflexivity|].
      destruct (given_and_not_positive (rate t)); cbn [fst snd];
        [reflexivity | discriminate].
Qed.

Lemma spread_None_r {A} (a : option A) : spread a None = a.
Proof. reflexivity. Qed.

Lemma spread_None_l {A} (b : option A) : spread None b = b.
Proof. destruct b; reflexivity. Qed.

Lemma spread_twice {A} (a b : option A) : spread (spread a b) b = spread a b.
Proof. destruct b; reflexivity. Qed.

Lemma spread_assoc {A} (a b c : option A) :
  spread (spread a b) c = spread a (spread b c).
Proof. destruct c; reflexivity. Qed.

(** X19.  [mergeFilters] overrides key by key: merging [{}] changes
    nothing; merging into a cleared builder gives what [setFilters] gives;
    merging the same filters twice is merging them once; and merging [g]
    and then [h] is merging at once the filters [h] merged over [g].
    [getFilters] after [setFilters] returns the filters that were set. *)
Theorem mergeFilters_overrides_key_by_key (f g h : Config) :
  mergeFilters empty f = f /\
  mergeFilters g (clear f) = setFilters g f /\
  mergeFilters g (mergeFilters g f) = mergeFilters g f /\
  mergeFilters h (mergeFilters g f) = mergeFilters (mergeFilters h g) f /\
  getFilters (setFilters g f) = g.
Proof.
  split; [|split; [|split; [|split]]].
  - destruct f as [v e [k t tr vi r d c l]]. reflexivity.
  - destruct g as [v e [k t tr vi r d c l]].
    unfold mergeFilters, clear, setFilters, empty, no_others.
    cbn [volume equalizer_bands others karaoke_filter timescale_filter
         tremolo_filter vibrato_filter rotation_filter distortion_filter
         channelMix_filter lowPass_filter].
    rewrite !spread_None_l. reflexivity.
  - unfold mergeFilters.
    cbn [volume equalizer_bands others karaoke_filter timescale_filter
         tremolo_filter vibrato_filter rotation_filter distortion_filter
         channelMix_filter lowPass_filter].
    rewrite !spread_twice. reflexivity.
  - unfold mergeFilters.
    cbn [volume equalizer_bands others karaoke_filter timescale_filter
         tremolo_filter vibrato_filter rotation_filter distortion_filter
         channelMix_filter lowPass_filter].
    rewrite !spread_assoc. reflexivity.
  - reflexivity.
Qed.

(** X20.  Every setter of the builder writes the keys it is named for and
    no other: once those keys are cleared, the configuration after the call
    is the configuration before it, whether the call returned or threw. *)
Theorem setters_write_only_their_keys (s : Setter DistortionFilter ChannelMixFilter)
    (f : Config) :
  clearFilters (keys_of s) (fst (call s f)) = clearFilters (keys_of s) f.
Proof.
  destruct f as [v e [k t tr vi r d c l]].
  destruct s; cbn [call keys_of returns fst].
  - unfold set_volume.
    destruct (num_lt _ _ || num_gt _ _); reflexivity.
  - unfold equalizer. destruct (equalizer_check bands); reflexivity.
  - reflexivity.
  - reflexivity.
  - unfold timescale.
    destruct (given_and_not_positive (speed options)); [reflexivity|].
    destruct (given_and_not_positive (pitch options)); [reflexivity|].
    destruct (given_and_not_positive (rate options)); reflexivity.
  - unfold tremolo.
    destruct (num_le _ _); [reflexivity|].
    destruct (num_lt _ _ || num_gt _ _); reflexivity.
  - unfold vibrato.
    destruct (num_lt (frequency options) _ || num_gt (frequency options) _);
      [reflexivity|].
    destruct (num_lt _ _ || num_gt _ _); reflexivity.
  - reflexivity.
  - reflexivity.
  - reflexivity.
  - reflexivity.
  - reflexivity.
  - reflexivity.
  - reflexivity.
  - reflexivity.
  - reflexivity.
Qed.

(** X21.  [nightcore(speed)] stores the timescale [{speed, pitch: speed,
    rate: 1}] and replaces the equalizer, without the check of
    [timescale]: for a speed above 0 it leaves what [timescale] followed by
    [equalizer] leaves, and for a speed that is 0 or negative it stores the
    very timescale that [timescale] rejects.  The same holds for
    [vaporwave], which sets the tremolo as well. *)
Theorem nightcore_skips_the_timescale_check (sp : option number) (f : Config) :
  let v := default (Finite 1.3) sp in
  let w := default (Finite 0.8) sp in
  let ts x := mkTimescale (Some x) (Some x) (Some (Finite 1)) in
  (timescale_filter (others (nightcore sp f)) = Some (ts v) /\
   equalizer_bands (nightcore sp f) = Some effect_bands /\
   timescale_filter (others (vaporwave sp f)) = Some (ts w) /\
   equalizer_bands (vaporwave sp f) = Some effect_bands /\
   tremolo_filter (others (vaporwave sp f))
     = Some (mkOscillation (Finite 4) (Finite 0.5))) /\
  (num_le v (Finite 0) = false ->
   timescale (ts v) f = (set_timescale (ts v) f, inr tt) /\
   equalizer effect_bands (set_timescale (ts v) f) = (nightcore sp f, inr tt)) /\
  (num_le v (Finite 0) = true ->
   timescale (ts v) f = (f, inl "Timescale speed must be greater than 0")) /\
  (num_le w (Finite 0) = true ->
   timescale (ts w) f = (f, inl "Timescale speed must be greater than 0")).
Proof.
  intros v w ts. split; [repeat split; reflexivity|].
  split; [|split].
  - intros H. split; [|reflexivity].
    unfold timescale, ts. cbn [speed pitch rate given_and_not_positive].
    rewrite H. reflexivity.
  - intros H. unfold timescale, ts. cbn [speed given_and_not_positive].
    rewrite H. reflexivity.
  - intros H. unfold timescale, ts. cbn [speed given_and_not_positive].
    rewrite H. reflexivity.
Qed.

End FilterBuilderFacts.

(** * Properties of AutoPlay *)

Section AutoPlayFacts.

Import AutoPlay.

Lemma has_elem_of (h : list string) (id : string) :
  has h id = true <-> id ∈ h.
Proof.
  unfold has. rewrite existsb_exists. split.
  - intros (x & Hx & He). apply String.eqb_eq in He. subst x.
    apply list_elem_of_In. exact Hx.
  - intros H. exists id. split; [apply list_elem_of_In; exact H|].
    apply String.eqb_refl.
Qed.

Lemma delete_first (x : string) (l : list string) :
  x ∉ l -> delete (x :: l) x = l.
Proof.
  intros Hx. unfold delete. cbn. rewrite String.eqb_refl. cbn.
  induction l as [|y l IH]; [reflexivity|].
  cbn. destruct (String.eqb_spec x y) as [->|Hne].
  - exfalso. apply Hx. left.
  - cbn. f_equal. apply IH. intros H. apply Hx. right. exact H.
Qed.

Lemma truthy_nonempty (id : string) : truthy (Some id) = true <-> id <> "".
Proof.
  cbn. rewrite negb_true_iff. split.
  - intros H ->. discriminate.
  - intros H. apply String.eqb_neq. exact H.
Qed.

(** What [remember] does to a tidy history. *)
Lemma remember_tidy (h : list string) (id : string) :
  tidy h -> id <> "" ->
  remember h (Some id) =
    (if has h id then h
     else if (length h <? maxHistorySize)%nat then h ++ [id]
     else tail h ++ [id])%list /\
  tidy (remember h (Some id)).
Proof.
  intros (Hnd & Hne & Hlen) Hid. unfold remember.
  rewrite (proj2 (truthy_nonempty id) Hid). unfold add.
  destruct (has h id) eqn:Hhas.
  - assert (E : (maxHistorySize <? length h)%nat = false)
      by (apply Nat.ltb_ge; exact Hlen).
    rewrite E. split; [reflexivity | repeat split; assumption].
  - assert (Hnotin : id ∉ h)
      by (rewrite <- has_elem_of, Hhas; discriminate).
    rewrite length_app. cbn [length].
    destruct (Nat.ltb_spec (length h) maxHistorySize) as [Hlt|Hge].
    + assert (E : (maxHistorySize <? length h + 1)%nat = false)
        by (apply Nat.ltb_ge; lia).
      rewrite E. split; [reflexivity|].
      repeat split.
      * apply NoDup_app. repeat split; [exact Hnd | | apply NoDup_singleton].
        intros x Hx Hx'. apply list_elem_of_singleton in Hx'. subst x.
        contradiction.
      * rewrite elem_of_app, list_elem_of_singleton. intros [H|H];
          [contradiction | apply Hid; symmetry; exact H].
      * rewrite length_app. cbn. lia.
    + assert (E : (maxHistorySize <? length h + 1)%nat = true)
        by (apply Nat.ltb_lt; lia).
      rewrite E.
      destruct h as [|x l]; [cbn in Hge; unfold maxHistorySize in Hge; lia|].
      cbn [app tail].
      assert (Hx : x <> "") by (intros ->; apply Hne; left).
      rewrite (proj2 (truthy_nonempty x) Hx).
      apply NoDup_cons in Hnd as [Hxl Hnd].
      assert (Hdel : delete (x :: l ++ [id]) x = (l ++ [id])%list).
      { apply delete_first. rewrite elem_of_app, list_elem_of_singleton.
        intros [H|H]; [contradiction|]. subst x. apply Hnotin. left. }
      rewrite Hdel. split; [reflexivity|].
      repeat split.
      * apply NoDup_app. repeat split; [exact Hnd | | apply NoDup_singleton].
        intros y Hy Hy'. apply list_elem_of_singleton in Hy'. subst y.
        apply Hnotin. right. exact Hy.
      * rewrite elem_of_app, list_elem_of_singleton. intros [H|H].
        -- apply Hne. right. exact H.
        -- apply Hid. symmetry. exact H.
      * rewrite length_app. cbn in *. lia.
Qed.

Lemma remember_keeps_tidy (h : list string) (identifier : option string) :
  tidy h -> tidy (remember h identifier).
Proof.
  intros Hh. destruct identifier as [id|]; [|exact Hh].
  destruct (String.eqb_spec id "") as [->|Hid]; [exact Hh|].
  apply remember_tidy; assumption.
Qed.

Lemma history_of_execute w h previousTrack :
  fst (fst (execute w h previousTrack)) =
    match previousTrack with
    | Some t =>
        if isConnected w
        then remember h (or_else (identifier (info t)) (uri (info t)))
        else h
    | None => h
    end.
Proof.
  destruct previousTrack as [t|]; [|reflexivity]. unfold execute.
  destruct (isConnected w); cbn [negb]; [|reflexivity].
  destruct (handler w _ t) as [tr [e|b]]; reflexivity.
Qed.

(** X22.  The history of played identifiers stays bounded: after any
    sequence of calls of [execute] and [clearHistory] on a new [AutoPlay],
    [getHistorySize()] is at most [maxHistorySize] (50), and the history
    holds no identifier twice and no empty identifier. *)
Theorem history_stays_bounded calls :
  (getHistorySize (history_after calls []) <= maxHistorySize)%nat /\
  NoDup (history_after calls []) /\
  "" ∉ history_after calls [].
Proof.
  assert (H : forall calls h, tidy h -> tidy (history_after calls h)).
  { clear. intros calls. induction calls as [|[w t|] calls IH]; intros h Hh.
    - exact Hh.
    - cbn [history_after]. apply IH. rewrite history_of_execute.
      destruct t as [t|]; [|exact Hh].
      destruct (isConnected w); [|exact Hh].
      apply remember_keeps_tidy. exact Hh.
    - cbn [history_after]. apply IH. unfold clearHistory.
      repeat split; [apply NoDup_nil_2 | apply not_elem_of_nil |].
      cbn. unfold maxHistorySize. lia. }
  assert (H0 : tidy []).
  { repeat split; [apply NoDup_nil_2 | apply not_elem_of_nil |].
    cbn. unfold maxHistorySize. lia. }
  destruct (H calls [] H0) as (H1 & H2 & H3). auto.
Qed.

(** X23.  [execute] remembers first in, first out.  On a connected node,
    for a previous track whose identifier (or, failing that, URI) is [id]:
    a known [id] leaves the history as it is; a new one is put last, and if
    the history was full the oldest entry is dropped.  Either way [id] is
    in the history afterwards.  Without a previous track, or with a node
    that is not connected, the history is unchanged. *)
Theorem execute_remembers_first_in_first_out w h t id :
  tidy h ->
  or_else (identifier (info t)) (uri (info t)) = Some id ->
  id <> "" ->
  (isConnected w = true ->
   fst (fst (execute w h (Some t))) =
     (if has h id then h
      else if (length h <? maxHistorySize)%nat then h ++ [id]
      else tail h ++ [id])%list /\
   id ∈ fst (fst (execute w h (Some t)))) /\
  (isConnected w = false -> fst (fst (execute w h (Some t))) = h) /\
  fst (fst (execute w h None)) = h.
Proof.
  intros Hh Hor Hid.
  split; [|split].
  - intros Hc. rewrite history_of_execute, Hc, Hor.
    destruct (remember_tidy h id Hh Hid) as [-> _].
    split; [reflexivity|].
    destruct (has h id) eqn:Hhas; [apply has_elem_of; exact Hhas|].
    destruct (length h <? maxHistorySize)%nat;
      rewrite elem_of_app, list_elem_of_singleton; right; reflexivity.
  - intros Hc. rewrite history_of_execute, Hc. reflexivity.
  - reflexivity.
Qed.

Lemma pick_elem_of {A} (r : Q) (l : list A) (x : A) :
  pick r l = Some x -> x ∈ l.
Proof.
  unfold pick. destruct (_ <? 0)%Z; [discriminate|].
  apply list_elem_of_lookup_2.
Qed.

Lemma filter_elem_of (h : list string) (l : list Track) (x : Track) :
  x ∈ List.filter (unplayed h) l -> x ∈ l /\ unplayed h x = true.
Proof.
  rewrite !list_elem_of_In, filter_In. tauto.
Qed.

Lemma filter_none (h : list string) (l : list Track) :
  (length (List.filter (unplayed h) l) =? 0)%nat = true ->
  forall y, y ∈ l -> unplayed h y = false.
Proof.
  intros H y Hy. apply Nat.eqb_eq, length_zero_iff_nil in H.
  destruct (unplayed h y) eqn:E; [|reflexivity].
  assert (Hin : In y (List.filter (unplayed h) l))
    by (apply filter_In; split; [apply list_elem_of_In; exact Hy | exact E]).
  rewrite H in Hin. contradiction.
Qed.

(** The track picked among the unplayed tracks of [tracks], or among all of
    them when none is unplayed. *)
Lemma pick_available (h : list string) (tracks : list Track) r x :
  pick r (if (length (List.filter (unplayed h) tracks) =? 0)%nat
          then tracks else List.filter (unplayed h) tracks) = Some x ->
  x ∈ tracks /\
  (unplayed h x = true \/ forall y, y ∈ tracks -> unplayed h y = false).
Proof.
  destruct (length (List.filter (unplayed h) tracks) =? 0)%nat eqn:E;
    intros Hp; apply pick_elem_of in Hp.
  - split; [exact Hp | right; apply filter_none; exact E].
  - apply filter_elem_of in Hp as [H1 H2]. auto.
Qed.

Ltac unfold_R :=
  unfold do_search, add_and_play, await_play, debug, act, await;
  unfold mbind, mret, R_mbind, R_mret, R_bind, R_ret.

Ltac no_play :=
  repeat (apply not_elem_of_cons; split; [discriminate|]);
  apply not_elem_of_nil.

Ltac nothing_added := split; [reflexivity | no_play].

Ltac in_trace := apply list_elem_of_In; cbn; auto 10.

(** The last steps of the handlers, from the track picked on. *)
Ltac picked w h Hs Hx Hu :=
  destruct (play w) as [e|] eqn:Hplay; cbn;
  [ right; eexists; split; [reflexivity|]; split; [|exact Hplay];
    eexists _, _, _, _; split; [exact Hs|]; split; [in_trace|];
    split; [exact Hx | exact Hu]
  | eexists; split; [reflexivity|]; split;
    [ eexists _, _, _, _; split; [exact Hs|]; split; [in_trace|];
      split; [exact Hx | exact Hu]
    | split; [in_trace | exact Hplay] ] ].

(** The choice among the tracks [ts] of the search [Hs], and what follows
    it. *)
Ltac choose w h ts Hs :=
  let Hnone := fresh "Hnone" in
  let E := fresh "E" in
  let x := fresh "x" in
  let Hp := fresh "Hp" in
  let Hx := fresh "Hx" in
  let Hu0 := fresh "Hu0" in
  let Hu := fresh "Hu" in
  pose proof (filter_none h ts) as Hnone;
  destruct (length (List.filter (unplayed h) ts) =? 0)%nat eqn:E;
  [ try (destruct (length ts =? 0)%nat; [cbn; nothing_added|]);
    destruct (pick (random w) ts) as [x|] eqn:Hp; [|cbn; nothing_added];
    apply pick_elem_of in Hp;
    assert (Hu : unplayed h x = true \/
                 forall y, y ∈ ts -> unplayed h y = false)
      by (right; exact (Hnone eq_refl));
    picked w h Hs Hp Hu
  | try rewrite E;
    destruct (pick (random w) _) as [x|] eqn:Hp; [|cbn; nothing_added];
    apply pick_elem_of, filter_elem_of in Hp as [Hx Hu0];
    assert (Hu : unplayed h x = true \/
                 forall y, y ∈ ts -> unplayed h y = false)
      by (left; exact Hu0);
    picked w h Hs Hx Hu ].

Lemma handleYouTube_accounted w h t : accounted w h (handleYouTube w h t).
Proof.
  unfold handleYouTube. unfold_R.
  destruct (identifier (info t)) as [id|]; [|cbn; nothing_added].
  destruct (negb (truthy (Some id))); [cbn; nothing_added|].
  cbn [app].
  destruct (search w 0 _ "ytsearch") as [e|res] eqn:Hs;
    [cbn; left; nothing_added|].
  destruct res as [| |ts|ts|x0]; try (cbn; nothing_added).
  - choose w h ts Hs.
  - choose w h ts Hs.
  - choose w h [x0] Hs.
Qed.

Lemma handleSoundCloud_accounted w h t :
  accounted w h (handleSoundCloud w h t).
Proof.
  unfold handleSoundCloud. unfold_R.
  destruct (negb (truthy (uri (info t)))); [cbn; nothing_added|].
  cbn [app].
  destruct (search w 0 _ "scsearch") as [e|res] eqn:Hs;
    [cbn; left; nothing_added|].
  destruct res as [| |ts|ts|x0]; try (cbn; nothing_added).
  - choose w h ts Hs.
  - choose w h [x0] Hs.
Qed.

Lemma handleSpotifyArtistFallback_accounted w h t :
  accounted w h (handleSpotifyArtistFallback w h t).
Proof.
  unfold handleSpotifyArtistFallback. unfold_R.
  destruct (author (info t)) as [artist|]; [|cbn; nothing_added].
  destruct (negb (truthy (Some artist))); [cbn; nothing_added|].
  cbn [app].
  destruct (search w 1 _ "spsearch") as [e|res] eqn:Hs;
    [cbn; left; nothing_added|].
  destruct res as [| |ts|ts|x0]; try (cbn; nothing_added).
  - destruct (length ts =? 0)%nat eqn:El; [cbn; nothing_added|].
    choose w h ts Hs.
  - cbn [length Nat.eqb]. choose w h [x0] Hs.
Qed.

Lemma added_harmless (pre : list Action) :
  Forall harmless pre -> added pre = [].
Proof.
  induction 1 as [|a pre Ha _ IH]; [reflexivity|].
  destruct a; try contradiction; exact IH.
Qed.

Lemma play_after_harmless (pre t : list Action) :
  Forall harmless pre -> (Play ∈ (pre ++ t)%list <-> Play ∈ t).
Proof.
  intros Hpre. rewrite elem_of_app. split; [|auto].
  intros [H|H]; [|exact H].
  rewrite Forall_forall in Hpre. destruct (Hpre _ H).
Qed.

Lemma chosen_from_later w h (pre t : list Action) x :
  chosen_from w h t x -> chosen_from w h (pre ++ t)%list x.
Proof.
  intros (i & q & src & res & H1 & H2 & H3 & H4).
  exists i, q, src, res. repeat split; try assumption.
  apply elem_of_app. right. exact H2.
Qed.

Lemma accounted_later w h (pre t : list Action) (r : Thrown + bool) :
  Forall harmless pre -> accounted w h (t, r) ->
  accounted w h ((pre ++ t)%list, r).
Proof.
  intros Hpre.
  assert (Ha : added (pre ++ t)%list = added t).
  { unfold added. rewrite omap_app. fold (added pre).
    rewrite (added_harmless pre Hpre). reflexivity. }
  pose proof (play_after_harmless pre t Hpre) as Hp.
  destruct r as [e|[|]]; cbn; rewrite Ha.
  - intros [[H1 H2]|(x & H1 & H2 & H3)].
    + left. split; [exact H1 | rewrite Hp; exact H2].
    + right. exists x. repeat split; try assumption.
      apply chosen_from_later. exact H2.
  - intros (x & H1 & H2 & H3 & H4). exists x.
    split; [exact H1|]. split; [apply chosen_from_later; exact H2|].
    split; [apply Hp; exact H3 | exact H4].
  - intros [H1 H2]. split; [exact H1 | rewrite Hp; exact H2].
Qed.

Lemma handleSpotify_accounted w h t : accounted w h (handleSpotify w h t).
Proof.
  pose proof (handleSpotifyArtistFallback_accounted w h t) as Hfb.
  unfold handleSpotify. unfold_R.
  destruct (identifier (info t)) as [id|]; [|cbn; nothing_added].
  destruct (negb (truthy (Some id))); [cbn; nothing_added|].
  cbn [app].
  destruct (search w 0 _ "spsearch") as [e|res] eqn:Hs;
    [cbn; left; nothing_added|].
  destruct res as [| |ts|ts|x0].
  - destruct (handleSpotifyArtistFallback w h t) as [t' r].
    apply (accounted_later w h [_; _; _] t' r);
      [repeat constructor | exact Hfb].
  - destruct (handleSpotifyArtistFallback w h t) as [t' r].
    apply (accounted_later w h [_; _; _] t' r);
      [repeat constructor | exact Hfb].
  - destruct (length ts =? 0)%nat eqn:El.
    + destruct (handleSpotifyArtistFallback w h t) as [t' r].
      apply (accounted_later w h [_; _; _] t' r);
        [repeat constructor | exact Hfb].
    + choose w h ts Hs.
  - destruct (length ts =? 0)%nat eqn:El.
    + destruct (handleSpotifyArtistFallback w h t) as [t' r].
      apply (accounted_later w h [_; _; _] t' r);
        [repeat constructor | exact Hfb].
    + choose w h ts Hs.
  - cbn [length Nat.eqb]. choose w h [x0] Hs.
Qed.

(** The [switch] of [execute]: the names "soundcloud" and "spotify" have
    handlers of their own, every other source (and none) goes to
    [handleYouTube]. *)
Lemma handler_routes w h t :
  handler w h t =
    match sourceName (info t) with
    | Some s =>
        if String.eqb s "soundcloud" then handleSoundCloud w h t
        else if String.eqb s "spotify" then handleSpotify w h t
        else handleYouTube w h t
    | None => handleYouTube w h t
    end.
Proof.
  unfold handler. destruct (sourceName (info t)) as [s|]; [|reflexivity].
  repeat (match goal with
          | |- context [match ?x with _ => _ end] =>
              is_var x; destruct x
          end; try reflexivity).
Qed.

Lemma handler_accounted w h t : accounted w h (handler w h t).
Proof.
  rewrite handler_routes.
  destruct (sourceName (info t)) as [s|];
    [|apply handleYouTube_accounted].
  destruct (String.eqb s "soundcloud"); [apply handleSoundCloud_accounted|].
  destruct (String.eqb s "spotify");
    [apply handleSpotify_accounted | apply handleYouTube_accounted].
Qed.

Lemma added_snoc_debug (t : list Action) msg :
  added (t ++ [Debug_line msg]) = added t.
Proof. unfold added. rewrite omap_app. cbn. apply app_nil_r. Qed.

Lemma play_snoc_debug (t : list Action) msg :
  Play ∈ (t ++ [Debug_line msg])%list <-> Play ∈ t.
Proof.
  rewrite elem_of_app, list_elem_of_singleton. split; [|auto].
  intros [H|H]; [exact H | discriminate].
Qed.

Lemma chosen_from_earlier w h (t post : list Action) x :
  chosen_from w h t x -> chosen_from w h (t ++ post)%list x.
Proof.
  intros (i & q & src & res & H1 & H2 & H3 & H4).
  exists i, q, src, res. repeat split; try assumption.
  apply elem_of_app. left. exact H2.
Qed.

(** X24.  What [execute] returns accounts for the queue.  When it returns
    [true], exactly one track has been added and [play()] has been called
    and has resolved; the track is one of the tracks a search of this run
    returned, and it is not in the history (which by then holds the
    previous track), unless that search returned no track that is not.
    When it returns [false], either nothing has been added and [play()]
    has not been called, or one such track has been added and [play()]
    rejected.  Rejections of [search] and [play] are caught. *)
Theorem execute_accounts_for_the_queue w h previousTrack :
  let h' := fst (fst (execute w h previousTrack)) in
  let t := snd (fst (execute w h previousTrack)) in
  (snd (execute w h previousTrack) = true ->
   exists x, added t = [x] /\ chosen_from w h' t x /\
             Play ∈ t /\ play w = None) /\
  (snd (execute w h previousTrack) = false ->
   (added t = [] /\ Play ∉ t) \/
   (exists x e, added t = [x] /\ chosen_from w h' t x /\ play w = Some e)).
Proof.
  unfold execute.
  destruct previousTrack as [p|]; cbn zeta;
    [|cbn; split; [discriminate | intros _; left; nothing_added]].
  destruct (negb (isConnected w));
    [cbn; split; [discriminate | intros _; left; nothing_added]|].
  set (h' := remember h _).
  pose proof (handler_accounted w h' p) as Hacc.
  destruct (handler w h' p) as [tr r].
  assert (Hall : forall msg, accounted w h' (Debug_line msg :: tr, r)).
  { intros msg. apply (accounted_later w h' [Debug_line msg] tr r);
      [repeat constructor | exact Hacc]. }
  destruct r as [e|b]; cbn [fst snd].
  - split; [discriminate|]. intros _.
    match goal with
    | |- context [(Debug_line ?m :: tr ++ ?post)%list] =>
        pose proof (Hall m) as H;
        change (Debug_line m :: tr ++ post)%list
          with ((Debug_line m :: tr) ++ post)%list
    end.
    rewrite added_snoc_debug, play_snoc_debug.
    cbn [accounted] in H. destruct H as [[H1 H2]|(x & H1 & H2 & H3)].
    + left. split; assumption.
    + right. exists x, e. repeat split; try assumption.
      apply chosen_from_earlier. exact H2.
  - match goal with
    | |- context [Debug_line ?m :: tr] => pose proof (Hall m) as H
    end.
    cbn [accounted] in H. destruct b.
    + split; [intros _; exact H | discriminate].
    + split; [discriminate | intros _; left; exact H].
Qed.

Lemma pick_in_range {A} (r : Q) (l : list A) :
  (0 <= r < 1)%Q -> l <> [] -> exists x, pick r l = Some x.
Proof.
  intros [Hr0 Hr1] Hl. unfold pick.
  assert (Hn : (0 < length l)%nat) by (destruct l; [contradiction | cbn; lia]).
  set (n := inject_Z (Z.of_nat (length l))).
  assert (Hn0 : (0 < n)%Q).
  { unfold n. change 0%Q with (inject_Z 0). rewrite <- Zlt_Qlt. lia. }
  assert (Hlo : (0 <= Qfloor (r * n))%Z).
  { change 0%Z with (Qfloor (inject_Z 0)). apply Qfloor_resp_le.
    apply Qmult_le_0_compat; [exact Hr0 | apply Qlt_le_weak; exact Hn0]. }
  assert (Hhi : (Qfloor (r * n) < Z.of_nat (length l))%Z).
  { rewrite Zlt_Qlt. fold n.
    eapply Qle_lt_trans; [apply Qfloor_le|]. nra. }
  destruct (Z.ltb_spec (Qfloor (r * n)) 0) as [H|_]; [lia|].
  apply lookup_lt_is_Some_2. lia.
Qed.

(** X25.  [execute] succeeds on the YouTube path: with a connected node, a
    previous track that has an identifier and whose source is neither
    "soundcloud" nor "spotify", a search of the track's radio playlist that
    returns at least one track, a drawn value in [[0, 1)] and a [play()]
    that resolves, [execute] returns [true]. *)
Theorem execute_plays_a_recommendation w h t id result :
  isConnected w = true ->
  identifier (info t) = Some id ->
  id <> "" ->
  sourceName (info t) <> Some "soundcloud" ->
  sourceName (info t) <> Some "spotify" ->
  search w 0 ("https://www.youtube.com/watch?v=" ++ id ++ "&list=RD" ++ id)
         "ytsearch" = inr result ->
  tracks_of result <> [] ->
  (0 <= random w < 1)%Q ->
  play w = None ->
  snd (execute w h (Some t)) = true.
Proof.
  intros Hc Hid Hne Hsc Hsp Hs Hts Hr Hplay.
  unfold execute. rewrite Hc. cbn [negb].
  set (h' := remember h _).
  assert (Hh : handler w h' t = handleYouTube w h' t).
  { rewrite handler_routes. destruct (sourceName (info t)) as [s|];
      [|reflexivity].
    destruct (String.eqb_spec s "soundcloud") as [->|_]; [contradiction|].
    destruct (String.eqb_spec s "spotify") as [->|_]; [contradiction|].
    reflexivity. }
  rewrite Hh. unfold handleYouTube. rewrite Hid.
  rewrite (proj2 (truthy_nonempty id) Hne). cbn [negb].
  unfold_R. cbn [app]. rewrite Hs.
  assert (Hpick : forall ts : list Track, ts <> [] ->
            exists x, pick (random w)
              (if (length (List.filter (unplayed h') ts) =? 0)%nat
               then ts else List.filter (unplayed h') ts) = Some x).
  { intros ts Hne'. apply pick_in_range; [exact Hr|].
    destruct (Nat.eqb_spec (length (List.filter (unplayed h') ts)) 0)
      as [E|E]; [exact Hne'|].
    intros E'. rewrite E' in E. contradiction. }
  assert (Hlen : forall ts : list Track, ts <> [] ->
                   (length ts =? 0)%nat = false).
  { intros ts Hne'. apply Nat.eqb_neq. intros E.
    apply length_zero_iff_nil in E. contradiction. }
  destruct result as [| |ts|ts|x0]; cbn [tracks_of] in Hts;
    try contradiction.
  - destruct (Hpick ts Hts) as [x Hx].
    destruct (length (List.filter (unplayed h') ts) =? 0)%nat eqn:E.
    + rewrite (Hlen ts Hts), Hx, Hplay. reflexivity.
    + rewrite E, Hx, Hplay. reflexivity.
  - destruct (Hpick ts Hts) as [x Hx].
    destruct (length (List.filter (unplayed h') ts) =? 0)%nat eqn:E.
    + rewrite (Hlen ts Hts), Hx, Hplay. reflexivity.
    + rewrite E, Hx, Hplay. reflexivity.
  - destruct (Hpick [x0] Hts) as [x Hx].
    destruct (length (List.filter (unplayed h') [x0]) =? 0)%nat eqn:E.
    + rewrite (Hlen [x0] Hts), Hx, Hplay. reflexivity.
    + rewrite E, Hx, Hplay. reflexivity.
Qed.

End AutoPlayFacts.

(** * Instances of the further properties *)

Section VoiceForwarderInstances.

Import VoiceForwarder.

(** An instance of X1: a server event for guild [h] leaves guild [g]
    alone. *)
Lemma handleVoiceUpdate_touches_one_guild_witness :
  packet_guild server_elsewhere <> Some "g" /\
  o_store (handleVoiceUpdate bot server_elsewhere (Some player1)
             (o_store (handleVoiceUpdate bot joined (Some player1) ∅))) !! "g"
  = o_store (handleVoiceUpdate bot joined (Some player1) ∅) !! "g".
Proof.
  assert (H : packet_guild server_elsewhere <> Some "g") by discriminate.
  split; [exact H|].
  exact (handleVoiceUpdate_touches_one_guild bot server_elsewhere
           (Some player1) _ "g" H).
Defined.

(** An instance of X2. *)
Lemma entries_stay_well_kept_witness :
  o_result (getVoiceState "g"
    (operate bot [Op_handleVoiceUpdate joined (Some player1);
                  Op_handleVoiceUpdate server (Some player1)] ∅))
  = inr (Some (mkVoiceConnection "g" (Some "c1") (Some "sess")
                                 (Some "T") (Some "E"))) /\
  guildId (mkVoiceConnection "g" (Some "c1") (Some "sess")
                             (Some "T") (Some "E")) = "g".
Proof.
  assert (H : o_result (getVoiceState "g"
    (operate bot [Op_handleVoiceUpdate joined (Some player1);
                  Op_handleVoiceUpdate server (Some player1)] ∅))
  = inr (Some (mkVoiceConnection "g" (Some "c1") (Some "sess")
                                 (Some "T") (Some "E"))))
    by (vm_compute; reflexivity).
  split; [exact H|].
  exact (proj1 (entries_stay_well_kept bot _ "g" _ H)).
Defined.

(** An instance of X4: the server event arrives for a player whose node
    is gone. *)
Lemma what_handleVoiceUpdate_throws_witness :
  let o := handleVoiceUpdate bot server (Some stranded)
             (o_store (handleVoiceUpdate bot joined (Some player1) ∅)) in
  o_result o = inl "Node not connected" /\
  exists p, Some stranded = Some p /\
    (("Node not connected" = "Incomplete voice state" /\
      forwards (o_trace o) = [] /\
      exists g v, packet_guild server = Some g /\
                  o_store o !! g = Some v /\ complete v = false) \/
     (exists g v, packet_guild server = Some g /\
                  o_store o !! g = Some v /\ complete v = true /\
                  forwards (o_trace o) = [credential v] /\
                  updateVoiceState p (credential v)
                    = Some "Node not connected") \/
     (exists d, server = VOICE_STATE_UPDATE d /\
                st_user_id d = bot /\ truthy (st_channel_id d) = false /\
                disconnect p = Some "Node not connected" /\
                o_store o !! st_guild_id d = None /\
                forwards (o_trace o) = [] /\
                Player_disconnect p ∈ o_trace o)).
Proof.
  intros o.
  assert (H : o_result o = inl "Node not connected")
    by (vm_compute; reflexivity).
  split; [exact H|].
  exact (what_handleVoiceUpdate_throws bot server (Some stranded) _ _ H).
Defined.

End VoiceForwarderInstances.

Section HttpInstances.

Import Http.

(** An instance of X8: a call that brings its own [Authorization]. *)
Lemma request_headers_prefer_the_call_witness :
  exists call,
    fetch_call local_node override_auth = Some call /\
    f_url call = "http://localhost:2333/version" /\
    f_headers call !! "Authorization" = Some "other" /\
    f_headers call !! "Content-Type" = Some "application/json".
Proof.
  destruct (fetch_call local_node override_auth) as [call|] eqn:Hcall;
    [|discriminate Hcall].
  exists call. split; [reflexivity|].
  destruct (request_headers_prefer_the_call local_node override_auth call Hcall)
    as (Hurl & _ & Hown & Hclient).
  split; [rewrite Hurl; reflexivity|].
  split.
  - apply Hown. vm_compute. reflexivity.
  - rewrite Hclient by (vm_compute; reflexivity). vm_compute. reflexivity.
Defined.

(** An instance of X9: a [204 No Content] answer. *)
Lemma request_resolves_only_on_ok_witness :
  request local_node get_version no_content_fetch = Fulfilled Empty_object /\
  exists call response,
    fetch_call local_node get_version = Some call /\
    no_content_fetch call = Fulfilled response /\
    ok response = true.
Proof.
  assert (H : request local_node get_version no_content_fetch
              = Fulfilled Empty_object) by (vm_compute; reflexivity).
  split; [exact H|].
  destruct (request_resolves_only_on_ok local_node get_version
              no_content_fetch Empty_object H)
    as (call & response & Hcall & Hfetch & Hok & _).
  exists call, response. auto.
Defined.

End HttpInstances.

Section BackoffInstances.

Import Double Backoff.

Local Open Scope Q_scope.

(** An instance of X11: one of three attempts used. *)
Lemma remaining_attempts_agree_witness :
  (0 < maxAttempts three_attempts)%Z /\
  hasReachedMaxAttempts (mkBackoff 1 three_attempts) = false /\
  getRemainingAttempts
    (fst (next (Fin (1#2)) (mkBackoff 1 three_attempts))) = 1%Z.
Proof.
  assert (H : (0 < maxAttempts three_attempts)%Z) by (vm_compute; reflexivity).
  split; [exact H|].
  split; [reflexivity|].
  destruct (remaining_attempts_agree three_attempts 1 (Fin (1#2)) H)
    as (_ & _ & Hnext & _).
  destruct (Hnext eq_refl) as [_ Hrem].
  rewrite Hrem. reflexivity.
Defined.

(** An instance of X13: the third delay of a backoff without jitter. *)
Lemma next_without_jitter_witness :
  drawn (Fin (1#2)) /\
  between 0 0 (jitter (options no_jitter)) /\
  hasReachedMaxAttempts no_jitter = false /\
  exists d d',
    capped (options no_jitter) 2 = Fin d /\
    capped (options no_jitter) 3 = Fin d' /\
    snd (next (Fin (1#2)) no_jitter) = inr (Fin (inject_Z (Qfloor d))) /\
    (0 <= Qfloor d <= Qfloor d')%Z.
Proof.
  assert (Hr : drawn (Fin (1#2)))
    by (split; [reflexivity | split; [discriminate | reflexivity]]).
  assert (Hj : between 0 0 (jitter (options no_jitter)))
    by (split; [reflexivity | split; discriminate]).
  assert (Hb : nonnegative (baseDelay (options no_jitter)))
    by (split; [reflexivity | discriminate]).
  assert (Hm : between 0 (inject_Z (2 ^ 52)) (maxDelay (options no_jitter)))
    by (split; [reflexivity | split; discriminate]).
  assert (Hn : hasReachedMaxAttempts no_jitter = false) by reflexivity.
  split; [exact Hr|]. split; [exact Hj|]. split; [exact Hn|].
  destruct (proj1 (next_without_jitter (Fin (1#2)) no_jitter Hr Hj Hb Hm Hn)
              ltac:(left; reflexivity))
    as (d & d' & H1 & H2 & _ & H4 & H5 & _).
  exists d, d'. auto.
Defined.

(** An instance of X14: with [maxAttempts = 0] the function that succeeds
    at its third invocation is invoked three times. *)
Lemma withBackoff_unbounded_retries_forever_witness :
  (maxAttempts (options (new (mkPartial None None (Some 0%Z) None))) <= 0)%Z /\
  w_invocations
    (withBackoff 5 flaky (fun _ => Fin (1#2))
       (mkPartial None None (Some 0%Z) None))
  = 3%nat /\
  w_outcome
    (withBackoff 5 flaky (fun _ => Fin (1#2))
       (mkPartial None None (Some 0%Z) None))
  = Some (inr "done"%string).
Proof.
  assert (H : (maxAttempts (options (new (mkPartial None None (Some 0%Z) None)))
               <= 0)%Z) by (vm_compute; discriminate).
  split; [exact H|].
  assert (Hfail : forall j, (j < 2)%nat -> failed (flaky j)).
  { intros [|[|j]] Hj; [exact I | exact I | lia]. }
  rewrite (proj1 (withBackoff_unbounded_retries_forever flaky
                    (fun _ => Fin (1#2))
                    (mkPartial None None (Some 0%Z) None) H)
             2%nat "done"%string 5%nat eq_refl Hfail ltac:(lia)).
  split; reflexivity.
Defined.

(** An instance of X15: three attempts, all failing. *)
Lemma withBackoff_sleeps_after_every_failure_witness :
  opt_maxAttempts (mkPartial None None (Some 3%Z) None)
    = Some (Z.of_nat 3) /\
  length (w_slept (withBackoff 4 always_failing (fun _ => Fin (1#2))
                     (mkPartial None None (Some 3%Z) None))) = 3%nat /\
  w_invocations (withBackoff 4 always_failing (fun _ => Fin (1#2))
                   (mkPartial None None (Some 3%Z) None)) = 3%nat.
Proof.
  assert (H : opt_maxAttempts (mkPartial None None (Some 3%Z) None)
              = Some (Z.of_nat 3)) by reflexivity.
  split; [exact H|].
  assert (Hfail : forall j, (j < 3)%nat -> failed (always_failing j)).
  { intros j _. exact I. }
  destruct (proj1 (withBackoff_sleeps_after_every_failure always_failing
                     (fun _ => Fin (1#2)) (mkPartial None None (Some 3%Z) None)
                     3 4 H ltac:(lia) ltac:(lia)) Hfail)
    as (_ & Hlen & Hinv).
  split; [exact Hlen | exact Hinv].
Defined.

(** An instance of X16: the default options. *)
Lemma withBackoff_sleeps_within_bounds_witness :
  (forall j : nat, drawn ((fun _ : nat => Fin (1#2)) j)) /\
  delay_bound (options (new (mkPartial None None None None))) = 72001%Z /\
  Forall (whole_up_to 72001)
    (w_slept (withBackoff 5 flaky (fun _ => Fin (1#2))
                (mkPartial None None None None))).
Proof.
  assert (Hr : forall j : nat, drawn ((fun _ : nat => Fin (1#2)) j)).
  { intros _. split; [reflexivity | split; [discriminate | reflexivity]]. }
  split; [exact Hr|]. split; [vm_compute; reflexivity|].
  refine (proj1 (proj2 (withBackoff_sleeps_within_bounds flaky
            (fun _ => Fin (1#2)) (mkPartial None None None None) 5 Hr _ _ _))
            _).
  - split; [reflexivity | split; discriminate].
  - split; [reflexivity | discriminate].
  - split; [reflexivity | split; discriminate].
  - reflexivity.
Defined.

End BackoffInstances.

Section AutoPlayInstances.

Import AutoPlay.

(** An instance of X23: the first finished track enters an empty
    history. *)
Lemma execute_remembers_first_in_first_out_witness :
  tidy [] /\
  fst (fst (execute radio [] (Some (song "a")))) = ["a"] /\
  fst (fst (execute offline [] (Some (song "a")))) = [].
Proof.
  assert (Ht : tidy []).
  { split; [constructor|]. split; [apply not_elem_of_nil|]. cbn. lia. }
  split; [exact Ht|].
  destruct (execute_remembers_first_in_first_out radio [] (song "a") "a" Ht
              eq_refl ltac:(discriminate)) as (Hon & _ & _).
  destruct (execute_remembers_first_in_first_out offline [] (song "a") "a" Ht
              eq_refl ltac:(discriminate)) as (_ & Hoff & _).
  split.
  - rewrite (proj1 (Hon eq_refl)). reflexivity.
  - exact (Hoff eq_refl).
Defined.

(** An instance of X25: a YouTube mix with three tracks. *)
Lemma execute_plays_a_recommendation_witness :
  search radio 0 "https://www.youtube.com/watch?v=a&list=RDa" "ytsearch"
    = inr (Load_playlist [song "a"; song "b"; song "c"]) /\
  snd (execute radio [] (Some (song "a"))) = true.
Proof.
  assert (H : search radio 0 "https://www.youtube.com/watch?v=a&list=RDa"
                "ytsearch"
              = inr (Load_playlist [song "a"; song "b"; song "c"]))
    by reflexivity.
  split; [exact H|].
  refine (execute_plays_a_recommendation radio [] (song "a") "a"
            (Load_playlist [song "a"; song "b"; song "c"])
            eq_refl eq_refl _ _ _ H _ _ eq_refl).
  - discriminate.
  - discriminate.
  - discriminate.
  - discriminate.
  - split; [discriminate | reflexivity].
Defined.

End AutoPlayInstances.
